(** * Scalar multiplication engines over GF(p) points (Botan, ec_group)

    A shallow embedding of [point_mul.cpp] and of the inline members of
    [point_gfp.h]: the fixed-base, variable-point and multi-scalar
    precomputation engines, with the windowed tables kept as flat word
    lists, the oblivious selection written with masks, the random number
    generator threaded as state and every failure (exception, assertion,
    read past the end of a table) made an explicit outcome.  The hash
    address of [sp_address.h] is embedded beside them, as an array of
    eight words with its setters, copies and byte forms. *)

From Stdlib Require Import String ZArith List Bool Lia.
From Stdlib Require Import Zdivisibility Zcong Zmod Ring Field.
Import ListNotations.
Local Open Scope Z_scope.

(** ** Outcomes *)

(** What a call can end in besides returning: the exceptions the code
    throws, a failed [BOTAN_ASSERT], and a read outside a vector (undefined
    behaviour in C++, kept apart here so that it can be stated). *)
Inductive failure : Type :=
| Invalid_Argument (msg : string)
| Encoding_Error
| Assertion_Failure
| Out_Of_Bounds.

Inductive outcome (A : Type) : Type :=
| Ok (a : A)
| Fail (f : failure).
Arguments Ok {A} a.
Arguments Fail {A} f.

Definition bind {A B : Type} (m : outcome A) (k : A -> outcome B) : outcome B :=
  match m with
  | Ok a => k a
  | Fail f => Fail f
  end.

Notation "x <- m ;; k" := (bind m (fun x => k))
  (at level 61, m at next level, right associativity).

Fixpoint collect {A : Type} (l : list (outcome A)) : outcome (list A) :=
  match l with
  | [] => Ok []
  | m :: l' => a <- m ;; r <- collect l' ;; Ok (a :: r)
  end.

(** [0, 1, ..., n-1], the index range of a [for(size_t j = 0; j != n; ++j)]. *)
Definition zrange (n : Z) : list Z := map Z.of_nat (seq 0 (Z.to_nat n)).

(** A checked vector read: [v[i]]. *)
Definition read (v : list Z) (i : Z) : outcome Z :=
  if i <? 0 then Fail Out_Of_Bounds
  else match nth_error v (Z.to_nat i) with
       | Some w => Ok w
       | None => Fail Out_Of_Bounds
       end.

(** ** The big-integer collaborator

    Modelled from the spec: [BigInt] is not among the sources; the spec lists
    what it supplies (arbitrary-precision arithmetic, a bit length and a
    substring extraction used for windowing, word encoding).  A [BigInt] is
    a [Z]; bit length and substrings look at the magnitude, as a
    sign-and-magnitude integer does. *)
Module BigInt.

(** Width of a machine word ([word] is 64 bits wide). *)
Definition word_bits : Z := 64.

Definition is_negative (n : Z) : bool := n <? 0.

Definition is_zero (n : Z) : bool := n =? 0.

Definition bits (n : Z) : Z :=
  if n =? 0 then 0 else Z.log2 (Z.abs n) + 1.

Definition sig_words (n : Z) : Z := (bits n + (word_bits - 1)) / word_bits.

Definition get_substring (n offset length : Z) : Z :=
  Z.land (Z.shiftr (Z.abs n) offset) (Z.ones length).

Definition set_bit (n i : Z) : Z := Z.lor n (Z.shiftl 1 i).

(** Little-endian words of a magnitude, and back. *)
Fixpoint split_words (n : nat) (v : Z) : list Z :=
  match n with
  | O => []
  | S n' => v mod 2 ^ word_bits :: split_words n' (v / 2 ^ word_bits)
  end.

Fixpoint eval_words (ws : list Z) : Z :=
  match ws with
  | [] => 0
  | w :: ws' => w + 2 ^ word_bits * eval_words ws'
  end.

(** [encode_words(out, size)]: fails when the value has more significant
    words than [size], else writes [size] words. *)
Definition encode_words (n size : Z) : outcome (list Z) :=
  if size <? sig_words n then Fail Encoding_Error
  else Ok (split_words (Z.to_nat size) (Z.abs n)).

(** [data()] read through a length capped at [size] words: the words past
    the allocated ones are zero, so the value read is that of the first
    [size] words of the magnitude. *)
Definition data (n size : Z) : list Z := split_words (Z.to_nat size) (Z.abs n).

End BigInt.

(** [round_up(n, align_to)] of rounding.h (not among the sources): the next
    multiple of [align_to]. *)
Definition round_up (n align_to : Z) : Z :=
  if n mod align_to =? 0 then n else n + (align_to - n mod align_to).

(** [Modular_Reducer]: reduction modulo a fixed modulus. *)
Record Modular_Reducer : Type := { get_modulus : Z }.

Definition reduce (r : Modular_Reducer) (x : Z) : Z := x mod get_modulus r.

(** ** Constant-time masks (ct_utils.h, not among the sources)

    [CT::Mask<word>::is_equal(x, y)] is the all-ones word when [x = y] and
    zero otherwise; [if_set_return] is a bitwise and. *)
Module CT.
Definition is_equal (x y : Z) : Z :=
  if x =? y then Z.ones BigInt.word_bits else 0.
Definition if_set_return (mask x : Z) : Z := Z.land mask x.
End CT.

(** ** The random number generator

    The generator is an interface: whether it has entropy, and a source of
    draws.  A draw consumes one position of the output sequence. *)
Record RandomNumberGenerator : Type := {
  is_seeded : bool;
  rng_output : nat -> Z;
  rng_position : nat
}.

Definition rng_advance (rng : RandomNumberGenerator) : RandomNumberGenerator :=
  {| is_seeded := is_seeded rng;
     rng_output := rng_output rng;
     rng_position := S (rng_position rng) |}.

(** [BigInt(rng, bits, set_high_bit)] and [BigInt::randomize]: a value below
    [2^bitsize], with bit [bitsize - 1] forced when [set_high_bit]; nothing
    is drawn for [bitsize = 0]. *)
Definition random_bits (rng : RandomNumberGenerator) (bitsize : Z) (set_high_bit : bool)
  : Z * RandomNumberGenerator :=
  if bitsize <=? 0 then (0, rng)
  else
    let v := rng_output rng (rng_position rng) mod 2 ^ bitsize in
    ((if set_high_bit then BigInt.set_bit v (bitsize - 1) else v), rng_advance rng).

(** ** Curve descriptor and projective point *)

Record CurveGFp : Type := { get_p : Z; get_a : Z; get_b : Z }.

(** Modelled from the spec: curve_gfp.h is not among the sources; equality
    between two descriptors is by value of p, a and b. *)
Definition CurveGFp_eqb (c1 c2 : CurveGFp) : bool :=
  (get_p c1 =? get_p c2) && (get_a c1 =? get_a c2) && (get_b c1 =? get_b c2).

Definition get_p_words (c : CurveGFp) : Z := BigInt.sig_words (get_p c).

(** Modelled from the spec: the reduction context's modular multiplication
    and squaring. *)
Definition curve_mul (c : CurveGFp) (x y : Z) : Z := (x * y) mod get_p c.
Definition curve_sqr (c : CurveGFp) (x : Z) : Z := curve_mul c x x.

Record PointGFp : Type := {
  m_curve : CurveGFp;
  m_coord_x : Z;
  m_coord_y : Z;
  m_coord_z : Z
}.

Definition get_curve (P : PointGFp) : CurveGFp := m_curve P.
Definition get_x (P : PointGFp) : Z := m_coord_x P.
Definition get_y (P : PointGFp) : Z := m_coord_y P.
Definition get_z (P : PointGFp) : Z := m_coord_z P.

Definition is_zero (P : PointGFp) : bool := BigInt.is_zero (m_coord_z P).

Definition negate (P : PointGFp) : PointGFp :=
  if negb (is_zero P)
  then {| m_curve := m_curve P;
          m_coord_x := m_coord_x P;
          m_coord_y := get_p (m_curve P) - m_coord_y P;
          m_coord_z := m_coord_z P |}
  else P.

Definition swap_coords (P : PointGFp) (new_x new_y new_z : Z) : PointGFp :=
  {| m_curve := m_curve P;
     m_coord_x := new_x; m_coord_y := new_y; m_coord_z := new_z |}.

(** Modelled from the spec: the affine point a triple represents,
    (X/Z^2, Y/Z^3), and the identity when Z = 0 ([get_affine_x],
    [get_affine_y] of point_gfp.cpp, not among the sources). *)
Definition affine_of (P : PointGFp) : option (Z * Z) :=
  let p := get_p (m_curve P) in
  if m_coord_z P mod p =? 0 then None
  else
    let zi := Z.invmod (m_coord_z P) p in
    Some ((m_coord_x P * (zi * zi)) mod p, (m_coord_y P * (zi * zi * zi)) mod p).

(** Modelled from the spec: equality compares the represented affine points,
    not the raw coordinate triples ([operator==]). *)
Definition point_equal (P Q : PointGFp) : Prop :=
  CurveGFp_eqb (m_curve P) (m_curve Q) = true /\ affine_of P = affine_of Q.

(** The members of point_gfp.cpp that the engines call and that are not
    among the sources: the constructor of the zero point, the array forms of
    addition, doubling, batch affine conversion and the on-curve check.
    They are an interface here; what the spec says of them is
    [PointArithLaws] below. *)
Class PointArith : Type := {
  zero_point : CurveGFp -> PointGFp;
  add_words : PointGFp -> list Z -> list Z -> list Z -> PointGFp;
  add_affine_words : PointGFp -> list Z -> list Z -> PointGFp;
  mult2 : PointGFp -> PointGFp;
  force_all_affine : list PointGFp -> list PointGFp;
  on_the_curve : PointGFp -> bool
}.

Section Engines.

Context {PA : PointArith}.

Definition zero (P : PointGFp) : PointGFp := zero_point (m_curve P).

(** A mutating member is a function from the object to an outcome and the
    object afterwards. *)
Definition add (this other : PointGFp) : outcome unit * PointGFp :=
  if negb (CurveGFp_eqb (m_curve this) (m_curve other))
  then (Fail (Invalid_Argument "cannot add points on different curves"), this)
  else
    let p_words := get_p_words (m_curve this) in
    (Ok tt, add_words this (BigInt.data (m_coord_x other) p_words)
                           (BigInt.data (m_coord_y other) p_words)
                           (BigInt.data (m_coord_z other) p_words)).

(** [BOTAN_DEBUG_ASSERT(other.is_affine())] is compiled out. *)
Definition add_affine (this other : PointGFp) : outcome unit * PointGFp :=
  if negb (CurveGFp_eqb (m_curve this) (m_curve other))
  then (Fail Assertion_Failure, this)
  else
    let p_words := get_p_words (m_curve this) in
    (Ok tt, add_affine_words this (BigInt.data (m_coord_x other) p_words)
                                  (BigInt.data (m_coord_y other) p_words)).

Definition plus (this other : PointGFp) : outcome PointGFp :=
  match add this other with
  | (Ok _, x) => Ok x
  | (Fail f, _) => Fail f
  end.

Definition double_of (this : PointGFp) : PointGFp := mult2 this.

(** Modelled from the spec: [mult2i(i)] is point doubling repeated [i]
    times. *)
Definition mult2i (i : Z) (P : PointGFp) : PointGFp :=
  Nat.iter (Z.to_nat i) mult2 P.

(** The rescaling (X, Y, Z) -> (r^2 X, r^3 Y, r Z), as the variable-point
    constructor writes it with [curve.sqr] and [curve.mul]. *)
Definition rescale (curve : CurveGFp) (mask : Z) (P : PointGFp) : PointGFp :=
  let mask2 := curve_sqr curve mask in
  let mask3 := curve_mul curve mask mask2 in
  let new_x := curve_mul curve (get_x P) mask2 in
  let new_y := curve_mul curve (get_y P) mask3 in
  let new_z := curve_mul curve (get_z P) mask in
  swap_coords P new_x new_y new_z.

(** The mask of the variable-point constructor: [p_bits - 1] random bits
    with bit 0 set. *)
Definition random_mask (curve : CurveGFp) (rng : RandomNumberGenerator)
  : Z * RandomNumberGenerator :=
  let p_bits := BigInt.bits (get_p curve) in
  let (m, rng') := random_bits rng (p_bits - 1) false in
  (BigInt.set_bit m 0, rng').

(** Modelled from the spec: [randomize_repr] re-homogenizes
    (X, Y, Z) -> (r^2 X, r^3 Y, r Z) for a random nonzero r; the mask is
    drawn as the variable-point constructor draws its own. *)
Definition randomize_repr (P : PointGFp) (rng : RandomNumberGenerator)
  : PointGFp * RandomNumberGenerator :=
  let (mask, rng') := random_mask (m_curve P) rng in
  (rescale (m_curve P) mask P, rng').

(** k applications of [+ P] to the identity. *)
Fixpoint repeated_add (k : nat) (P : PointGFp) : outcome PointGFp :=
  match k with
  | O => Ok (zero P)
  | S k' => R <- repeated_add k' P ;; plus R P
  end.


(** *** Fixed-base precomputation engine *)

(** [WINDOW_BITS] and [WINDOW_SIZE] of point_mul.h (not among the
    sources): seven table entries per window, for the window values 1..7
    of a three-bit window. *)
Definition WINDOW_BITS : Z := 3.
Definition WINDOW_SIZE : Z := 7.

Definition blinding_size (group_order : Z) : Z :=
  (BigInt.bits group_order + 1) / 2.

Record PointGFp_Base_Point_Precompute : Type := {
  m_base_point : PointGFp;
  m_mod_order : Modular_Reducer;
  m_p_words : Z;
  m_W : list Z
}.

Definition base_T_bits (base : PointGFp) (mod_order : Modular_Reducer) : Z :=
  let p_bits := BigInt.bits (get_p (get_curve base)) in
  round_up (p_bits + blinding_size (get_modulus mod_order) + 1) WINDOW_BITS / WINDOW_BITS.

(** The table loop: iteration [i] fills [T[7*i+0 .. 7*i+6]]; the slots are
    filled in increasing order, so the vector is grown at its end. *)
Fixpoint base_table_loop (n : nat) (g : PointGFp) (T : list PointGFp)
  : outcome (list PointGFp) :=
  match n with
  | O => Ok T
  | S n' =>
      let g2 := mult2 g in
      let g4 := mult2 g2 in
      t2 <- plus g2 g ;;
      t4 <- plus g4 g ;;
      t5 <- plus g4 g2 ;;
      t6 <- plus g4 t2 ;;
      base_table_loop n' (mult2 g4) (T ++ [g; g2; t2; g4; t4; t5; t6])
  end.

Fixpoint encode_affine_table (T : list PointGFp) (p_words : Z) : outcome (list Z) :=
  match T with
  | [] => Ok []
  | P :: T' =>
      xs <- BigInt.encode_words (get_x P) p_words ;;
      ys <- BigInt.encode_words (get_y P) p_words ;;
      rest <- encode_affine_table T' p_words ;;
      Ok (xs ++ ys ++ rest)
  end.

Definition base_precompute (base : PointGFp) (mod_order : Modular_Reducer)
  : outcome PointGFp_Base_Point_Precompute :=
  let p_words := BigInt.sig_words (get_p (get_curve base)) in
  let T_bits := base_T_bits base mod_order in
  T <- base_table_loop (Z.to_nat T_bits) base [] ;;
  W <- encode_affine_table (force_all_affine T) p_words ;;
  Ok {| m_base_point := base; m_mod_order := mod_order;
        m_p_words := p_words; m_W := W |}.

(** The scalar the window loop processes: blinded when the generator is
    seeded, padded with one or two copies of the order otherwise. *)
Definition base_scalar (mod_order : Modular_Reducer) (k group_order : Z)
           (rng : RandomNumberGenerator) : Z * RandomNumberGenerator :=
  let scalar := reduce mod_order k in
  if is_seeded rng then
    let (mask, rng') := random_bits rng (blinding_size group_order) true in
    (scalar + group_order * mask, rng')
  else
    let scalar := scalar + group_order in
    ((if BigInt.bits scalar =? BigInt.bits group_order
      then scalar + group_order else scalar), rng).

(** One word of the selected entry: all seven candidates are read and
    combined under their masks. *)
Definition base_select_word (W : list Z) (base_addr elem_size w j : Z) : outcome Z :=
  r1 <- read W (base_addr + 0 * elem_size + j) ;;
  r2 <- read W (base_addr + 1 * elem_size + j) ;;
  r3 <- read W (base_addr + 2 * elem_size + j) ;;
  r4 <- read W (base_addr + 3 * elem_size + j) ;;
  r5 <- read W (base_addr + 4 * elem_size + j) ;;
  r6 <- read W (base_addr + 5 * elem_size + j) ;;
  r7 <- read W (base_addr + 6 * elem_size + j) ;;
  let w1 := CT.if_set_return (CT.is_equal w 1) r1 in
  let w2 := CT.if_set_return (CT.is_equal w 2) r2 in
  let w3 := CT.if_set_return (CT.is_equal w 3) r3 in
  let w4 := CT.if_set_return (CT.is_equal w 4) r4 in
  let w5 := CT.if_set_return (CT.is_equal w 5) r5 in
  let w6 := CT.if_set_return (CT.is_equal w 6) r6 in
  let w7 := CT.if_set_return (CT.is_equal w 7) r7 in
  Ok (Z.lor (Z.lor (Z.lor (Z.lor (Z.lor (Z.lor w1 w2) w3) w4) w5) w6) w7).

Definition base_select (W : list Z) (base_addr elem_size w : Z) : outcome (list Z) :=
  collect (map (base_select_word W base_addr elem_size w) (zrange elem_size)).

(** The window loop, from iteration [i] on, [n] iterations left. *)
Fixpoint base_mul_loop (E : PointGFp_Base_Point_Precompute) (scalar windows : Z)
         (n : nat) (i : Z) (R : PointGFp) (rng : RandomNumberGenerator)
  : outcome PointGFp * RandomNumberGenerator :=
  match n with
  | O => (Ok R, rng)
  | S n' =>
      let elem_size := 2 * m_p_words E in
      let window := windows - i - 1 in
      let base_addr := (WINDOW_SIZE * window) * elem_size in
      let w := BigInt.get_substring scalar (WINDOW_BITS * window) WINDOW_BITS in
      match base_select (m_W E) base_addr elem_size w with
      | Fail f => (Fail f, rng)
      | Ok Wt =>
          let p_words := Z.to_nat (m_p_words E) in
          let R := add_affine_words R (firstn p_words Wt)
                                      (firstn p_words (skipn p_words Wt)) in
          let (R, rng) :=
            if (i =? 0) && is_seeded rng then randomize_repr R rng else (R, rng) in
          base_mul_loop E scalar windows n' (i + 1) R rng
      end
  end.

(** The rest of [mul] once the scalar is fixed: the number of windows,
    the assertion on the table size and the window loop. *)
Definition base_mul_scalar (E : PointGFp_Base_Point_Precompute) (scalar : Z)
           (rng : RandomNumberGenerator) : outcome PointGFp * RandomNumberGenerator :=
  let windows := round_up (BigInt.bits scalar) WINDOW_BITS / WINDOW_BITS in
  let elem_size := 2 * m_p_words E in
  if negb (windows <=? Z.of_nat (length (m_W E)) / (3 * elem_size))
  then (Fail Assertion_Failure, rng)
  else
    base_mul_loop E scalar windows (Z.to_nat windows) 0 (zero (m_base_point E)) rng.

(** [BOTAN_DEBUG_ASSERT]s are compiled out; the scratch pool holds
    temporaries only and is left out. *)
Definition base_mul (E : PointGFp_Base_Point_Precompute) (k : Z)
           (rng : RandomNumberGenerator) (group_order : Z)
  : outcome PointGFp * RandomNumberGenerator :=
  if BigInt.is_negative k
  then (Fail (Invalid_Argument "PointGFp_Base_Point_Precompute scalar must be positive"), rng)
  else
    let (scalar, rng) := base_scalar (m_mod_order E) k group_order rng in
    base_mul_scalar E scalar rng.

(** *** Variable-point precomputation engine *)

Record PointGFp_Var_Point_Precompute : Type := {
  var_m_curve : CurveGFp;
  var_m_p_words : Z;
  m_window_bits : Z;
  m_T : list Z
}.

(** [for(size_t i = 2; i < U.size(); i += 2)]: [n] iterations left, the
    slots [U[i]], [U[i+1]] are the next two, so the vector is grown at its
    end; [U[i/2]] is a slot filled earlier. *)
Fixpoint var_table_loop (n : nat) (i : Z) (point : PointGFp) (U : list PointGFp)
  : outcome (list PointGFp) :=
  match n with
  | O => Ok U
  | S n' =>
      match nth_error U (Z.to_nat (i / 2)) with
      | None => Fail Out_Of_Bounds
      | Some h =>
          let d := double_of h in
          s <- plus d point ;;
          var_table_loop n' (i + 2) point (U ++ [d; s])
      end
  end.

(** [for(size_t i = 1; i != U.size(); ++i)] of the seeded branch, over the
    entries after [U[0]]. *)
Fixpoint var_randomize (curve : CurveGFp) (U : list PointGFp) (rng : RandomNumberGenerator)
  : list PointGFp * RandomNumberGenerator :=
  match U with
  | [] => ([], rng)
  | P :: U' =>
      let (mask, rng1) := random_mask curve rng in
      let P' := rescale curve mask P in
      let (r, rng2) := var_randomize curve U' rng1 in
      (P' :: r, rng2)
  end.

Fixpoint encode_jacobian_table (U : list PointGFp) (p_words : Z) : outcome (list Z) :=
  match U with
  | [] => Ok []
  | P :: U' =>
      xs <- BigInt.encode_words (get_x P) p_words ;;
      ys <- BigInt.encode_words (get_y P) p_words ;;
      zs <- BigInt.encode_words (get_z P) p_words ;;
      rest <- encode_jacobian_table U' p_words ;;
      Ok (xs ++ ys ++ zs ++ rest)
  end.

Definition var_table (point : PointGFp) (window_bits : Z) : outcome (list PointGFp) :=
  let size := Z.shiftl 1 window_bits in
  var_table_loop (Z.to_nat ((size - 2) / 2)) 2 point [zero point; point].

Definition var_precompute (point : PointGFp) (rng : RandomNumberGenerator)
  : outcome PointGFp_Var_Point_Precompute * RandomNumberGenerator :=
  let curve := get_curve point in
  let p_words := BigInt.sig_words (get_p curve) in
  let window_bits := 4 in
  match var_table point window_bits with
  | Fail f => (Fail f, rng)
  | Ok U =>
      let (U, rng) :=
        if is_seeded rng then
          match U with
          | [] => (U, rng)
          | U0 :: rest =>
              let (rest', rng') := var_randomize (get_curve U0) rest rng in
              (U0 :: rest', rng')
          end
        else (U, rng) in
      (T <- encode_jacobian_table U p_words ;;
       Ok {| var_m_curve := curve; var_m_p_words := p_words;
             m_window_bits := window_bits; m_T := T |}, rng)
  end.

(** One word of the selected entry: [e[j] |= wmask.if_set_return(...)]
    over the candidates [is]. *)
Fixpoint var_select_word (T : list Z) (elem_size w j : Z) (candidates : list Z) (e : Z)
  : outcome Z :=
  match candidates with
  | [] => Ok e
  | i :: rest =>
      r <- read T (i * elem_size + j) ;;
      var_select_word T elem_size w j rest
                      (Z.lor e (CT.if_set_return (CT.is_equal w i) r))
  end.

Definition var_select (T : list Z) (elem_size window_elems w : Z) : outcome (list Z) :=
  collect (map (fun j => var_select_word T elem_size w j (tl (zrange window_elems)) 0)
               (zrange elem_size)).

Definition var_add_selected (E : PointGFp_Var_Point_Precompute) (R : PointGFp) (e : list Z)
  : PointGFp :=
  let p_words := Z.to_nat (var_m_p_words E) in
  add_words R (firstn p_words e)
              (firstn p_words (skipn p_words e))
              (firstn p_words (skipn (2 * p_words) e)).

(** [while(windows)], [n] iterations left. *)
Fixpoint var_mul_loop (E : PointGFp_Var_Point_Precompute) (scalar : Z)
         (n : nat) (windows : Z) (R : PointGFp) : outcome PointGFp :=
  match n with
  | O => Ok R
  | S n' =>
      let elem_size := 3 * var_m_p_words E in
      let window_elems := Z.shiftl 1 (m_window_bits E) in
      let R := mult2i (m_window_bits E) R in
      let w := BigInt.get_substring scalar ((windows - 1) * m_window_bits E)
                                    (m_window_bits E) in
      e <- var_select (m_T E) elem_size window_elems w ;;
      var_mul_loop E scalar n' (windows - 1) (var_add_selected E R e)
  end.

Definition var_mul (E : PointGFp_Var_Point_Precompute) (k : Z)
           (rng : RandomNumberGenerator) (group_order : Z)
  : outcome PointGFp * RandomNumberGenerator :=
  if BigInt.is_negative k
  then (Fail (Invalid_Argument "PointGFp_Var_Point_Precompute scalar must be positive"), rng)
  else
    let (mask, rng) := random_bits rng (blinding_size group_order) false in
    let scalar := k + group_order * mask in
    let elem_size := 3 * var_m_p_words E in
    let window_elems := Z.shiftl 1 (m_window_bits E) in
    let windows := round_up (BigInt.bits scalar) (m_window_bits E) / m_window_bits E in
    let R := zero_point (var_m_curve E) in
    if 0 <? windows then
      let windows := windows - 1 in
      let w := BigInt.get_substring scalar (windows * m_window_bits E)
                                    (m_window_bits E) in
      match var_select (m_T E) elem_size window_elems w with
      | Fail f => (Fail f, rng)
      | Ok e =>
          let R := var_add_selected E R e in
          let (R, rng) := randomize_repr R rng in
          (var_mul_loop E scalar (Z.to_nat windows) windows R, rng)
      end
    else (Ok R, rng).

(** *** Multi-scalar engine *)

Record PointGFp_Multi_Point_Precompute : Type := {
  m_M : list PointGFp;
  m_no_infinity : bool
}.

(** On the early return [m_no_infinity] is left unset; it is never read
    for a one-entry table. *)
Definition multi_precompute (x y : PointGFp) : outcome PointGFp_Multi_Point_Precompute :=
  if negb (on_the_curve x) || negb (on_the_curve y)
  then Ok {| m_M := [zero x]; m_no_infinity := false |}
  else
    let x2 := mult2 x in
    x3 <- plus x2 x ;;
    let y2 := mult2 y in
    y3 <- plus y2 y ;;
    yx <- plus y x ;;
    yx2 <- plus y x2 ;;
    yx3 <- plus y x3 ;;
    y2x <- plus y2 x ;;
    y2x2 <- plus y2 x2 ;;
    y2x3 <- plus y2 x3 ;;
    y3x <- plus y3 x ;;
    y3x2 <- plus y3 x2 ;;
    y3x3 <- plus y3 x3 ;;
    let M := [x; x2; x3; y; yx; yx2; yx3; y2; y2x; y2x2; y2x3; y3; y3x; y3x2; y3x3] in
    let no_infinity := forallb (fun pt => negb (is_zero pt)) M in
    Ok {| m_M := if no_infinity then force_all_affine M else M;
          m_no_infinity := no_infinity |}.

(** [for(size_t i = 0; i != z_bits; i += 2)], [n] iterations left. *)
Fixpoint multi_exp_loop (E : PointGFp_Multi_Point_Precompute) (z1 z2 z_bits : Z)
         (n : nat) (i : Z) (H : PointGFp) : outcome PointGFp :=
  match n with
  | O => Ok H
  | S n' =>
      let H := if 0 <? i then mult2i 2 H else H in
      let z1_b := BigInt.get_substring z1 (z_bits - i - 2) 2 in
      let z2_b := BigInt.get_substring z2 (z_bits - i - 2) 2 in
      let z12 := 4 * z2_b + z1_b in
      H <- (if z12 =? 0 then Ok H
            else
              e <- match nth_error (m_M E) (Z.to_nat (z12 - 1)) with
                   | Some e => Ok e
                   | None => Fail Out_Of_Bounds
                   end ;;
              match (if m_no_infinity E then add_affine H e else add H e) with
              | (Ok _, H') => Ok H'
              | (Fail f, _) => Fail f
              end) ;;
      multi_exp_loop E z1 z2 z_bits n' (i + 2) H
  end.

Definition multi_exp (E : PointGFp_Multi_Point_Precompute) (z1 z2 : Z) : outcome PointGFp :=
  match m_M E with
  | [] => Fail Out_Of_Bounds
  | M0 :: rest =>
      if Z.of_nat (length (m_M E)) =? 1 then Ok M0
      else
        let z_bits := round_up (Z.max (BigInt.bits z1) (BigInt.bits z2)) 2 in
        H <- multi_exp_loop E z1 z2 z_bits (Z.to_nat (z_bits / 2)) 0 (zero M0) ;;
        Ok (if negb (Bool.eqb (BigInt.is_negative z1) (BigInt.is_negative z2))
            then negate H else H)
  end.

Definition multi_exponentiate (x : PointGFp) (z1 : Z) (y : PointGFp) (z2 : Z)
  : outcome PointGFp :=
  xy_mul <- multi_precompute x y ;;
  multi_exp xy_mul z1 z2.

End Engines.

(** ** What the spec says of the point arithmetic *)

(** The group of affine points, as an abstract commutative group. *)
Class AbGroup (G : Type) : Type := {
  gzero : G;
  gadd : G -> G -> G;
  gopp : G -> G;
  gadd_assoc : forall a b c, gadd a (gadd b c) = gadd (gadd a b) c;
  gadd_comm : forall a b, gadd a b = gadd b a;
  gadd_0_l : forall a, gadd gzero a = a;
  gadd_opp_r : forall a, gadd a (gopp a) = gzero
}.

(** n-fold sum in the group. *)
Fixpoint nmul {G : Type} {AG : AbGroup G} (n : nat) (g : G) : G :=
  match n with
  | O => gzero
  | S n' => gadd (nmul n' g) g
  end.

(** Multiples by a non-negative integer. *)
Definition zmul {G : Type} {AG : AbGroup G} (k : Z) (g : G) : G := nmul (Z.to_nat k) g.

Definition in_field (c : CurveGFp) (v : Z) : Prop := 0 <= v < get_p c.

(** The projective curve equation Y^2 = X^3 + a X Z^4 + b Z^6 (mod p). *)
Definition curve_equation (c : CurveGFp) (x y z : Z) : Z :=
  (y * y - (x * x * x + get_a c * x * (z * z * z * z) + get_b c * (z * z * z * z * z * z)))
    mod get_p c.

(** A well-formed point of the curve [cv]: reduced coordinates; the identity
    is held with X = 0 and Z = 0 (as the zero point and the all-zero table
    selection are), every other point satisfies the curve equation. *)
Definition valid (cv : CurveGFp) (P : PointGFp) : Prop :=
  m_curve P = cv /\
  in_field cv (m_coord_x P) /\ in_field cv (m_coord_y P) /\ in_field cv (m_coord_z P) /\
  ((m_coord_z P = 0 /\ m_coord_x P = 0) \/
   (m_coord_z P <> 0 /\ curve_equation cv (m_coord_x P) (m_coord_y P) (m_coord_z P) = 0)).

Definition mk_point (cv : CurveGFp) (x y z : Z) : PointGFp :=
  {| m_curve := cv; m_coord_x := x; m_coord_y := y; m_coord_z := z |}.

(** The group element a point stands for, through an embedding of the
    affine points. *)
Definition denote {G : Type} (embed : option (Z * Z) -> G) (P : PointGFp) : G :=
  embed (affine_of P).

(** Modelled from the spec: the contract of the members of point_gfp.cpp
    that are not among the sources.  Addition is Jacobian point addition and
    [mult2] point doubling: through [embed] the represented affine points
    form a commutative group.  [add_affine] is mixed addition of an affine
    point, the all-zero selection standing for the identity.  Batch affine
    conversion keeps each point and makes its Z equal to 1; it divides by
    the Z coordinates, so it is specified for points other than the
    identity. *)
Record PointArithLaws {PA : PointArith} {G : Type} {AG : AbGroup G}
       (cv : CurveGFp) (embed : option (Z * Z) -> G) : Prop := {
  law_prime : Z.prime (get_p cv);
  law_embed_zero : embed None = gzero;
  law_embed_inj : forall P Q, valid cv P -> valid cv Q ->
    embed (affine_of P) = embed (affine_of Q) -> affine_of P = affine_of Q;
  law_zero : valid cv (zero_point cv) /\ is_zero (zero_point cv) = true;
  law_add : forall P xs ys zs,
    valid cv P ->
    valid cv (mk_point cv (BigInt.eval_words xs) (BigInt.eval_words ys) (BigInt.eval_words zs)) ->
    valid cv (add_words P xs ys zs) /\
    embed (affine_of (add_words P xs ys zs)) =
    gadd (embed (affine_of P))
         (embed (affine_of (mk_point cv (BigInt.eval_words xs) (BigInt.eval_words ys)
                                     (BigInt.eval_words zs))));
  law_add_affine : forall P xs ys,
    valid cv P ->
    valid cv (mk_point cv (BigInt.eval_words xs) (BigInt.eval_words ys) 1) ->
    valid cv (add_affine_words P xs ys) /\
    embed (affine_of (add_affine_words P xs ys)) =
    gadd (embed (affine_of P))
         (embed (affine_of (mk_point cv (BigInt.eval_words xs) (BigInt.eval_words ys) 1)));
  law_add_affine_zero : forall P xs ys,
    valid cv P ->
    BigInt.eval_words xs = 0 -> BigInt.eval_words ys = 0 ->
    valid cv (add_affine_words P xs ys) /\
    affine_of (add_affine_words P xs ys) = affine_of P;
  law_mult2 : forall P,
    valid cv P ->
    valid cv (mult2 P) /\
    embed (affine_of (mult2 P)) = gadd (embed (affine_of P)) (embed (affine_of P));
  law_force_all_affine : forall T,
    Forall (fun P => valid cv P /\ is_zero P = false) T ->
    Forall2 (fun P Q => valid cv Q /\ m_coord_z Q = 1 /\ affine_of Q = affine_of P)
            T (force_all_affine T)
}.

(** ** The tables as the engines lay them out *)

(** The words of one affine table entry (x then y) and of one Jacobian
    table entry (x, y, z), each coordinate on [n] words. *)
Definition affine_words (n : nat) (P : PointGFp) : list Z :=
  BigInt.split_words n (m_coord_x P) ++ BigInt.split_words n (m_coord_y P).

Definition jacobian_words (n : nat) (P : PointGFp) : list Z :=
  BigInt.split_words n (m_coord_x P) ++ BigInt.split_words n (m_coord_y P)
    ++ BigInt.split_words n (m_coord_z P).

(** The multiple of the base point each fixed-base table slot holds: slot
    [7*i + c - 1] holds [c * 8^i], for c = 1..7. *)
Definition base_multipliers (T_bits : nat) : list Z :=
  flat_map (fun i => map (fun c => c * 8 ^ Z.of_nat i) [1; 2; 3; 4; 5; 6; 7]) (seq 0 T_bits).


(** Entry [i] of the fixed-base table, read back from the flat words; the
    entries are affine, so Z is 1. *)
Definition base_entry_at (E : PointGFp_Base_Point_Precompute) (i : Z) : PointGFp :=
  let n := Z.to_nat (m_p_words E) in
  let e := firstn (2 * n) (skipn (Z.to_nat i * (2 * n)) (m_W E)) in
  mk_point (m_curve (m_base_point E))
           (BigInt.eval_words (firstn n e))
           (BigInt.eval_words (firstn n (skipn n e)))
           1.

(** What the fixed-base table holds once built, for a base point standing
    for [g]: affine entries (Z = 1), slot by slot the multiples listed by
    [base_multipliers], flattened into [m_W]. *)
Definition base_table_spec {G : Type} {AG : AbGroup G} (cv : CurveGFp)
           (embed : option (Z * Z) -> G) (g : G) (T_bits : nat) (T : list PointGFp) : Prop :=
  Forall2 (fun Q m => valid cv Q /\ m_coord_z Q = 1 /\ denote embed Q = zmul m g)
          T (base_multipliers T_bits).

Definition base_engine_spec {PA : PointArith} {G : Type} {AG : AbGroup G} (cv : CurveGFp)
           (embed : option (Z * Z) -> G) (g : G) (T_bits : nat)
           (E : PointGFp_Base_Point_Precompute) : Prop :=
  m_curve (m_base_point E) = cv /\
  m_p_words E = get_p_words cv /\
  exists T, base_table_spec cv embed g T_bits T /\
            m_W E = flat_map (affine_words (Z.to_nat (get_p_words cv))) T.

(** What the variable-point table holds once built, for a point standing
    for [g]: entry [i] stands for [i] times the point, i = 0..15, as
    Jacobian triples flattened into [m_T]. *)
Definition var_engine_spec {PA : PointArith} {G : Type} {AG : AbGroup G} (cv : CurveGFp)
           (embed : option (Z * Z) -> G) (g : G)
           (E : PointGFp_Var_Point_Precompute) : Prop :=
  var_m_curve E = cv /\
  var_m_p_words E = get_p_words cv /\
  m_window_bits E = 4 /\
  exists U, Forall2 (fun Q m => valid cv Q /\ denote embed Q = zmul m g) U (zrange 16) /\
            m_T E = flat_map (jacobian_words (Z.to_nat (get_p_words cv))) U.

(** What the multi-scalar table holds once built on two points standing
    for [gx] and [gy]: slot [4*b + a - 1] holds [a] times the first plus
    [b] times the second, and every entry is affine when [m_no_infinity]
    is set. *)
Definition multi_multipliers : list (Z * Z) :=
  [(1, 0); (2, 0); (3, 0);
   (0, 1); (1, 1); (2, 1); (3, 1);
   (0, 2); (1, 2); (2, 2); (3, 2);
   (0, 3); (1, 3); (2, 3); (3, 3)].

Definition multi_engine_spec {G : Type} {AG : AbGroup G} (cv : CurveGFp)
           (embed : option (Z * Z) -> G) (gx gy : G)
           (E : PointGFp_Multi_Point_Precompute) : Prop :=
  Forall2 (fun Q ab => valid cv Q /\
                       denote embed Q = gadd (zmul (fst ab) gx) (zmul (snd ab) gy) /\
                       (m_no_infinity E = true -> m_coord_z Q = 1))
          (m_M E) multi_multipliers.

(** ** A reference point arithmetic

    Modelled from the spec: Jacobian addition and doubling for the curve
    y^2 = x^3 + a x + b with the identity, equal-point and opposite-point
    cases separated, affine conversion by one modular inversion, and the
    on-curve check of the projective equation.  It is one implementation of
    [PointArith], used to run the engines on a small curve. *)
Module Reference.

Definition ref_zero (c : CurveGFp) : PointGFp := mk_point c 0 1 0.

Definition ref_mult2 (P : PointGFp) : PointGFp :=
  let c := m_curve P in
  let p := get_p c in
  let X1 := m_coord_x P in
  let Y1 := m_coord_y P in
  let Z1 := m_coord_z P in
  if Z1 =? 0 then P
  else if Y1 =? 0 then ref_zero c
  else
    let S := (4 * X1 * (Y1 * Y1)) mod p in
    let M := (3 * (X1 * X1) + get_a c * (Z1 * Z1 * Z1 * Z1)) mod p in
    let X3 := (M * M - 2 * S) mod p in
    let Y3 := (M * (S - X3) - 8 * (Y1 * Y1 * Y1 * Y1)) mod p in
    let Z3 := (2 * Y1 * Z1) mod p in
    mk_point c X3 Y3 Z3.

Definition ref_add_coords (P : PointGFp) (X2 Y2 Z2 : Z) : PointGFp :=
  let c := m_curve P in
  let p := get_p c in
  let X1 := m_coord_x P in
  let Y1 := m_coord_y P in
  let Z1 := m_coord_z P in
  if Z2 =? 0 then P
  else if Z1 =? 0 then mk_point c X2 Y2 Z2
  else
    let U1 := (X1 * (Z2 * Z2)) mod p in
    let U2 := (X2 * (Z1 * Z1)) mod p in
    let S1 := (Y1 * (Z2 * Z2 * Z2)) mod p in
    let S2 := (Y2 * (Z1 * Z1 * Z1)) mod p in
    let H := (U2 - U1) mod p in
    let r := (S2 - S1) mod p in
    if H =? 0 then
      (if r =? 0 then ref_mult2 P else ref_zero c)
    else
      let X3 := (r * r - H * H * H - 2 * U1 * (H * H)) mod p in
      let Y3 := (r * (U1 * (H * H) - X3) - S1 * (H * H * H)) mod p in
      let Z3 := (H * Z1 * Z2) mod p in
      mk_point c X3 Y3 Z3.

Definition ref_add_words (P : PointGFp) (xs ys zs : list Z) : PointGFp :=
  ref_add_coords P (BigInt.eval_words xs) (BigInt.eval_words ys) (BigInt.eval_words zs).

(** Mixed addition; the all-zero selection is the identity. *)
Definition ref_add_affine_coords (P : PointGFp) (x y : Z) : PointGFp :=
  if (x =? 0) && (y =? 0) then P else ref_add_coords P x y 1.

Definition ref_add_affine_words (P : PointGFp) (xs ys : list Z) : PointGFp :=
  ref_add_affine_coords P (BigInt.eval_words xs) (BigInt.eval_words ys).

Definition ref_force_affine (P : PointGFp) : PointGFp :=
  let c := m_curve P in
  let p := get_p c in
  let zi := Z.invmod (m_coord_z P) p in
  mk_point c ((m_coord_x P * (zi * zi)) mod p) ((m_coord_y P * (zi * zi * zi)) mod p) 1.

Definition ref_on_the_curve (P : PointGFp) : bool :=
  if is_zero P then true
  else curve_equation (m_curve P) (m_coord_x P) (m_coord_y P) (m_coord_z P) =? 0.

#[export] Instance ref_arith : PointArith := {|
  zero_point := ref_zero;
  add_words := ref_add_words;
  add_affine_words := ref_add_affine_words;
  mult2 := ref_mult2;
  force_all_affine := map ref_force_affine;
  on_the_curve := ref_on_the_curve
|}.

End Reference.

(** ** A small curve

    y^2 = x^3 + 3x + 2 over GF(7): 9 points, cyclic, generated by (2, 3);
    the multiples of 3(2, 3) = (5, 3) form the subgroup of prime order 3. *)
Module Small.

Definition curve : CurveGFp := {| get_p := 7; get_a := 3; get_b := 2 |}.

Definition generator : PointGFp := mk_point curve 2 3 1.

(** The order of the generator, and that of the prime subgroup. *)
Definition order : Z := 9.
Definition subgroup_order : Z := 3.

(** The multiples k(2, 3), k = 1..8. *)
Definition multiples : list (Z * (Z * Z)) :=
  [(1, (2, 3)); (2, (4, 6)); (3, (5, 3)); (4, (0, 4));
   (5, (0, 3)); (6, (5, 4)); (7, (4, 1)); (8, (2, 4))].

Fixpoint log_of (l : list (Z * (Z * Z))) (xy : Z * Z) : Z :=
  match l with
  | [] => 0
  | (k, (x, y)) :: l' =>
      if (x =? fst xy) && (y =? snd xy) then k else log_of l' xy
  end.

Definition dlog_affine (a : option (Z * Z)) : Z :=
  match a with
  | None => 0
  | Some xy => log_of multiples xy
  end.

Definition dlog (P : PointGFp) : Z := dlog_affine (affine_of P).

(** The isomorphism of the curve's points with the integers modulo 9. *)
Definition embed (a : option (Z * Z)) : Zmod order := Zmod.of_Z order (dlog_affine a).

#[export] Instance Zmod_group (m : Z) : AbGroup (Zmod m) := {|
  gzero := Zmod.zero;
  gadd := Zmod.add;
  gopp := Zmod.opp;
  gadd_assoc := @Zmod.add_assoc m;
  gadd_comm := @Zmod.add_comm m;
  gadd_0_l := @Zmod.add_0_l m;
  gadd_opp_r := @Zmod.add_opp_same_r m
|}.

(** Every reduced coordinate triple over the curve. *)
Definition field_elements : list Z := zrange (get_p curve).

Definition all_triples : list PointGFp :=
  flat_map (fun x => flat_map (fun y => map (fun z => mk_point curve x y z) field_elements)
                              field_elements) field_elements.

Definition validb (P : PointGFp) : bool :=
  let x := m_coord_x P in
  let y := m_coord_y P in
  let z := m_coord_z P in
  CurveGFp_eqb (m_curve P) curve &&
  ((0 <=? x) && (x <? 7)) && ((0 <=? y) && (y <? 7)) && ((0 <=? z) && (z <? 7)) &&
  (((z =? 0) && (x =? 0)) || (negb (z =? 0) && (curve_equation curve x y z =? 0))).

Definition valid_points : list PointGFp := filter validb all_triples.

(** The checks that establish the contract on this curve, run over every
    valid triple. *)
Definition affine_eqb (a b : option (Z * Z)) : bool :=
  match a, b with
  | None, None => true
  | Some (x, y), Some (u, v) => (x =? u) && (y =? v)
  | _, _ => false
  end.

Definition logged_points : list (PointGFp * (option (Z * Z) * Z)) :=
  map (fun P => (P, (affine_of P, dlog P))) valid_points.

Definition check_inj (P Q : PointGFp * (option (Z * Z) * Z)) : bool :=
  implb (snd (snd P) mod order =? snd (snd Q) mod order)
        (affine_eqb (fst (snd P)) (fst (snd Q))).

Definition check_add (P Q : PointGFp * (option (Z * Z) * Z)) : bool :=
  let R := Reference.ref_add_coords (fst P) (m_coord_x (fst Q)) (m_coord_y (fst Q))
                                    (m_coord_z (fst Q)) in
  validb R && (dlog R mod order =? (snd (snd P) + snd (snd Q)) mod order).

Definition check_add_affine (P Q : PointGFp * (option (Z * Z) * Z)) : bool :=
  if m_coord_z (fst Q) =? 1 then
    let R := Reference.ref_add_affine_coords (fst P) (m_coord_x (fst Q))
                                             (m_coord_y (fst Q)) in
    validb R && (dlog R mod order =? (snd (snd P) + snd (snd Q)) mod order)
  else true.

Definition check_mult2 (P : PointGFp) : bool :=
  let R := Reference.ref_mult2 P in
  validb R && (dlog R mod order =? (dlog P + dlog P) mod order).

Definition check_force_affine (P : PointGFp) : bool :=
  if is_zero P then true
  else
    let Q := Reference.ref_force_affine P in
    validb Q && (m_coord_z Q =? 1) && affine_eqb (affine_of Q) (affine_of P).

Definition check_pairs (check : PointGFp * (option (Z * Z) * Z) ->
                                PointGFp * (option (Z * Z) * Z) -> bool) : bool :=
  forallb (fun P => forallb (check P) logged_points) logged_points.

(** Engines built with the reference arithmetic. *)
Import Reference.

Definition constant_rng (seeded : bool) (v : Z) : RandomNumberGenerator :=
  {| is_seeded := seeded; rng_output := fun _ => v; rng_position := 0 |}.

Definition base_engine_of (P : PointGFp) (n : Z) : PointGFp_Base_Point_Precompute :=
  match base_precompute P {| get_modulus := n |} with
  | Ok E => E
  | Fail _ => {| m_base_point := P; m_mod_order := {| get_modulus := n |};
                 m_p_words := 1; m_W := [] |}
  end.

Definition var_engine_of (P : PointGFp) (rng : RandomNumberGenerator)
  : PointGFp_Var_Point_Precompute :=
  match fst (var_precompute P rng) with
  | Ok E => E
  | Fail _ => {| var_m_curve := curve; var_m_p_words := 1; m_window_bits := 4; m_T := [] |}
  end.

Definition base_engine : PointGFp_Base_Point_Precompute := base_engine_of generator order.

Definition var_engine : PointGFp_Var_Point_Precompute :=
  var_engine_of generator (constant_rng true 5).

(** An engine built with a reducer whose modulus, 64, is four bits longer
    than p. *)
Definition wide_engine : PointGFp_Base_Point_Precompute := base_engine_of generator 64.

(** A second point, 2(2, 3). *)
Definition second_point : PointGFp := mk_point curve 4 6 1.

End Small.

(** ** SPHINCS+ hash addresses (sp_address.h)

    The eight-word address of the hash calls, its setters and copies, and
    the two ways it is fed to a hash function. *)

Module Sphincs.

Inductive Sphincs_Address_Type : Type :=
| WotsHash
| WotsPublicKeyCompression
| HashTree
| ForsTree
| ForsTreeRootsCompression
| WotsKeyGeneration
| ForsKeyGeneration.

(** [static_cast<uint32_t>(type)]. *)
Definition type_value (t : Sphincs_Address_Type) : Z :=
  match t with
  | WotsHash => 0
  | WotsPublicKeyCompression => 1
  | HashTree => 2
  | ForsTree => 3
  | ForsTreeRootsCompression => 4
  | WotsKeyGeneration => 5
  | ForsKeyGeneration => 6
  end.

Definition layer_offset : nat := 0.
Definition tree_offset : nat := 1.
Definition type_offset : nat := 4.
Definition keypair_offset : nat := 5.
Definition chain_offset : nat := 6.
Definition hash_offset : nat := 7.
Definition tree_height_offset : nat := chain_offset.
Definition tree_index_offset : nat := hash_offset.

(** [static_cast<uint32_t>] and [static_cast<uint8_t>] of an unsigned
    value. *)
Definition to_uint32 (v : Z) : Z := v mod 2 ^ 32.
Definition to_uint8 (v : Z) : Z := v mod 2 ^ 8.

(** [std::array<uint32_t, 8> m_address]; the [uint32_t] arguments of the
    setters are values below 2^32 and are stored as they are. *)
Record Sphincs_Address : Type := { m_address : list Z }.

(** [a[i]] and [a[i] = v] on an array; the indices used are the constant
    offsets, all below 8. *)
Definition array_get (a : list Z) (i : nat) : Z := nth i a 0.

Fixpoint array_set (a : list Z) (i : nat) (v : Z) : list Z :=
  match a, i with
  | [], _ => []
  | _ :: a', O => v :: a'
  | w :: a', S i' => w :: array_set a' i' v
  end.

Definition set_layer (this : Sphincs_Address) (layer : Z) : Sphincs_Address :=
  {| m_address := array_set (m_address this) layer_offset layer |}.

Definition set_tree (this : Sphincs_Address) (tree : Z) : Sphincs_Address :=
  let a := array_set (m_address this) (tree_offset + 0) 0 in
  let a := array_set a (tree_offset + 1) (to_uint32 (Z.shiftr tree 32)) in
  let a := array_set a (tree_offset + 2) (to_uint32 tree) in
  {| m_address := a |}.

Definition set_type (this : Sphincs_Address) (type : Sphincs_Address_Type) : Sphincs_Address :=
  {| m_address := array_set (m_address this) type_offset (type_value type) |}.

Definition set_keypair (this : Sphincs_Address) (keypair : Z) : Sphincs_Address :=
  {| m_address := array_set (m_address this) keypair_offset keypair |}.

Definition set_chain (this : Sphincs_Address) (chain : Z) : Sphincs_Address :=
  {| m_address := array_set (m_address this) chain_offset chain |}.

Definition set_hash (this : Sphincs_Address) (hash : Z) : Sphincs_Address :=
  {| m_address := array_set (m_address this) hash_offset hash |}.

Definition set_tree_height (this : Sphincs_Address) (tree_height : Z) : Sphincs_Address :=
  {| m_address := array_set (m_address this) tree_height_offset tree_height |}.

Definition set_tree_index (this : Sphincs_Address) (tree_index : Z) : Sphincs_Address :=
  {| m_address := array_set (m_address this) tree_index_offset tree_index |}.

(** [Sphincs_Address(Sphincs_Address_Type type)]: zero fill, then the
    type. *)
Definition of_type (type : Sphincs_Address_Type) : Sphincs_Address :=
  set_type {| m_address := repeat 0 8 |} type.

(** [Sphincs_Address(std::array<uint32_t, 8> address)]. *)
Definition of_array (address : list Z) : Sphincs_Address := {| m_address := address |}.

Definition copy_subtree_from (this other : Sphincs_Address) : Sphincs_Address :=
  let a := array_set (m_address this) layer_offset (array_get (m_address other) layer_offset) in
  let a := array_set a (tree_offset + 0) (array_get (m_address other) (tree_offset + 0)) in
  let a := array_set a (tree_offset + 1) (array_get (m_address other) (tree_offset + 1)) in
  let a := array_set a (tree_offset + 2) (array_get (m_address other) (tree_offset + 2)) in
  {| m_address := a |}.

Definition as_subtree_from (other : Sphincs_Address) : Sphincs_Address :=
  copy_subtree_from (of_array [0; 0; 0; 0; 0; 0; 0; 0]) other.

Definition copy_keypair_from (this other : Sphincs_Address) : Sphincs_Address :=
  let a := array_set (m_address this) layer_offset (array_get (m_address other) layer_offset) in
  let a := array_set a (tree_offset + 0) (array_get (m_address other) (tree_offset + 0)) in
  let a := array_set a (tree_offset + 1) (array_get (m_address other) (tree_offset + 1)) in
  let a := array_set a (tree_offset + 2) (array_get (m_address other) (tree_offset + 2)) in
  let a := array_set a keypair_offset (array_get (m_address other) keypair_offset) in
  {| m_address := a |}.

Definition as_keypair_from (other : Sphincs_Address) : Sphincs_Address :=
  copy_keypair_from (of_array [0; 0; 0; 0; 0; 0; 0; 0]) other.

(** [store_be] of loadstor.h (not among the sources): the four bytes of a
    32-bit word, most significant first. *)
Definition store_be (w : Z) : list Z :=
  [Z.land (Z.shiftr w 24) 255; Z.land (Z.shiftr w 16) 255;
   Z.land (Z.shiftr w 8) 255; Z.land w 255].

Definition to_bytes (this : Sphincs_Address) : list Z :=
  flat_map store_be (m_address this).

(** The hash function is the input it has absorbed: [update(uint8_t)]
    appends a byte, [update_be(uint32_t)] the four bytes of a word, most
    significant first (hash.h, not among the sources). *)
Definition HashFunction : Type := list Z.
Definition update (hash : HashFunction) (b : Z) : HashFunction := hash ++ [b].
Definition update_be (hash : HashFunction) (w : Z) : HashFunction := hash ++ store_be w.

Definition apply_to_hash (this : Sphincs_Address) (hash : HashFunction) : HashFunction :=
  fold_left update_be (m_address this) hash.

Definition apply_to_hash_compressed (this : Sphincs_Address) (hash : HashFunction)
  : HashFunction :=
  let a := m_address this in
  let hash := update hash (to_uint8 (array_get a layer_offset)) in
  let hash := update_be hash (array_get a (tree_offset + 1)) in
  let hash := update_be hash (array_get a (tree_offset + 2)) in
  let hash := update hash (to_uint8 (array_get a type_offset)) in
  let hash := update_be hash (array_get a keypair_offset) in
  let hash := update_be hash (array_get a chain_offset) in
  update_be hash (array_get a hash_offset).

(** An address as the class holds it: eight 32-bit words. *)
Definition well_formed (a : Sphincs_Address) : Prop :=
  length (m_address a) = 8%nat /\ Forall (fun w => 0 <= w < 2 ^ 32) (m_address a).

(** The word four bytes stand for, most significant first. *)
Definition load_be (bs : list Z) : Z :=
  fold_left (fun acc b => acc * 256 + b) bs 0.

End Sphincs.

(** * Properties *)

(** ** Bit lengths, substrings and word encodings *)

Section BigIntFacts.

Import BigInt.

Lemma bits_nonneg n : 0 <= bits n.
Proof.
  unfold bits. destruct (n =? 0); [lia|].
  pose proof (Z.log2_nonneg (Z.abs n)). lia.
Qed.

Lemma bits_0 : bits 0 = 0.
Proof. reflexivity. Qed.

Lemma bits_spec n : 0 < n -> 0 < bits n /\ 2 ^ (bits n - 1) <= n < 2 ^ bits n.
Proof.
  intros Hn. unfold bits.
  destruct (Z.eqb_spec n 0); [lia|].
  rewrite Z.abs_eq by lia.
  pose proof (Z.log2_nonneg n).
  destruct (Z.log2_spec n Hn) as [Hlo Hhi].
  replace (Z.log2 n + 1 - 1) with (Z.log2 n) by lia.
  replace (Z.log2 n + 1) with (Z.succ (Z.log2 n)) by lia.
  repeat split; try lia.
Qed.

Lemma bits_unique n b : 0 < b -> 2 ^ (b - 1) <= n < 2 ^ b -> bits n = b.
Proof.
  intros Hb [Hlo Hhi].
  assert (0 < n) by (pose proof (Z.pow_pos_nonneg 2 (b - 1)); lia).
  unfold bits. destruct (Z.eqb_spec n 0); [lia|].
  rewrite Z.abs_eq by lia.
  rewrite (Z.log2_unique n (b - 1)); try lia.
  replace (Z.succ (b - 1)) with b by lia. lia.
Qed.

Lemma bits_lt_pow n : 0 <= n -> n < 2 ^ bits n.
Proof.
  intros Hn. destruct (Z.eq_dec n 0) as [->|].
  - rewrite bits_0. simpl. lia.
  - apply bits_spec. lia.
Qed.

Lemma bits_upper n b : 0 <= b -> 0 <= n < 2 ^ b -> bits n <= b.
Proof.
  intros Hb [Hn Hlt].
  destruct (Z.eq_dec n 0) as [->|]; [rewrite bits_0; lia|].
  destruct (bits_spec n) as [Hp [Hlo _]]; [lia|].
  destruct (Z_le_gt_dec (bits n) b); [assumption|].
  assert (2 ^ b <= 2 ^ (bits n - 1)) by (apply Z.pow_le_mono_r; lia).
  lia.
Qed.

Lemma bits_mono a b : 0 <= a <= b -> bits a <= bits b.
Proof.
  intros [Ha Hab]. apply bits_upper; [apply bits_nonneg|].
  pose proof (bits_lt_pow b). lia.
Qed.

Lemma bits_abs n : bits (Z.abs n) = bits n.
Proof.
  unfold bits. rewrite Z.abs_idemp.
  destruct (Z.eqb_spec n 0), (Z.eqb_spec (Z.abs n) 0); lia.
Qed.

Lemma get_substring_spec s off len :
  0 <= off -> 0 <= len ->
  get_substring s off len = (Z.abs s / 2 ^ off) mod 2 ^ len.
Proof.
  intros Ho Hl. unfold get_substring.
  rewrite Z.land_ones by assumption.
  rewrite Z.shiftr_div_pow2 by assumption. reflexivity.
Qed.

Lemma word_bits_pos : 0 < word_bits.
Proof. reflexivity. Qed.

Lemma length_split_words n v : length (split_words n v) = n.
Proof.
  revert v; induction n; cbn [split_words length]; intros; [reflexivity | now rewrite IHn].
Qed.

Lemma eval_split_words n v :
  0 <= v < 2 ^ (word_bits * Z.of_nat n) ->
  eval_words (split_words n v) = v.
Proof.
  revert v; induction n as [|n IH]; intros v Hv.
  - simpl in *. lia.
  - cbn [split_words eval_words].
    assert (Hw : 0 < 2 ^ word_bits) by (apply Z.pow_pos_nonneg; [lia | pose proof word_bits_pos; lia]).
    rewrite IH.
    + pose proof (Z.div_mod v (2 ^ word_bits)). lia.
    + replace (word_bits * Z.of_nat (S n)) with (word_bits + word_bits * Z.of_nat n) in Hv by lia.
      rewrite Z.pow_add_r in Hv by (pose proof word_bits_pos; lia).
      split.
      * apply Z.div_pos; lia.
      * apply Z.div_lt_upper_bound; lia.
Qed.

Lemma split_words_range n v : Forall (fun w => 0 <= w < 2 ^ word_bits) (split_words n v).
Proof.
  revert v; induction n; intros; cbn [split_words]; constructor; auto.
  apply Z.mod_pos_bound. apply Z.pow_pos_nonneg; [lia | pose proof word_bits_pos; lia].
Qed.

Lemma eval_words_zero ws : Forall (fun w => w = 0) ws -> eval_words ws = 0.
Proof. induction 1; cbn [eval_words]; [reflexivity | subst; rewrite IHForall; lia]. Qed.

Lemma sig_words_nonneg n : 0 <= sig_words n.
Proof.
  unfold sig_words. apply Z.div_pos; [|reflexivity].
  pose proof (bits_nonneg n). unfold word_bits. lia.
Qed.

(** A value below [p] fits in the significant words of [p]. *)
Lemma fits_sig_words p v :
  0 <= v < p -> 0 <= v < 2 ^ (word_bits * Z.of_nat (Z.to_nat (sig_words p))).
Proof.
  intros [Hv Hp]. split; [assumption|].
  rewrite Z2Nat.id by apply sig_words_nonneg.
  pose proof (bits_lt_pow p ltac:(lia)) as Hb.
  pose proof (bits_nonneg p).
  assert (bits p <= word_bits * sig_words p).
  { unfold sig_words, word_bits.
    pose proof (Z.div_mod (bits p + (64 - 1)) 64 ltac:(lia)).
    pose proof (Z.mod_pos_bound (bits p + (64 - 1)) 64 ltac:(lia)). lia. }
  assert (2 ^ bits p <= 2 ^ (word_bits * sig_words p)) by (apply Z.pow_le_mono_r; lia).
  lia.
Qed.

Lemma sig_words_mono a b : 0 <= a <= b -> sig_words a <= sig_words b.
Proof.
  intros H. unfold sig_words. apply Z.div_le_mono; [reflexivity|].
  pose proof (bits_mono a b H). lia.
Qed.

Lemma encode_words_ok p v :
  0 <= v < p ->
  encode_words v (sig_words p) = Ok (split_words (Z.to_nat (sig_words p)) v).
Proof.
  intros Hv. unfold encode_words.
  pose proof (sig_words_mono v p ltac:(lia)).
  destruct (Z.ltb_spec (sig_words p) (sig_words v)); [lia|].
  rewrite Z.abs_eq by lia. reflexivity.
Qed.

Lemma eval_data p v : 0 <= v < p -> eval_words (data v (sig_words p)) = v.
Proof.
  intros Hv. unfold data. rewrite Z.abs_eq by lia.
  apply eval_split_words. now apply fits_sig_words.
Qed.

End BigIntFacts.

(** ** The scalar the fixed-base window loop processes *)

Section ScalarFacts.

Import BigInt.
Context {PA : PointArith}.

Lemma random_bits_range rng bs h :
  0 <= fst (random_bits rng bs h) < 2 ^ Z.max bs 0.
Proof.
  unfold random_bits. destruct (Z.leb_spec bs 0); cbn [fst].
  - rewrite Z.max_r by lia. simpl. lia.
  - rewrite Z.max_l by lia.
    assert (Hp : 0 < 2 ^ bs) by (apply Z.pow_pos_nonneg; lia).
    pose proof (Z.mod_pos_bound (rng_output rng (rng_position rng)) (2 ^ bs) Hp) as Hv.
    destruct h; [|assumption].
    unfold set_bit. rewrite Z.shiftl_1_l.
    set (v := rng_output rng (rng_position rng) mod 2 ^ bs) in *.
    assert (Hh : 0 <= 2 ^ (bs - 1) < 2 ^ bs).
    { split; [apply Z.pow_nonneg; lia | apply Z.pow_lt_mono_r; lia]. }
    split; [apply Z.lor_nonneg; lia|].
    destruct (Z.eq_dec (Z.lor v (2 ^ (bs - 1))) 0) as [->|Hnz]; [lia|].
    apply Z.log2_lt_pow2; [pose proof (Z.lor_nonneg v (2 ^ (bs - 1))); lia|].
    rewrite Z.log2_lor by lia.
    apply Z.max_lub_lt.
    + destruct (Z.eq_dec v 0) as [->|]; [simpl; lia|]. apply Z.log2_lt_pow2; lia.
    + rewrite Z.log2_pow2 by lia. lia.
Qed.

Lemma random_bits_high rng bs :
  bits (fst (random_bits rng bs true)) = Z.max bs 0.
Proof.
  pose proof (random_bits_range rng bs true) as Hr.
  unfold random_bits in *. destruct (Z.leb_spec bs 0); cbn [fst] in *.
  - rewrite Z.max_r by lia. reflexivity.
  - rewrite Z.max_l in * by lia.
    apply bits_unique; [lia|]. split; [|lia].
    unfold set_bit. rewrite Z.shiftl_1_l.
    set (v := rng_output rng (rng_position rng) mod 2 ^ bs) in *.
    assert (0 <= v) by (subst v; apply Z.mod_pos_bound, Z.pow_pos_nonneg; lia).
    assert (0 < 2 ^ (bs - 1)) by (apply Z.pow_pos_nonneg; lia).
    assert (Hl : Z.log2 (Z.lor v (2 ^ (bs - 1))) = Z.max (Z.log2 v) (bs - 1)).
    { rewrite Z.log2_lor by lia. rewrite Z.log2_pow2 by lia. reflexivity. }
    assert (Hpos : 0 < Z.lor v (2 ^ (bs - 1))).
    { pose proof (Z.lor_nonneg v (2 ^ (bs - 1))).
      destruct (Z.eq_dec (Z.lor v (2 ^ (bs - 1))) 0) as [E|]; [|lia].
      apply Z.lor_eq_0_iff in E. lia. }
    destruct (Z.log2_spec _ Hpos) as [Hlo _].
    assert (2 ^ (bs - 1) <= 2 ^ Z.log2 (Z.lor v (2 ^ (bs - 1)))).
    { apply Z.pow_le_mono_r; lia. }
    lia.
Qed.

Lemma blinding_size_nonneg n : 0 <= blinding_size n.
Proof. unfold blinding_size. pose proof (bits_nonneg n). apply Z.div_pos; lia. Qed.

Lemma base_scalar_seeded r k n rng :
  is_seeded rng = true ->
  base_scalar r k n rng =
  (reduce r k + n * fst (random_bits rng (blinding_size n) true),
   snd (random_bits rng (blinding_size n) true)).
Proof.
  intros Hs. unfold base_scalar. rewrite Hs.
  destruct (random_bits rng (blinding_size n) true). reflexivity.
Qed.

(** Padding with one or two copies of the order fixes the bit length. *)
Lemma padded_bits n r :
  0 < n -> 0 <= r < n ->
  bits (if bits (r + n) =? bits n then r + n + n else r + n) = bits n + 1.
Proof.
  intros Hn Hr.
  destruct (bits_spec n Hn) as [Hb [Hlo Hhi]].
  assert (Hpow : 2 ^ (bits n + 1) = 2 * 2 ^ bits n).
  { rewrite Z.pow_add_r by lia. lia. }
  assert (Hpow' : 2 ^ bits n = 2 * 2 ^ (bits n - 1)).
  { replace (bits n) with ((bits n - 1) + 1) at 1 by lia.
    rewrite Z.pow_add_r by lia. lia. }
  destruct (Z.eqb_spec (bits (r + n)) (bits n)) as [E|E].
  - apply bits_unique; [lia|].
    replace (bits n + 1 - 1) with (bits n) by lia.
    pose proof (bits_lt_pow (r + n) ltac:(lia)) as H1. rewrite E in H1. lia.
  - apply bits_unique; [lia|].
    replace (bits n + 1 - 1) with (bits n) by lia.
    split; [|lia].
    destruct (Z_lt_le_dec (r + n) (2 ^ bits n)); [|assumption].
    exfalso. apply E. apply bits_unique; lia.
Qed.

End ScalarFacts.

(** ** Claims settled on the code alone *)

Section DirectClaims.

Context {PA : PointArith}.

(** C3: with a seeded generator the scalar handed to the fixed-base window
    loop is (k mod group_order) + mask * group_order, k reduced by the
    engine's reducer for that order, and the mask has bit length
    (group_order.bits() + 1) / 2. *)
Theorem C3_seeded_scalar_is_blinded
        (E : PointGFp_Base_Point_Precompute) (k group_order : Z)
        (rng : RandomNumberGenerator) :
  0 <= k ->
  get_modulus (m_mod_order E) = group_order ->
  is_seeded rng = true ->
  let mask := fst (random_bits rng (blinding_size group_order) true) in
  let rng' := snd (random_bits rng (blinding_size group_order) true) in
  base_mul E k rng group_order =
    base_mul_scalar E (k mod group_order + mask * group_order) rng' /\
  BigInt.bits mask = (BigInt.bits group_order + 1) / 2.
Proof.
  intros Hk Hm Hs mask rng'. split.
  - unfold base_mul, BigInt.is_negative.
    destruct (Z.ltb_spec k 0); [lia|].
    rewrite base_scalar_seeded by assumption.
    unfold reduce. rewrite Hm. subst mask rng'.
    now rewrite (Z.mul_comm group_order).
  - subst mask. rewrite random_bits_high.
    pose proof (blinding_size_nonneg group_order).
    unfold blinding_size in *. lia.
Qed.

(** C4: with an unseeded generator the scalar handed to the window loop is
    the reduced scalar plus one or two copies of group_order, and its bit
    length is group_order.bits() + 1. *)
Theorem C4_unseeded_scalar_is_padded
        (E : PointGFp_Base_Point_Precompute) (k group_order : Z)
        (rng : RandomNumberGenerator) :
  0 <= k -> 0 < group_order ->
  get_modulus (m_mod_order E) = group_order ->
  is_seeded rng = false ->
  exists copies scalar,
    (copies = 1 \/ copies = 2) /\
    scalar = reduce (m_mod_order E) k + copies * group_order /\
    base_mul E k rng group_order = base_mul_scalar E scalar rng /\
    BigInt.bits scalar = BigInt.bits group_order + 1.
Proof.
  intros Hk Hn Hm Hs.
  pose proof (Z.mod_pos_bound k group_order Hn) as Hr.
  pose proof (padded_bits group_order (k mod group_order) Hn Hr) as Hb.
  unfold base_mul, BigInt.is_negative, base_scalar, reduce.
  destruct (Z.ltb_spec k 0); [lia|].
  rewrite Hs, Hm.
  destruct (BigInt.bits (k mod group_order + group_order) =? BigInt.bits group_order).
  - exists 2, (k mod group_order + 2 * group_order).
    repeat split; auto.
    + now replace (k mod group_order + 2 * group_order)
        with (k mod group_order + group_order + group_order) by lia.
    + now replace (k mod group_order + 2 * group_order)
        with (k mod group_order + group_order + group_order) by lia.
  - exists 1, (k mod group_order + 1 * group_order).
    repeat split; auto.
    + now replace (k mod group_order + 1 * group_order)
        with (k mod group_order + group_order) by lia.
    + now replace (k mod group_order + 1 * group_order)
        with (k mod group_order + group_order) by lia.
Qed.

(** C7: a negative scalar makes both [mul]s fail with Invalid_Argument
    before the generator or any table is touched; no point is returned. *)
Theorem C7_negative_scalar_is_rejected
        (Eb : PointGFp_Base_Point_Precompute) (Ev : PointGFp_Var_Point_Precompute)
        (k group_order : Z) (rng : RandomNumberGenerator) :
  k < 0 ->
  base_mul Eb k rng group_order =
    (Fail (Invalid_Argument "PointGFp_Base_Point_Precompute scalar must be positive"), rng) /\
  var_mul Ev k rng group_order =
    (Fail (Invalid_Argument "PointGFp_Var_Point_Precompute scalar must be positive"), rng).
Proof.
  intros Hk. unfold base_mul, var_mul, BigInt.is_negative.
  destruct (Z.ltb_spec k 0); [split; reflexivity | lia].
Qed.

(** C8: adding a point whose curve descriptor differs in p, a or b fails
    with Invalid_Argument and leaves the left-hand point as it was. *)
Theorem C8_add_rejects_a_different_curve (this other : PointGFp) :
  ~ (get_p (m_curve this) = get_p (m_curve other) /\
     get_a (m_curve this) = get_a (m_curve other) /\
     get_b (m_curve this) = get_b (m_curve other)) ->
  add this other =
    (Fail (Invalid_Argument "cannot add points on different curves"), this).
Proof.
  intros Hne. unfold add, CurveGFp_eqb.
  destruct (Z.eqb_spec (get_p (m_curve this)) (get_p (m_curve other)));
    destruct (Z.eqb_spec (get_a (m_curve this)) (get_a (m_curve other)));
    destruct (Z.eqb_spec (get_b (m_curve this)) (get_b (m_curve other)));
    cbn [andb negb]; try reflexivity.
  exfalso. apply Hne. auto.
Qed.

(** C6: when either input fails the on-curve check the table is the single
    zero point, and multi_exp returns that identity for every pair of
    scalars. *)
Theorem C6_multi_exp_fails_closed (x y : PointGFp) (z1 z2 : Z) :
  on_the_curve x = false \/ on_the_curve y = false ->
  is_zero (zero x) = true ->
  exists E,
    multi_precompute x y = Ok E /\
    m_M E = [zero x] /\
    multi_exp E z1 z2 = Ok (zero x) /\
    multi_exponentiate x z1 y z2 = Ok (zero x).
Proof.
  intros Hoff Hz.
  assert (Hc : negb (on_the_curve x) || negb (on_the_curve y) = true).
  { destruct Hoff as [-> | ->]; [reflexivity | apply orb_true_r]. }
  exists {| m_M := [zero x]; m_no_infinity := false |}.
  unfold multi_exponentiate, multi_precompute. rewrite Hc.
  repeat split; reflexivity.
Qed.

(** C10: negate replaces Y by p - Y unless the point is the identity,
    which it leaves as it is; X, Z and the curve are kept, and negating
    twice gives back the point. *)
Theorem C10_negate (P : PointGFp) :
  negate P =
    (if is_zero P then P
     else mk_point (m_curve P) (m_coord_x P)
                   (get_p (m_curve P) - m_coord_y P) (m_coord_z P)) /\
  m_coord_x (negate P) = m_coord_x P /\
  m_coord_z (negate P) = m_coord_z P /\
  m_curve (negate P) = m_curve P /\
  negate (negate P) = P /\
  point_equal (negate (negate P)) P.
Proof.
  assert (Hnn : negate (negate P) = P).
  { unfold negate. destruct (is_zero P) eqn:Hz; cbn [negb].
    - now rewrite Hz.
    - unfold is_zero in *. cbn [m_coord_z]. rewrite Hz. cbn [negb].
      destruct P as [c x y z]. cbn. f_equal. lia. }
  repeat split.
  - unfold negate. destruct (is_zero P); reflexivity.
  - unfold negate. destruct (is_zero P); reflexivity.
  - unfold negate. destruct (is_zero P); reflexivity.
  - unfold negate. destruct (is_zero P); reflexivity.
  - exact Hnn.
  - rewrite Hnn. unfold CurveGFp_eqb. now rewrite !Z.eqb_refl.
  - now rewrite Hnn.
Qed.

End DirectClaims.

(** ** Multiples in a commutative group *)

Section GroupFacts.

Context {G : Type} {AG : AbGroup G}.

Lemma gadd_0_r (a : G) : gadd a gzero = a.
Proof. rewrite gadd_comm. apply gadd_0_l. Qed.

Lemma nmul_add (a b : nat) (g : G) : nmul (a + b) g = gadd (nmul a g) (nmul b g).
Proof.
  induction b as [|b IH].
  - rewrite Nat.add_0_r. cbn [nmul]. now rewrite gadd_0_r.
  - rewrite Nat.add_succ_r. cbn [nmul]. rewrite IH. now rewrite gadd_assoc.
Qed.

Lemma nmul_1 (g : G) : nmul 1 g = g.
Proof. cbn [nmul]. apply gadd_0_l. Qed.

Lemma nmul_gzero (n : nat) : nmul n (gzero : G) = gzero.
Proof. induction n; cbn [nmul]; [reflexivity | rewrite IHn; apply gadd_0_l]. Qed.

Lemma nmul_mul (a b : nat) (g : G) : nmul (a * b) g = nmul a (nmul b g).
Proof.
  induction a as [|a IH]; cbn [nmul Nat.mul]; [reflexivity|].
  rewrite Nat.add_comm, nmul_add, IH. reflexivity.
Qed.

Lemma zmul_0 (g : G) : zmul 0 g = gzero.
Proof. reflexivity. Qed.

Lemma zmul_1 (g : G) : zmul 1 g = g.
Proof. apply nmul_1. Qed.

Lemma zmul_add (a b : Z) (g : G) :
  0 <= a -> 0 <= b -> zmul (a + b) g = gadd (zmul a g) (zmul b g).
Proof. intros. unfold zmul. rewrite Z2Nat.inj_add by assumption. apply nmul_add. Qed.

Lemma zmul_mul (a b : Z) (g : G) :
  0 <= a -> 0 <= b -> zmul (a * b) g = zmul a (zmul b g).
Proof. intros. unfold zmul. rewrite Z2Nat.inj_mul by assumption. apply nmul_mul. Qed.

Lemma zmul_gzero (k : Z) : zmul k (gzero : G) = gzero.
Proof. apply nmul_gzero. Qed.

Lemma zmul_double (g : G) : gadd g g = zmul 2 g.
Proof. unfold zmul. change (Z.to_nat 2) with 2%nat. cbn [nmul]. now rewrite gadd_0_l. Qed.

(** A multiple of the order contributes nothing. *)
Lemma zmul_order (n m r : Z) (g : G) :
  0 <= n -> 0 <= m -> 0 <= r ->
  zmul n g = gzero -> zmul (r + n * m) g = zmul r g.
Proof.
  intros Hn Hm Hr Ho.
  rewrite zmul_add by (try apply Z.mul_nonneg_nonneg; assumption).
  rewrite (Z.mul_comm n m), zmul_mul, Ho, zmul_gzero by assumption.
  apply gadd_0_r.
Qed.

Lemma zmul_mod (n k : Z) (g : G) :
  0 < n -> 0 <= k -> zmul n g = gzero -> zmul (k mod n) g = zmul k g.
Proof.
  intros Hn Hk Ho.
  rewrite (Z.div_mod k n) at 2 by lia.
  rewrite Z.add_comm.
  pose proof (Z.mod_pos_bound k n Hn).
  assert (0 <= k / n) by (apply Z.div_pos; lia).
  symmetry. apply zmul_order; try lia; assumption.
Qed.

End GroupFacts.

(** ** Arithmetic modulo the prime of the curve *)

Section FieldFacts.

Variable p : Z.
Hypothesis p_prime : Z.prime p.

Add Field curve_field : (Zmod.field_theory p p_prime).

Lemma p_ge_2 : 2 <= p.
Proof. apply Z.prime_ge_2, p_prime. Qed.

Lemma fz_eq_mod a b : Zmod.of_Z p a = Zmod.of_Z p b <-> a mod p = b mod p.
Proof. apply Zmod.of_Z_inj. Qed.

Lemma fz_zero_iff a : Zmod.of_Z p a = Zmod.zero <-> a mod p = 0.
Proof.
  rewrite <- Zmod.of_Z_0, fz_eq_mod. rewrite Z.mod_0_l; [reflexivity|].
  pose proof p_ge_2. lia.
Qed.

Lemma fz_invmod a : Zmod.of_Z p (Z.invmod a p) = Zmod.inv (Zmod.of_Z p a).
Proof.
  apply Zmod.unsigned_inj.
  rewrite Zmod.unsigned_inv, !Zmod.unsigned_of_Z.
  rewrite Z.invmod_mod_l. apply Z.mod_invmod.
Qed.

Lemma fz_mul_nonzero a b : Zmod.of_Z p a <> Zmod.zero -> Zmod.of_Z p b <> Zmod.zero -> Zmod.of_Z p (a * b) <> Zmod.zero.
Proof.
  intros Ha Hb. rewrite Zmod.of_Z_mul. intros H.
  apply (Zmod.mul_0_iff_prime p_prime) in H. tauto.
Qed.

(** Rescaling by a nonzero factor keeps X/Z^2 and Y/Z^3. *)
Lemma rescale_x (x z r : Z) :
  z mod p <> 0 -> r mod p <> 0 ->
  let z' := (z * r) mod p in
  let zi' := Z.invmod z' p in
  let zi := Z.invmod z p in
  (((x * ((r * r) mod p)) mod p) * (zi' * zi')) mod p = (x * (zi * zi)) mod p.
Proof.
  intros Hz Hr z' zi' zi. apply fz_eq_mod.
  subst z' zi' zi.
  repeat rewrite ?Zmod.of_Z_mul, ?Zmod.of_Z_mod, ?fz_invmod.
  rewrite <- fz_zero_iff in Hz, Hr.
  field. auto.
Qed.

Lemma rescale_y (y z r : Z) :
  z mod p <> 0 -> r mod p <> 0 ->
  let z' := (z * r) mod p in
  let zi' := Z.invmod z' p in
  let zi := Z.invmod z p in
  (((y * ((r * ((r * r) mod p)) mod p)) mod p) * (zi' * zi' * zi')) mod p
  = (y * (zi * zi * zi)) mod p.
Proof.
  intros Hz Hr z' zi' zi. apply fz_eq_mod.
  subst z' zi' zi.
  repeat rewrite ?Zmod.of_Z_mul, ?Zmod.of_Z_mod, ?fz_invmod.
  rewrite <- fz_zero_iff in Hz, Hr.
  field. auto.
Qed.

Lemma rescale_equation (a b x y z r : Z) :
  (y * y - (x * x * x + a * x * (z * z * z * z) + b * (z * z * z * z * z * z))) mod p = 0 ->
  let r2 := (r * r) mod p in
  let r3 := (r * r2) mod p in
  let x' := (x * r2) mod p in
  let y' := (y * r3) mod p in
  let z' := (z * r) mod p in
  (y' * y' - (x' * x' * x' + a * x' * (z' * z' * z' * z')
              + b * (z' * z' * z' * z' * z' * z'))) mod p = 0.
Proof.
  intros H r2 r3 x' y' z'.
  apply fz_zero_iff. apply fz_zero_iff in H.
  subst r2 r3 x' y' z'.
  repeat rewrite ?Zmod.of_Z_sub, ?Zmod.of_Z_add, ?Zmod.of_Z_mul, ?Zmod.of_Z_mod in *.
  set (X := Zmod.of_Z p x) in *. set (Y := Zmod.of_Z p y) in *. set (Zc := Zmod.of_Z p z) in *.
  set (R := Zmod.of_Z p r) in *. set (A := Zmod.of_Z p a) in *. set (B := Zmod.of_Z p b) in *.
  transitivity (Zmod.mul (Zmod.mul (Zmod.mul R R) (Zmod.mul (Zmod.mul R R) (Zmod.mul R R)))
                         (Zmod.sub (Zmod.mul Y Y)
                            (Zmod.add (Zmod.add (Zmod.mul (Zmod.mul X X) X)
                               (Zmod.mul (Zmod.mul A X) (Zmod.mul (Zmod.mul (Zmod.mul Zc Zc) Zc) Zc)))
                               (Zmod.mul B (Zmod.mul (Zmod.mul (Zmod.mul (Zmod.mul (Zmod.mul Zc Zc) Zc) Zc) Zc) Zc))))).
  - ring.
  - rewrite H. ring.
Qed.

End FieldFacts.

(** ** Points under the arithmetic contract *)

Lemma CurveGFp_eqb_refl c : CurveGFp_eqb c c = true.
Proof. unfold CurveGFp_eqb. now rewrite !Z.eqb_refl. Qed.

Section PointFacts.

Context {PA : PointArith} {G : Type} {AG : AbGroup G}.
Variable cv : CurveGFp.
Variable embed : option (Z * Z) -> G.
Hypothesis laws : PointArithLaws cv embed.

Lemma cv_prime : Z.prime (get_p cv).
Proof. apply laws. Qed.

Lemma cv_p_ge_2 : 2 <= get_p cv.
Proof. apply Z.prime_ge_2, cv_prime. Qed.

Lemma valid_curve P : valid cv P -> m_curve P = cv.
Proof. intros H; apply H. Qed.

Lemma valid_zero_point : valid cv (zero_point cv).
Proof. apply laws. Qed.

Lemma affine_of_zero P : valid cv P -> is_zero P = true -> affine_of P = None.
Proof.
  intros [Hc _] Hz. unfold affine_of, is_zero, BigInt.is_zero in *.
  apply Z.eqb_eq in Hz. rewrite Hz, Hc.
  rewrite Z.mod_0_l by (pose proof cv_p_ge_2; lia). reflexivity.
Qed.

Lemma affine_of_nonzero P : valid cv P -> is_zero P = false -> affine_of P <> None.
Proof.
  intros (Hc & _ & _ & Hz & _) Hnz. unfold affine_of, is_zero, BigInt.is_zero in *.
  apply Z.eqb_neq in Hnz. rewrite Hc.
  rewrite Z.mod_small by exact Hz.
  destruct (Z.eqb_spec (m_coord_z P) 0); [contradiction | discriminate].
Qed.

Lemma denote_identity P : valid cv P -> is_zero P = true -> denote embed P = gzero.
Proof.
  intros Hv Hz. unfold denote. rewrite (affine_of_zero P Hv Hz). apply laws.
Qed.

Lemma denote_zero_point : denote embed (zero_point cv) = gzero.
Proof. apply denote_identity; apply laws. Qed.

(** Equal group elements are equal points. *)
Lemma denote_point_equal P Q :
  valid cv P -> valid cv Q -> denote embed P = denote embed Q -> point_equal P Q.
Proof.
  intros HP HQ H. split.
  - rewrite (valid_curve P HP), (valid_curve Q HQ). apply CurveGFp_eqb_refl.
  - now apply (law_embed_inj cv embed laws).
Qed.

(** The words handed to the array forms read back as the coordinates. *)
Lemma data_point Q :
  valid cv Q ->
  mk_point cv (BigInt.eval_words (BigInt.data (m_coord_x Q) (get_p_words cv)))
              (BigInt.eval_words (BigInt.data (m_coord_y Q) (get_p_words cv)))
              (BigInt.eval_words (BigInt.data (m_coord_z Q) (get_p_words cv))) = Q.
Proof.
  intros (Hc & Hx & Hy & Hz & _). unfold get_p_words.
  rewrite !eval_data by assumption.
  destruct Q; cbn in *. subst. reflexivity.
Qed.

Lemma add_ok P Q :
  valid cv P -> valid cv Q ->
  exists R, add P Q = (Ok tt, R) /\ valid cv R /\
            denote embed R = gadd (denote embed P) (denote embed Q).
Proof.
  intros HP HQ. unfold add.
  rewrite (valid_curve P HP), (valid_curve Q HQ), CurveGFp_eqb_refl. cbn [negb].
  eexists. split; [reflexivity|].
  pose proof (data_point Q HQ) as Hd.
  pose proof (law_add cv embed laws P _ _ _ HP ltac:(rewrite Hd; exact HQ)) as [Hv He].
  split; [exact Hv|]. unfold denote. rewrite He, Hd. reflexivity.
Qed.

Lemma plus_ok P Q :
  valid cv P -> valid cv Q ->
  exists R, plus P Q = Ok R /\ valid cv R /\
            denote embed R = gadd (denote embed P) (denote embed Q).
Proof.
  intros HP HQ. destruct (add_ok P Q HP HQ) as (R & Ha & Hv & Hd).
  exists R. unfold plus. rewrite Ha. auto.
Qed.

Lemma mult2_ok P :
  valid cv P ->
  valid cv (mult2 P) /\ denote embed (mult2 P) = zmul 2 (denote embed P).
Proof.
  intros HP. destruct (law_mult2 cv embed laws P HP) as [Hv Hd].
  split; [exact Hv|]. unfold denote in *. rewrite Hd. apply zmul_double.
Qed.

Lemma mult2_iter_ok (n : nat) P :
  valid cv P ->
  valid cv (Nat.iter n mult2 P) /\
  denote embed (Nat.iter n mult2 P) = zmul (2 ^ Z.of_nat n) (denote embed P).
Proof.
  intros HP. induction n as [|n [IHv IHd]].
  - change (Nat.iter 0 mult2 P) with P. split; [exact HP|]. now rewrite zmul_1.
  - change (Nat.iter (S n) mult2 P) with (mult2 (Nat.iter n mult2 P)).
    destruct (mult2_ok _ IHv) as [Hv Hd].
    split; [exact Hv|]. rewrite Hd, IHd.
    rewrite <- zmul_mul by (try apply Z.pow_nonneg; lia).
    f_equal. rewrite Nat2Z.inj_succ, Z.pow_succ_r by lia. reflexivity.
Qed.

Lemma mult2i_ok i P :
  0 <= i -> valid cv P ->
  valid cv (mult2i i P) /\ denote embed (mult2i i P) = zmul (2 ^ i) (denote embed P).
Proof.
  intros Hi HP. unfold mult2i.
  destruct (mult2_iter_ok (Z.to_nat i) P HP) as [Hv Hd].
  rewrite Z2Nat.id in Hd by assumption. auto.
Qed.

(** *** Representation randomization *)

Lemma rescale_ok r P :
  valid cv P -> 0 < r < get_p cv ->
  valid cv (rescale cv r P) /\ affine_of (rescale cv r P) = affine_of P.
Proof.
  intros (Hc & Hx & Hy & Hz & Hcase) Hr.
  pose proof cv_prime as Hp. pose proof cv_p_ge_2 as Hp2.
  assert (Hpos : 0 < get_p cv) by lia.
  assert (Hrm : r mod get_p cv <> 0) by (rewrite Z.mod_small; lia).
  unfold rescale, swap_coords, curve_sqr, curve_mul, get_x, get_y, get_z.
  destruct Hcase as [[Hz0 Hx0] | [Hz0 Heq]].
  - split.
    + unfold valid, in_field; cbn. rewrite Hz0, Hx0.
      repeat split; try (apply Z.mod_pos_bound; lia); try assumption.
      left. split; reflexivity.
    + unfold affine_of; cbn. rewrite Hc, Hz0. cbn. reflexivity.
  - assert (Hzm : m_coord_z P mod get_p cv <> 0).
    { unfold in_field in Hz. rewrite Z.mod_small; lia. }
    assert (Hz' : (m_coord_z P * r) mod get_p cv <> 0).
    { intros E. apply (fz_zero_iff _ Hp) in E.
      revert E. apply fz_mul_nonzero; [exact Hp | |]; rewrite fz_zero_iff; assumption. }
    split.
    + unfold valid, in_field; cbn.
      repeat split; try (apply Z.mod_pos_bound; lia); try assumption.
      right. split; [exact Hz'|].
      unfold curve_equation in *.
      apply (rescale_equation _ Hp). exact Heq.
    + unfold affine_of; cbn. rewrite Hc.
      rewrite Z.mod_mod by lia.
      destruct (Z.eqb_spec ((m_coord_z P * r) mod get_p cv) 0); [contradiction|].
      destruct (Z.eqb_spec (m_coord_z P mod get_p cv) 0); [contradiction|].
      f_equal. f_equal.
      * apply (rescale_x _ Hp); assumption.
      * apply (rescale_y _ Hp); assumption.
Qed.

Lemma random_mask_range rng : 0 < fst (random_mask cv rng) < get_p cv.
Proof.
  unfold random_mask.
  pose proof (random_bits_range rng (BigInt.bits (get_p cv) - 1) false) as Hr.
  destruct (random_bits rng (BigInt.bits (get_p cv) - 1) false) as [m rng'].
  cbn [fst] in *. unfold BigInt.set_bit. rewrite Z.shiftl_1_l. change (2 ^ 0) with 1.
  pose proof cv_p_ge_2 as Hp2.
  destruct (bits_spec (get_p cv) ltac:(lia)) as [Hb [Hlo Hhi]].
  assert (Hb2 : 2 <= BigInt.bits (get_p cv)).
  { destruct (Z_lt_le_dec (BigInt.bits (get_p cv)) 2); [|assumption].
    assert (BigInt.bits (get_p cv) = 1) by lia.
    rewrite H in Hhi. simpl in Hhi. lia. }
  rewrite Z.max_l in Hr by lia.
  assert (Hnn : 0 <= Z.lor m 1) by (apply Z.lor_nonneg; lia).
  assert (Hnz : Z.lor m 1 <> 0) by (intros E; apply Z.lor_eq_0_iff in E; lia).
  split; [lia|].
  apply Z.lt_le_trans with (2 ^ (BigInt.bits (get_p cv) - 1)); [|exact Hlo].
  apply Z.log2_lt_pow2; [lia|].
  rewrite Z.log2_lor by lia.
  apply Z.max_lub_lt; [|simpl; lia].
  destruct (Z.eq_dec m 0) as [->|]; [simpl; lia|].
  apply Z.log2_lt_pow2; lia.
Qed.

Lemma randomize_repr_ok P rng :
  valid cv P ->
  valid cv (fst (randomize_repr P rng)) /\
  affine_of (fst (randomize_repr P rng)) = affine_of P.
Proof.
  intros HP. unfold randomize_repr. rewrite (valid_curve P HP).
  pose proof (random_mask_range rng) as Hm.
  destruct (random_mask cv rng) as [mask rng']. cbn [fst] in *.
  now apply rescale_ok.
Qed.

Lemma randomize_repr_denote P rng :
  valid cv P -> denote embed (fst (randomize_repr P rng)) = denote embed P.
Proof.
  intros HP. unfold denote. now rewrite (proj2 (randomize_repr_ok P rng HP)).
Qed.

(** *** Repeated addition *)

Lemma repeated_add_ok (n : nat) P :
  valid cv P ->
  exists S, repeated_add n P = Ok S /\ valid cv S /\
            denote embed S = nmul n (denote embed P).
Proof.
  intros HP. induction n as [|n (S & Hr & Hv & Hd)].
  - exists (zero_point cv). cbn [repeated_add]. unfold zero.
    rewrite (valid_curve P HP).
    repeat split; try apply laws. apply denote_zero_point.
  - destruct (plus_ok S P Hv HP) as (R & Hp & HvR & HdR).
    exists R. cbn [repeated_add]. rewrite Hr. cbn [bind].
    split; [exact Hp|]. split; [exact HvR|].
    rewrite HdR, Hd. reflexivity.
Qed.

End PointFacts.

(** ** Flat tables of uniform entries *)

Section ListFacts.

Lemma bind_ok {A B : Type} (m : outcome A) (k : A -> outcome B) (a : A) :
  m = Ok a -> bind m k = k a.
Proof. intros ->. reflexivity. Qed.

Lemma collect_map_ok {A B : Type} (f : A -> outcome B) (g : A -> B) (l : list A) :
  (forall x, In x l -> f x = Ok (g x)) ->
  collect (map f l) = Ok (map g l).
Proof.
  induction l as [|a l IH]; intros H; cbn [map collect]; [reflexivity|].
  rewrite (H a (or_introl eq_refl)). cbn [bind].
  rewrite IH by (intros; apply H; now right). reflexivity.
Qed.

Lemma in_zrange n j : In j (zrange n) <-> 0 <= j < n.
Proof.
  unfold zrange. rewrite in_map_iff. split.
  - intros (k & <- & Hk). apply in_seq in Hk. lia.
  - intros H. exists (Z.to_nat j). split; [lia|]. apply in_seq. lia.
Qed.

Lemma map_nth_zrange (l : list Z) (d : Z) :
  map (fun j => nth (Z.to_nat j) l d) (zrange (Z.of_nat (length l))) = l.
Proof.
  unfold zrange. rewrite Nat2Z.id, map_map.
  erewrite map_ext by (intros; rewrite Nat2Z.id; reflexivity).
  induction l as [|a l IH]; [reflexivity|].
  cbn [length seq map nth]. f_equal.
  rewrite <- seq_shift, map_map. exact IH.
Qed.

Lemma nth_error_flat_chunks {A B : Type} (f : A -> list B) (m : nat) (l : list A) :
  (forall a, In a l -> length (f a) = m) ->
  forall (i j : nat) (a : A),
    nth_error l i = Some a -> (j < m)%nat ->
    nth_error (flat_map f l) (i * m + j) = nth_error (f a) j.
Proof.
  induction l as [|b l IH]; intros Hlen i j a Hi Hj.
  - destruct i; discriminate.
  - cbn [flat_map]. destruct i as [|i]; cbn [nth_error] in Hi.
    + injection Hi as ->. cbn [Nat.mul Nat.add].
      rewrite nth_error_app1; [reflexivity|].
      rewrite (Hlen a (or_introl eq_refl)). exact Hj.
    + rewrite nth_error_app2 by (rewrite (Hlen b (or_introl eq_refl)); lia).
      rewrite (Hlen b (or_introl eq_refl)).
      replace (S i * m + j - m)%nat with (i * m + j)%nat by lia.
      apply IH; auto. intros; apply Hlen; now right.
Qed.

Lemma length_flat_chunks {A B : Type} (f : A -> list B) (m : nat) (l : list A) :
  (forall a, In a l -> length (f a) = m) ->
  length (flat_map f l) = (length l * m)%nat.
Proof.
  induction l as [|b l IH]; intros Hlen; cbn [flat_map length]; [reflexivity|].
  rewrite length_app, (Hlen b (or_introl eq_refl)), IH; [lia|].
  intros; apply Hlen; now right.
Qed.

(** [v[idx * m + j]] of a flat table is word [j] of entry [idx]. *)
Lemma read_chunk {A : Type} (f : A -> list Z) (m : nat) (l : list A)
      (idx j : Z) (a : A) :
  (forall a, In a l -> length (f a) = m) ->
  0 <= idx -> 0 <= j < Z.of_nat m ->
  nth_error l (Z.to_nat idx) = Some a ->
  read (flat_map f l) (idx * Z.of_nat m + j) = Ok (nth (Z.to_nat j) (f a) 0).
Proof.
  intros Hlen Hidx Hj Ha. unfold read.
  destruct (Z.ltb_spec (idx * Z.of_nat m + j) 0); [nia|].
  replace (Z.to_nat (idx * Z.of_nat m + j)) with (Z.to_nat idx * m + Z.to_nat j)%nat by nia.
  rewrite (nth_error_flat_chunks f m l Hlen _ _ a Ha) by lia.
  assert (Hl : (Z.to_nat j < length (f a))%nat).
  { rewrite (Hlen a); [lia|]. eapply nth_error_In; eauto. }
  destruct (nth_error (f a) (Z.to_nat j)) eqn:E.
  - now rewrite (nth_error_nth _ _ 0 E).
  - apply nth_error_None in E. lia.
Qed.

(** A slice of a flat table is the entry. *)
Lemma slice_chunk {A B : Type} (f : A -> list B) (m : nat) (l : list A) (i : nat) (a : A) :
  (forall a, In a l -> length (f a) = m) ->
  nth_error l i = Some a ->
  firstn m (skipn (i * m) (flat_map f l)) = f a.
Proof.
  revert i. induction l as [|b l IH]; intros i Hlen Hi.
  - destruct i; discriminate.
  - cbn [flat_map]. destruct i as [|i]; cbn [nth_error] in Hi.
    + injection Hi as ->. cbn [Nat.mul skipn].
      rewrite firstn_app, (Hlen a (or_introl eq_refl)), Nat.sub_diag.
      cbn [firstn]. rewrite app_nil_r.
      rewrite <- (Hlen a (or_introl eq_refl)). apply firstn_all.
    + replace (S i * m)%nat with (length (f b) + i * m)%nat
        by (rewrite (Hlen b (or_introl eq_refl)); lia).
      rewrite skipn_app, skipn_all2 by lia.
      replace (length (f b) + i * m - length (f b))%nat with (i * m)%nat by lia.
      cbn [app]. apply IH; auto. intros; apply Hlen; now right.
Qed.

Lemma Forall2_nth_error {A B : Type} (R : A -> B -> Prop) (l : list A) (l' : list B)
      (i : nat) (b : B) :
  Forall2 R l l' -> nth_error l' i = Some b ->
  exists a, nth_error l i = Some a /\ R a b.
Proof.
  intros H. revert i. induction H; intros i Hi.
  - destruct i; discriminate.
  - destruct i; cbn [nth_error] in *.
    + injection Hi as <-. eauto.
    + eauto.
Qed.


Lemma Forall_zero_firstn n (l : list Z) :
  Forall (fun x => x = 0) l -> Forall (fun x => x = 0) (firstn n l).
Proof.
  intros H. rewrite <- (firstn_skipn n l) in H. apply Forall_app in H. apply H.
Qed.

Lemma Forall_zero_skipn n (l : list Z) :
  Forall (fun x => x = 0) l -> Forall (fun x => x = 0) (skipn n l).
Proof.
  intros H. rewrite <- (firstn_skipn n l) in H. apply Forall_app in H. apply H.
Qed.

Lemma nth_error_base_multipliers (T_bits i : nat) (c : Z) :
  (i < T_bits)%nat -> 1 <= c <= 7 ->
  nth_error (base_multipliers T_bits) (i * 7 + Z.to_nat (c - 1)) = Some (c * 8 ^ Z.of_nat i).
Proof.
  intros Hi Hc. unfold base_multipliers.
  rewrite (nth_error_flat_chunks
             (fun i => map (fun c => c * 8 ^ Z.of_nat i) [1; 2; 3; 4; 5; 6; 7]) 7
             (seq 0 T_bits) (fun _ _ => eq_refl) i (Z.to_nat (c - 1)) i).
  - assert (c = 1 \/ c = 2 \/ c = 3 \/ c = 4 \/ c = 5 \/ c = 6 \/ c = 7) as Hcases by lia.
    destruct Hcases as [-> | [-> | [-> | [-> | [-> | [-> | ->]]]]]]; reflexivity.
  - rewrite nth_error_nth' with (d := 0%nat) by (rewrite length_seq; lia).
    rewrite seq_nth by lia. reflexivity.
  - lia.
Qed.

End ListFacts.

(** ** Rounding and windows *)

Section WindowFacts.

Lemma round_up_spec n a :
  0 < a -> 0 <= n ->
  n <= round_up n a < n + a /\ round_up n a = a * (round_up n a / a).
Proof.
  intros Ha Hn. unfold round_up.
  pose proof (Z.mod_pos_bound n a Ha) as Hm.
  pose proof (Z.div_mod n a ltac:(lia)) as Hd.
  destruct (Z.eqb_spec (n mod a) 0) as [E|E].
  - split; lia.
  - split; [lia|].
    replace (n + (a - n mod a)) with ((n / a + 1) * a) by lia.
    rewrite Z.div_mul by lia. lia.
Qed.

Lemma windows_cover s w :
  0 < w -> 0 <= s ->
  let windows := round_up (BigInt.bits s) w / w in
  0 <= windows /\ BigInt.bits s <= w * windows < BigInt.bits s + w /\
  s < 2 ^ (w * windows).
Proof.
  intros Hw Hs windows.
  pose proof (bits_nonneg s) as Hb.
  destruct (round_up_spec (BigInt.bits s) w Hw Hb) as [Hr He].
  fold windows in He.
  assert (0 <= windows) by (subst windows; apply Z.div_pos; lia).
  repeat split; try lia.
  apply Z.lt_le_trans with (2 ^ BigInt.bits s); [now apply bits_lt_pow|].
  apply Z.pow_le_mono_r; lia.
Qed.

Lemma pow8 j : 0 <= j -> 2 ^ (3 * j) = 8 ^ j.
Proof. intros. rewrite Z.pow_mul_r by lia. reflexivity. Qed.

Lemma pow16 j : 0 <= j -> 2 ^ (4 * j) = 16 ^ j.
Proof. intros. rewrite Z.pow_mul_r by lia. reflexivity. Qed.

(** Peeling one window off the top part of a scalar. *)
Lemma window_step (s b j : Z) :
  0 <= s -> 1 < b -> 0 <= j ->
  b ^ j * (s / b ^ j) = b ^ (j + 1) * (s / b ^ (j + 1)) + ((s / b ^ j) mod b) * b ^ j.
Proof.
  intros Hs Hb Hj.
  assert (Hp : 0 < b ^ j) by (apply Z.pow_pos_nonneg; lia).
  rewrite Z.pow_add_r, Z.pow_1_r by lia.
  rewrite <- Z.div_div by lia.
  pose proof (Z.div_mod (s / b ^ j) b ltac:(lia)). nia.
Qed.

Lemma window_digit_range (s b j : Z) : 0 < b -> 0 <= (s / b ^ j) mod b < b.
Proof. intros. now apply Z.mod_pos_bound. Qed.

End WindowFacts.

(** ** Oblivious selection *)

Section MaskFacts.

Lemma ct_select w c r :
  0 <= r < 2 ^ BigInt.word_bits ->
  CT.if_set_return (CT.is_equal w c) r = if w =? c then r else 0.
Proof.
  intros Hr. unfold CT.if_set_return, CT.is_equal.
  destruct (w =? c); [|apply Z.land_0_l].
  rewrite Z.land_comm, Z.land_ones by (pose proof word_bits_pos; lia).
  now apply Z.mod_small.
Qed.

Lemma nth_in_range (l : list Z) (j : nat) :
  Forall (fun w => 0 <= w < 2 ^ BigInt.word_bits) l ->
  0 <= nth j l 0 < 2 ^ BigInt.word_bits.
Proof.
  intros H. revert j. induction H; intros [|j]; cbn [nth]; auto;
    split; try lia; apply Z.pow_pos_nonneg; pose proof word_bits_pos; lia.
Qed.

(** The seven masked reads combine to the candidate the window value
    names, or to zero for the window value 0. *)
Lemma base_select_word_spec W base_addr elem_size w j r1 r2 r3 r4 r5 r6 r7 :
  read W (base_addr + 0 * elem_size + j) = Ok r1 ->
  read W (base_addr + 1 * elem_size + j) = Ok r2 ->
  read W (base_addr + 2 * elem_size + j) = Ok r3 ->
  read W (base_addr + 3 * elem_size + j) = Ok r4 ->
  read W (base_addr + 4 * elem_size + j) = Ok r5 ->
  read W (base_addr + 5 * elem_size + j) = Ok r6 ->
  read W (base_addr + 6 * elem_size + j) = Ok r7 ->
  Forall (fun r => 0 <= r < 2 ^ BigInt.word_bits) [r1; r2; r3; r4; r5; r6; r7] ->
  0 <= w < 8 ->
  base_select_word W base_addr elem_size w j =
  Ok (nth (Z.to_nat w) [0; r1; r2; r3; r4; r5; r6; r7] 0).
Proof.
  intros H1 H2 H3 H4 H5 H6 H7 Hr Hw.
  unfold base_select_word.
  rewrite H1, H2, H3, H4, H5, H6, H7. cbn [bind].
  repeat match goal with
         | H : Forall _ (_ :: _) |- _ => inversion H; subst; clear H
         end.
  rewrite !ct_select by assumption.
  assert (w = 0 \/ w = 1 \/ w = 2 \/ w = 3 \/ w = 4 \/ w = 5 \/ w = 6 \/ w = 7)
    as Hcases by lia.
  destruct Hcases as [-> | [-> | [-> | [-> | [-> | [-> | [-> | ->]]]]]]];
    cbn [Z.eqb Pos.eqb]; rewrite ?Z.lor_0_l, ?Z.lor_0_r; reflexivity.
Qed.

End MaskFacts.

(** ** The fixed-base engine *)

Section BaseTableFacts.

Context {PA : PointArith} {G : Type} {AG : AbGroup G}.
Variable cv : CurveGFp.
Variable embed : option (Z * Z) -> G.
Hypothesis laws : PointArithLaws cv embed.

Lemma get_p_words_pos : 1 <= get_p_words cv.
Proof.
  unfold get_p_words, BigInt.sig_words.
  pose proof (cv_p_ge_2 cv embed laws).
  destruct (bits_spec (get_p cv) ltac:(lia)) as [Hb _].
  apply Z.div_le_lower_bound; [reflexivity|]. unfold BigInt.word_bits. lia.
Qed.

Lemma length_affine_words n Q : length (affine_words n Q) = (2 * n)%nat.
Proof. unfold affine_words. rewrite length_app, !length_split_words. lia. Qed.

Lemma affine_words_range n Q :
  Forall (fun w => 0 <= w < 2 ^ BigInt.word_bits) (affine_words n Q).
Proof. unfold affine_words. apply Forall_app. split; apply split_words_range. Qed.

Lemma base_multipliers_S i :
  base_multipliers (S i) =
  base_multipliers i ++ map (fun c => c * 8 ^ Z.of_nat i) [1; 2; 3; 4; 5; 6; 7].
Proof.
  unfold base_multipliers. rewrite seq_S, flat_map_app. cbn [flat_map Nat.add].
  now rewrite app_nil_r.
Qed.

Lemma zmul_sum (a b : Z) (g : G) :
  0 <= a -> 0 <= b -> gadd (zmul a g) (zmul b g) = zmul (a + b) g.
Proof. intros. symmetry. now apply zmul_add. Qed.

(** The table loop fills slot [7*i + c - 1] with [c * 8^i] times the base
    point. *)
Lemma base_table_loop_ok (g0 : G) (n : nat) :
  forall (i : nat) (g : PointGFp) (T : list PointGFp),
    valid cv g ->
    denote embed g = zmul (8 ^ Z.of_nat i) g0 ->
    Forall2 (fun Q m => valid cv Q /\ denote embed Q = zmul m g0) T (base_multipliers i) ->
    exists T',
      base_table_loop n g T = Ok T' /\
      Forall2 (fun Q m => valid cv Q /\ denote embed Q = zmul m g0)
              T' (base_multipliers (i + n)).
Proof.
  induction n as [|n IH]; intros i g T Hg Hd HT.
  - exists T. rewrite Nat.add_0_r. split; [reflexivity | exact HT].
  - cbn [base_table_loop].
    assert (He : 0 < 8 ^ Z.of_nat i) by (apply Z.pow_pos_nonneg; lia).
    destruct (mult2_ok cv embed laws g Hg) as [Hg2 Hd2].
    destruct (mult2_ok cv embed laws _ Hg2) as [Hg4 Hd4].
    destruct (plus_ok cv embed laws _ _ Hg2 Hg) as (t2 & Ht2 & Hv2 & Hdt2).
    destruct (plus_ok cv embed laws _ _ Hg4 Hg) as (t4 & Ht4 & Hv4 & Hdt4).
    destruct (plus_ok cv embed laws _ _ Hg4 Hg2) as (t5 & Ht5 & Hv5 & Hdt5).
    destruct (plus_ok cv embed laws _ _ Hg4 Hv2) as (t6 & Ht6 & Hv6 & Hdt6).
    destruct (mult2_ok cv embed laws _ Hg4) as [Hg8 Hd8].
    cbv zeta. rewrite Ht2. cbn [bind]. rewrite Ht4. cbn [bind].
    rewrite Ht5. cbn [bind]. rewrite Ht6. cbn [bind].
    rewrite Hd in Hd2. rewrite <- zmul_mul in Hd2 by lia.
    rewrite Hd2 in Hd4. rewrite <- zmul_mul in Hd4 by lia.
    rewrite Hd2, Hd, zmul_sum in Hdt2 by lia.
    rewrite Hd4, Hd, zmul_sum in Hdt4 by lia.
    rewrite Hd4, Hd2, zmul_sum in Hdt5 by lia.
    rewrite Hd4, Hdt2, zmul_sum in Hdt6 by lia.
    rewrite Hd4 in Hd8. rewrite <- zmul_mul in Hd8 by lia.
    replace (i + S n)%nat with (S i + n)%nat by lia.
    apply IH.
    + exact Hg8.
    + rewrite Hd8. f_equal. rewrite Nat2Z.inj_succ, Z.pow_succ_r by lia. lia.
    + rewrite base_multipliers_S. apply Forall2_app; [exact HT|].
      cbn [map].
      repeat (constructor; [split; [assumption|] |]); try constructor;
        match goal with |- denote _ _ = _ => idtac end.
      * rewrite Hd. f_equal. lia.
      * rewrite Hd2. reflexivity.
      * rewrite Hdt2. f_equal. lia.
      * rewrite Hd4. f_equal. lia.
      * rewrite Hdt4. f_equal. lia.
      * rewrite Hdt5. f_equal. lia.
      * rewrite Hdt6. f_equal. lia.
Qed.

Lemma encode_affine_table_ok (T : list PointGFp) :
  Forall (valid cv) T ->
  encode_affine_table T (get_p_words cv) =
  Ok (flat_map (affine_words (Z.to_nat (get_p_words cv))) T).
Proof.
  induction 1 as [|Q T HQ HT IH]; cbn [encode_affine_table flat_map]; [reflexivity|].
  destruct HQ as (_ & Hx & Hy & _).
  unfold get_x, get_y, get_p_words in *.
  rewrite !encode_words_ok by assumption. cbn [bind].
  rewrite IH. cbn [bind]. unfold affine_words. now rewrite app_assoc.
Qed.

(** Construction: with no identity among the points of the table, the
    engine holds the table the spec describes. *)
Lemma base_precompute_ok (P : PointGFp) (r : Modular_Reducer) :
  valid cv P ->
  (forall T, base_table_loop (Z.to_nat (base_T_bits P r)) P [] = Ok T ->
             Forall (fun Q => is_zero Q = false) T) ->
  exists E,
    base_precompute P r = Ok E /\ m_mod_order E = r /\ m_base_point E = P /\
    base_engine_spec cv embed (denote embed P) (Z.to_nat (base_T_bits P r)) E.
Proof.
  intros HP Hnz. unfold base_precompute.
  destruct (base_table_loop_ok (denote embed P) (Z.to_nat (base_T_bits P r)) 0 P [] HP)
    as (T & HT & HF).
  { now rewrite zmul_1. }
  { constructor. }
  rewrite HT. cbn [bind]. specialize (Hnz T HT).
  cbn [Nat.add] in HF.
  assert (Hin : Forall (fun Q => valid cv Q /\ is_zero Q = false) T).
  { clear HT. revert Hnz. induction HF as [|Q m T ms [HQ _] _ IH]; intros Hz; constructor.
    - split; [exact HQ | now inversion Hz].
    - apply IH. now inversion Hz. }
  pose proof (law_force_all_affine cv embed laws T Hin) as Haff.
  assert (Hspec : base_table_spec cv embed (denote embed P)
                                  (Z.to_nat (base_T_bits P r)) (force_all_affine T)).
  { unfold base_table_spec. clear HT Hnz Hin.
    revert HF. generalize (base_multipliers (Z.to_nat (base_T_bits P r))).
    induction Haff as [|Q Q' T T' (HvQ' & Hz1 & Ha) _ IH]; intros ms HF.
    - inversion HF. constructor.
    - inversion HF as [|? m ? ms' [_ Hd] HF']; subst. constructor.
      + split; [assumption|]. split; [assumption|].
        unfold denote in *. now rewrite Ha.
      + now apply IH. }
  assert (Hval : Forall (valid cv) (force_all_affine T)).
  { clear - Hspec. unfold base_table_spec in Hspec.
    induction Hspec as [|? ? ? ? [Hv _]]; constructor; assumption. }
  unfold get_curve. rewrite (valid_curve cv P HP).
  change (BigInt.sig_words (get_p cv)) with (get_p_words cv).
  rewrite (encode_affine_table_ok _ Hval). cbn [bind].
  eexists. split; [reflexivity|]. cbn [m_mod_order m_base_point].
  split; [reflexivity|]. split; [reflexivity|].
  unfold base_engine_spec. cbn [m_base_point m_p_words m_W].
  split; [apply HP|]. split; [reflexivity|].
  exists (force_all_affine T). split; [exact Hspec | reflexivity].
Qed.

End BaseTableFacts.

Section BaseMulFacts.

Context {PA : PointArith} {G : Type} {AG : AbGroup G}.
Variable cv : CurveGFp.
Variable embed : option (Z * Z) -> G.
Hypothesis laws : PointArithLaws cv embed.
Variable g : G.
Variable Tb : nat.
Variable E : PointGFp_Base_Point_Precompute.
Hypothesis HE : base_engine_spec cv embed g Tb E.

Lemma base_entry (T : list PointGFp) window c :
  base_table_spec cv embed g Tb T ->
  0 <= window < Z.of_nat Tb -> 1 <= c <= 7 ->
  exists Q, nth_error T (Z.to_nat (7 * window + (c - 1))) = Some Q /\
            valid cv Q /\ m_coord_z Q = 1 /\
            denote embed Q = zmul (c * 8 ^ window) g.
Proof.
  intros HT Hw Hc.
  pose proof (nth_error_base_multipliers Tb (Z.to_nat window) c ltac:(lia) Hc) as Hm.
  destruct (Forall2_nth_error _ _ _ _ _ HT Hm) as (Q & HQ & Hv & Hz & Hd).
  exists Q. rewrite Z2Nat.id in Hd by lia.
  replace (Z.to_nat (7 * window + (c - 1)))
    with (Z.to_nat window * 7 + Z.to_nat (c - 1))%nat by lia.
  auto.
Qed.

Lemma base_read (T : list PointGFp) window c j Q :
  m_W E = flat_map (affine_words (Z.to_nat (get_p_words cv))) T ->
  m_p_words E = get_p_words cv ->
  0 <= window -> 0 <= c -> 0 <= j < 2 * get_p_words cv ->
  nth_error T (Z.to_nat (7 * window + c)) = Some Q ->
  read (m_W E) (WINDOW_SIZE * window * (2 * m_p_words E) + c * (2 * m_p_words E) + j) =
  Ok (nth (Z.to_nat j) (affine_words (Z.to_nat (get_p_words cv)) Q) 0).
Proof.
  intros HW Hpw Hw Hc Hj HQ. rewrite HW, Hpw.
  pose proof (get_p_words_pos cv embed laws) as Hp.
  assert (Hm : Z.of_nat (2 * Z.to_nat (get_p_words cv)) = 2 * get_p_words cv) by lia.
  replace (WINDOW_SIZE * window * (2 * get_p_words cv) + c * (2 * get_p_words cv) + j)
    with ((7 * window + c) * Z.of_nat (2 * Z.to_nat (get_p_words cv)) + j)
    by (rewrite Hm; unfold WINDOW_SIZE; ring).
  apply read_chunk; try lia; try assumption.
  intros; apply length_affine_words.
Qed.

Lemma affine_words_x Q :
  valid cv Q ->
  BigInt.eval_words (firstn (Z.to_nat (get_p_words cv))
                            (affine_words (Z.to_nat (get_p_words cv)) Q)) = m_coord_x Q.
Proof.
  intros (_ & Hx & _). unfold affine_words.
  rewrite firstn_app, length_split_words, Nat.sub_diag. cbn [firstn].
  rewrite app_nil_r.
  rewrite <- (length_split_words (Z.to_nat (get_p_words cv)) (m_coord_x Q)) at 1.
  rewrite firstn_all. apply eval_split_words. now apply fits_sig_words.
Qed.

Lemma affine_words_y Q :
  valid cv Q ->
  BigInt.eval_words (firstn (Z.to_nat (get_p_words cv))
                            (skipn (Z.to_nat (get_p_words cv))
                                   (affine_words (Z.to_nat (get_p_words cv)) Q)))
  = m_coord_y Q.
Proof.
  intros (_ & _ & Hy & _). unfold affine_words.
  rewrite skipn_app, length_split_words, Nat.sub_diag. cbn [skipn].
  rewrite skipn_all2 by (rewrite length_split_words; lia). cbn [app].
  rewrite <- (length_split_words (Z.to_nat (get_p_words cv)) (m_coord_y Q)) at 1.
  rewrite firstn_all. apply eval_split_words. now apply fits_sig_words.
Qed.

(** The selection of a window: the all-zero words for the window value 0,
    else the words of the table entry holding [w * 8^window] times the
    base point. *)
Lemma base_select_ok window w :
  0 <= window < Z.of_nat Tb -> 0 <= w < 8 ->
  exists Wt,
    base_select (m_W E) (WINDOW_SIZE * window * (2 * m_p_words E)) (2 * m_p_words E) w
    = Ok Wt /\
    ((w = 0 /\ Forall (fun x => x = 0) Wt) \/
     (w <> 0 /\
      exists Q, valid cv Q /\ m_coord_z Q = 1 /\
                denote embed Q = zmul (w * 8 ^ window) g /\
                Wt = affine_words (Z.to_nat (get_p_words cv)) Q)).
Proof.
  intros Hw Hwr.
  destruct HE as (Hc & Hpw & T & HT & HW).
  destruct (base_entry T window 1 HT Hw ltac:(lia)) as (Q1 & HQ1 & Hv1 & Hz1 & Hd1).
  destruct (base_entry T window 2 HT Hw ltac:(lia)) as (Q2 & HQ2 & Hv2 & Hz2 & Hd2).
  destruct (base_entry T window 3 HT Hw ltac:(lia)) as (Q3 & HQ3 & Hv3 & Hz3 & Hd3).
  destruct (base_entry T window 4 HT Hw ltac:(lia)) as (Q4 & HQ4 & Hv4 & Hz4 & Hd4).
  destruct (base_entry T window 5 HT Hw ltac:(lia)) as (Q5 & HQ5 & Hv5 & Hz5 & Hd5).
  destruct (base_entry T window 6 HT Hw ltac:(lia)) as (Q6 & HQ6 & Hv6 & Hz6 & Hd6).
  destruct (base_entry T window 7 HT Hw ltac:(lia)) as (Q7 & HQ7 & Hv7 & Hz7 & Hd7).
  set (n := Z.to_nat (get_p_words cv)) in *.
  set (aw := affine_words n).
  assert (Hsel : forall j, In j (zrange (2 * m_p_words E)) ->
            base_select_word (m_W E) (WINDOW_SIZE * window * (2 * m_p_words E))
                             (2 * m_p_words E) w j =
            Ok (nth (Z.to_nat w)
                    [0; nth (Z.to_nat j) (aw Q1) 0; nth (Z.to_nat j) (aw Q2) 0;
                     nth (Z.to_nat j) (aw Q3) 0; nth (Z.to_nat j) (aw Q4) 0;
                     nth (Z.to_nat j) (aw Q5) 0; nth (Z.to_nat j) (aw Q6) 0;
                     nth (Z.to_nat j) (aw Q7) 0] 0)).
  { intros j Hj. apply in_zrange in Hj. rewrite Hpw in Hj.
    apply base_select_word_spec; try assumption;
      try (apply (base_read T); try assumption; try lia; assumption).
    repeat constructor; apply nth_in_range, affine_words_range. }
  unfold base_select. rewrite (collect_map_ok _ _ _ Hsel).
  eexists. split; [reflexivity|].
  assert (Hlen : forall Q, 2 * m_p_words E = Z.of_nat (length (aw Q))).
  { intros Q. subst aw. rewrite length_affine_words, Hpw.
    pose proof (get_p_words_pos cv embed laws). subst n. lia. }
  assert (w = 0 \/ w = 1 \/ w = 2 \/ w = 3 \/ w = 4 \/ w = 5 \/ w = 6 \/ w = 7)
    as Hcases by lia.
  destruct Hcases as [-> | [-> | [-> | [-> | [-> | [-> | [-> | ->]]]]]]].
  - left. split; [reflexivity|]. apply Forall_forall. intros x Hx.
    apply in_map_iff in Hx. destruct Hx as (j & <- & _). reflexivity.
  - right. split; [lia|]. exists Q1. repeat (split; [assumption|]).
    rewrite (Hlen Q1). apply (map_nth_zrange (aw Q1) 0).
  - right. split; [lia|]. exists Q2. repeat (split; [assumption|]).
    rewrite (Hlen Q2). apply (map_nth_zrange (aw Q2) 0).
  - right. split; [lia|]. exists Q3. repeat (split; [assumption|]).
    rewrite (Hlen Q3). apply (map_nth_zrange (aw Q3) 0).
  - right. split; [lia|]. exists Q4. repeat (split; [assumption|]).
    rewrite (Hlen Q4). apply (map_nth_zrange (aw Q4) 0).
  - right. split; [lia|]. exists Q5. repeat (split; [assumption|]).
    rewrite (Hlen Q5). apply (map_nth_zrange (aw Q5) 0).
  - right. split; [lia|]. exists Q6. repeat (split; [assumption|]).
    rewrite (Hlen Q6). apply (map_nth_zrange (aw Q6) 0).
  - right. split; [lia|]. exists Q7. repeat (split; [assumption|]).
    rewrite (Hlen Q7). apply (map_nth_zrange (aw Q7) 0).
Qed.

End BaseMulFacts.

Section BaseLoopFacts.

Context {PA : PointArith} {G : Type} {AG : AbGroup G}.
Variable cv : CurveGFp.
Variable embed : option (Z * Z) -> G.
Hypothesis laws : PointArithLaws cv embed.
Variable g : G.
Variable Tb : nat.
Variable E : PointGFp_Base_Point_Precompute.
Hypothesis HE : base_engine_spec cv embed g Tb E.

(** One window: the accumulator gains the digit of that window. *)
Lemma base_window_ok (s window : Z) (R : PointGFp) :
  0 <= s -> 0 <= window < Z.of_nat Tb ->
  valid cv R ->
  denote embed R = zmul (8 ^ (window + 1) * (s / 8 ^ (window + 1))) g ->
  exists Wt,
    base_select (m_W E) (WINDOW_SIZE * window * (2 * m_p_words E)) (2 * m_p_words E)
                (BigInt.get_substring s (WINDOW_BITS * window) WINDOW_BITS) = Ok Wt /\
    let n := Z.to_nat (m_p_words E) in
    let R' := add_affine_words R (firstn n Wt) (firstn n (skipn n Wt)) in
    valid cv R' /\ denote embed R' = zmul (8 ^ window * (s / 8 ^ window)) g.
Proof.
  intros Hs Hw HR Hd.
  assert (Hdigit : BigInt.get_substring s (WINDOW_BITS * window) WINDOW_BITS
                   = (s / 8 ^ window) mod 8).
  { unfold WINDOW_BITS. rewrite get_substring_spec by lia.
    rewrite Z.abs_eq by lia. rewrite pow8 by lia. reflexivity. }
  rewrite Hdigit.
  pose proof (window_digit_range s 8 window ltac:(lia)) as Hrange.
  pose proof (window_step s 8 window Hs ltac:(lia) ltac:(lia)) as Hstep.
  assert (Hp8 : 0 < 8 ^ window) by (apply Z.pow_pos_nonneg; lia).
  assert (Hp8' : 0 < 8 ^ (window + 1)) by (apply Z.pow_pos_nonneg; lia).
  assert (Hq : 0 <= s / 8 ^ (window + 1)) by (apply Z.div_pos; lia).
  destruct (base_select_ok cv embed laws g Tb E HE window _ Hw Hrange)
    as (Wt & HWt & Hcase).
  exists Wt. split; [exact HWt|].
  destruct HE as (_ & Hpw & _). rewrite Hpw. cbv zeta.
  destruct Hcase as [[Hw0 Hz] | (Hwn & Q & HvQ & Hz1 & HdQ & ->)].
  - destruct (law_add_affine_zero cv embed laws R
                (firstn (Z.to_nat (get_p_words cv)) Wt)
                (firstn (Z.to_nat (get_p_words cv)) (skipn (Z.to_nat (get_p_words cv)) Wt))
                HR) as [Hv Ha].
    + apply eval_words_zero. now apply Forall_zero_firstn.
    + apply eval_words_zero. now apply Forall_zero_firstn, Forall_zero_skipn.
    + split; [exact Hv|]. unfold denote in *. rewrite Ha, Hd.
      f_equal. rewrite Hstep, Hw0. lia.
  - assert (HQ : mk_point cv (m_coord_x Q) (m_coord_y Q) 1 = Q).
    { destruct HvQ as (Hc & _). destruct Q; cbn in *. subst. reflexivity. }
    destruct (law_add_affine cv embed laws R
                (firstn (Z.to_nat (get_p_words cv))
                        (affine_words (Z.to_nat (get_p_words cv)) Q))
                (firstn (Z.to_nat (get_p_words cv))
                        (skipn (Z.to_nat (get_p_words cv))
                               (affine_words (Z.to_nat (get_p_words cv)) Q)))
                HR) as [Hv Ha].
    + rewrite (affine_words_x cv Q HvQ), (affine_words_y cv Q HvQ), HQ. exact HvQ.
    + split; [exact Hv|].
      rewrite (affine_words_x cv Q HvQ), (affine_words_y cv Q HvQ), HQ in Ha.
      unfold denote in *. rewrite Ha, Hd, HdQ.
      rewrite zmul_sum by nia.
      f_equal. rewrite Hstep. lia.
Qed.

(** The window loop brings the accumulator to [scalar] times the base
    point. *)
Lemma base_mul_loop_ok (s windows : Z) :
  0 <= s -> 0 <= windows <= Z.of_nat Tb ->
  forall (n : nat) (i : Z) (R : PointGFp) (rng : RandomNumberGenerator),
    i + Z.of_nat n = windows -> 0 <= i ->
    valid cv R ->
    denote embed R = zmul (8 ^ (windows - i) * (s / 8 ^ (windows - i))) g ->
    exists R' rng',
      base_mul_loop E s windows n i R rng = (Ok R', rng') /\
      valid cv R' /\ denote embed R' = zmul s g.
Proof.
  intros Hs Hw. induction n as [|n IH]; intros i R rng Hi Hi0 HR Hd.
  - exists R, rng. cbn [base_mul_loop]. split; [reflexivity|]. split; [assumption|].
    rewrite Hd. f_equal. replace (windows - i) with 0 by lia.
    rewrite Z.pow_0_r, Z.div_1_r. lia.
  - cbn [base_mul_loop]. cbv zeta.
    replace (windows - i) with (windows - i - 1 + 1) in Hd by lia.
    destruct (base_window_ok s (windows - i - 1) R Hs ltac:(lia) HR Hd)
      as (Wt & HWt & Hv & Hd').
    rewrite HWt. cbv zeta in Hv, Hd'.
    match goal with
    | H : valid cv (add_affine_words R ?a ?b) |- _ =>
        set (R1 := add_affine_words R a b) in *
    end.
    assert (Hrand : forall c : bool,
               valid cv (fst (if c then randomize_repr R1 rng else (R1, rng))) /\
               denote embed (fst (if c then randomize_repr R1 rng else (R1, rng)))
               = denote embed R1).
    { intros [|]; cbn [fst].
      - split; [apply (randomize_repr_ok cv embed laws R1 rng Hv)|].
        apply (randomize_repr_denote cv embed laws R1 rng Hv).
      - auto. }
    specialize (Hrand ((i =? 0) && is_seeded rng)).
    destruct (if (i =? 0) && is_seeded rng then randomize_repr R1 rng else (R1, rng))
      as [R2 rng2].
    cbn [fst] in Hrand. destruct Hrand as [Hv2 Hd2].
    apply IH; try lia; try assumption.
    rewrite Hd2, Hd'. f_equal. f_equal; [f_equal; lia | f_equal; f_equal; lia].
Qed.

Lemma base_mul_scalar_ok (s : Z) (rng : RandomNumberGenerator) :
  0 <= s -> BigInt.bits s <= 3 * Z.of_nat Tb ->
  exists R' rng',
    base_mul_scalar E s rng = (Ok R', rng') /\
    valid cv R' /\ denote embed R' = zmul s g.
Proof.
  intros Hs Hb. unfold base_mul_scalar. cbv zeta.
  destruct (windows_cover s WINDOW_BITS ltac:(reflexivity) Hs) as (Hw0 & Hw & Hlt).
  set (windows := round_up (BigInt.bits s) WINDOW_BITS / WINDOW_BITS) in *.
  unfold WINDOW_BITS in Hw, Hlt.
  assert (Hwt : windows <= Z.of_nat Tb) by lia.
  destruct HE as (Hc & Hpw & T & HT & HW).
  pose proof (get_p_words_pos cv embed laws) as Hp.
  assert (Hlen : Z.of_nat (length (m_W E)) = 7 * Z.of_nat Tb * (2 * m_p_words E)).
  { rewrite HW, (length_flat_chunks _ (2 * Z.to_nat (get_p_words cv))).
    - assert (length T = (Tb * 7)%nat).
      { rewrite (Forall2_length HT). unfold base_multipliers.
        rewrite (length_flat_chunks _ 7); [now rewrite length_seq | reflexivity]. }
      rewrite Hpw. nia.
    - intros; apply length_affine_words. }
  assert (Hassert : windows <= Z.of_nat (length (m_W E)) / (3 * (2 * m_p_words E))).
  { rewrite Hlen. apply Z.div_le_lower_bound; [lia|]. nia. }
  destruct (Z.leb_spec windows (Z.of_nat (length (m_W E)) / (3 * (2 * m_p_words E))));
    [|lia].
  cbn [negb].
  apply (base_mul_loop_ok s windows Hs ltac:(lia)); try lia.
  - unfold zero. rewrite Hc. apply laws.
  - unfold zero. rewrite Hc. rewrite (denote_zero_point cv embed laws).
    replace (windows - 0) with windows by lia.
    rewrite pow8 in Hlt by lia.
    rewrite Z.div_small by lia. rewrite Z.mul_0_r. reflexivity.
Qed.

End BaseLoopFacts.

Section BaseMulCorrect.

Context {PA : PointArith} {G : Type} {AG : AbGroup G}.
Variable cv : CurveGFp.
Variable embed : option (Z * Z) -> G.
Hypothesis laws : PointArithLaws cv embed.

(** The table covers every scalar the blinding or the padding can
    produce, as long as the order is at most one bit longer than p. *)
Lemma base_T_bits_cover (P : PointGFp) (n : Z) :
  valid cv P ->
  BigInt.bits (get_p cv) + blinding_size n + 1
  <= 3 * Z.of_nat (Z.to_nat (base_T_bits P {| get_modulus := n |})).
Proof.
  intros HP. unfold base_T_bits, get_curve. cbn [get_modulus].
  rewrite (valid_curve cv P HP).
  pose proof (bits_nonneg (get_p cv)). pose proof (blinding_size_nonneg n).
  destruct (round_up_spec (BigInt.bits (get_p cv) + blinding_size n + 1) WINDOW_BITS
                          ltac:(reflexivity) ltac:(lia)) as [Hr He].
  set (t := round_up (BigInt.bits (get_p cv) + blinding_size n + 1) WINDOW_BITS / WINDOW_BITS)
    in *.
  unfold WINDOW_BITS in *.
  assert (0 <= t) by lia. rewrite Z2Nat.id by assumption. lia.
Qed.

Lemma blinded_scalar_bits (n r mask : Z) :
  0 < n -> 0 <= r < n -> 0 <= mask < 2 ^ blinding_size n ->
  0 <= r + n * mask /\ BigInt.bits (r + n * mask) <= BigInt.bits n + blinding_size n.
Proof.
  intros Hn Hr Hm.
  pose proof (blinding_size_nonneg n) as Hbs.
  pose proof (bits_nonneg n) as Hb.
  pose proof (bits_lt_pow n ltac:(lia)) as Hlt.
  split; [nia|].
  apply bits_upper; [lia|]. split; [nia|].
  rewrite Z.pow_add_r by lia. nia.
Qed.

Lemma base_mul_correct (P : PointGFp) (k n : Z) (rng : RandomNumberGenerator) :
  valid cv P -> 0 <= k -> 0 < n ->
  zmul n (denote embed P) = gzero ->
  BigInt.bits n <= BigInt.bits (get_p cv) + 1 ->
  (forall T, base_table_loop (Z.to_nat (base_T_bits P {| get_modulus := n |})) P [] = Ok T ->
             Forall (fun Q => is_zero Q = false) T) ->
  exists E R rng',
    base_precompute P {| get_modulus := n |} = Ok E /\
    base_mul E k rng n = (Ok R, rng') /\
    valid cv R /\ denote embed R = zmul k (denote embed P).
Proof.
  intros HP Hk Hn Ho Hbits Hnz.
  destruct (base_precompute_ok cv embed laws P {| get_modulus := n |} HP Hnz)
    as (E & HE & Hmod & Hbase & Hspec).
  pose proof (base_T_bits_cover P n HP) as Hcover.
  pose proof (Z.mod_pos_bound k n Hn) as Hr.
  pose proof (blinding_size_nonneg n) as Hbs.
  assert (Hbs1 : 1 <= blinding_size n).
  { unfold blinding_size. destruct (bits_spec n Hn) as [Hb _].
    apply Z.div_le_lower_bound; lia. }
  exists E.
  assert (Hgoal : forall s rng1,
             0 <= s -> BigInt.bits s <= BigInt.bits (get_p cv) + blinding_size n + 1 ->
             zmul s (denote embed P) = zmul k (denote embed P) ->
             exists R rng', base_mul_scalar E s rng1 = (Ok R, rng') /\
                            valid cv R /\ denote embed R = zmul k (denote embed P)).
  { intros s rng1 Hs Hb Hz.
    destruct (base_mul_scalar_ok cv embed laws _ _ E Hspec s rng1 Hs ltac:(lia))
      as (R & rng' & HR & Hv & Hd).
    exists R, rng'. rewrite Hd, Hz. auto. }
  assert (Hmul : exists R rng', base_mul E k rng n = (Ok R, rng') /\
                                valid cv R /\ denote embed R = zmul k (denote embed P));
    [|destruct Hmul as (R & rng' & Hm1 & Hm2); exists R, rng'; auto].
  unfold base_mul, BigInt.is_negative.
  destruct (Z.ltb_spec k 0); [lia|].
  rewrite Hmod. unfold base_scalar, reduce. cbn [get_modulus].
  destruct (is_seeded rng).
  - pose proof (random_bits_range rng (blinding_size n) true) as Hm.
    destruct (random_bits rng (blinding_size n) true) as [mask rng1]. cbn [fst] in Hm.
    rewrite Z.max_l in Hm by lia.
    destruct (blinded_scalar_bits n (k mod n) mask Hn Hr Hm) as [Hs Hb].
    assert (Hz : zmul (k mod n + n * mask) (denote embed P) = zmul k (denote embed P)).
    { rewrite zmul_order by (try lia; assumption). now apply zmul_mod. }
    exact (Hgoal (k mod n + n * mask) rng1 Hs ltac:(lia) Hz).
  - pose proof (padded_bits n (k mod n) Hn Hr) as Hpad.
    set (s := if BigInt.bits (k mod n + n) =? BigInt.bits n
              then k mod n + n + n else k mod n + n) in *.
    assert (Hs : 0 <= s) by (subst s; destruct (_ =? _); lia).
    assert (Hz : zmul s (denote embed P) = zmul k (denote embed P)).
    { subst s. destruct (_ =? _).
      - replace (k mod n + n + n) with (k mod n + n * 2) by lia.
        rewrite zmul_order by (try lia; assumption). now apply zmul_mod.
      - replace (k mod n + n) with (k mod n + n * 1) by lia.
        rewrite zmul_order by (try lia; assumption). now apply zmul_mod. }
    exact (Hgoal s rng Hs ltac:(lia) Hz).
Qed.

End BaseMulCorrect.

(** ** The variable-point engine *)

Section VarTableFacts.

Context {PA : PointArith} {G : Type} {AG : AbGroup G}.
Variable cv : CurveGFp.
Variable embed : option (Z * Z) -> G.
Hypothesis laws : PointArithLaws cv embed.

Lemma zrange_succ n : 0 <= n -> zrange (n + 1) = zrange n ++ [n].
Proof.
  intros Hn. unfold zrange.
  replace (Z.to_nat (n + 1)) with (S (Z.to_nat n)) by lia.
  rewrite seq_S, map_app. cbn [map Nat.add]. now rewrite Z2Nat.id.
Qed.

Lemma nth_error_zrange n j : 0 <= j < n -> nth_error (zrange n) (Z.to_nat j) = Some j.
Proof.
  intros Hj. unfold zrange.
  rewrite nth_error_map, nth_error_nth' with (d := 0%nat) by (rewrite length_seq; lia).
  rewrite seq_nth by lia. cbn [option_map Nat.add]. now rewrite Z2Nat.id.
Qed.

Lemma length_zrange n : length (zrange n) = Z.to_nat n.
Proof. unfold zrange. now rewrite length_map, length_seq. Qed.

(** The doubling table: slot [i] holds [i] times the point. *)
Lemma var_table_loop_ok (P : PointGFp) (n : nat) :
  valid cv P ->
  forall (i : Z) (U : list PointGFp),
    2 <= i -> i mod 2 = 0 ->
    Forall2 (fun Q m => valid cv Q /\ denote embed Q = zmul m (denote embed P)) U (zrange i) ->
    exists U',
      var_table_loop n i P U = Ok U' /\
      Forall2 (fun Q m => valid cv Q /\ denote embed Q = zmul m (denote embed P))
              U' (zrange (i + 2 * Z.of_nat n)).
Proof.
  intros HP. induction n as [|n IH]; intros i U Hi Hev HU.
  - exists U. replace (i + 2 * Z.of_nat 0) with i by lia. split; [reflexivity | exact HU].
  - cbn [var_table_loop].
    assert (Hhalf : 0 <= i / 2 < i).
    { pose proof (Z.div_mod i 2 ltac:(lia)). lia. }
    destruct (Forall2_nth_error _ _ _ _ _ HU (nth_error_zrange i (i / 2) Hhalf))
      as (h & Hh & Hvh & Hdh).
    rewrite Hh. unfold double_of.
    destruct (mult2_ok cv embed laws h Hvh) as [Hvd Hdd].
    destruct (plus_ok cv embed laws _ _ Hvd HP) as (s & Hs & Hvs & Hds).
    rewrite Hs. cbn [bind].
    replace (i + 2 * Z.of_nat (S n)) with ((i + 2) + 2 * Z.of_nat n) by lia.
    apply IH; [lia | |].
    + rewrite <- Zplus_mod_idemp_r. change (2 mod 2) with 0. now rewrite Z.add_0_r.
    + replace (i + 2) with (i + 1 + 1) by lia.
      rewrite zrange_succ, zrange_succ, <- app_assoc by lia. cbn [app].
      apply Forall2_app; [exact HU|].
      assert (Hdi : denote embed (mult2 h) = zmul i (denote embed P)).
      { rewrite Hdd, Hdh, <- zmul_mul by lia. f_equal.
        pose proof (Z.div_mod i 2 ltac:(lia)). lia. }
      constructor; [split; assumption|].
      constructor; [|constructor].
      split; [assumption|].
      rewrite Hds, Hdi. rewrite <- (zmul_1 (denote embed P)) at 2.
      rewrite zmul_sum by lia. reflexivity.
Qed.

Lemma var_table_ok (P : PointGFp) :
  valid cv P ->
  exists U,
    var_table P 4 = Ok U /\
    Forall2 (fun Q m => valid cv Q /\ denote embed Q = zmul m (denote embed P)) U (zrange 16).
Proof.
  intros HP. unfold var_table.
  change (Z.to_nat ((Z.shiftl 1 4 - 2) / 2)) with 7%nat.
  apply (var_table_loop_ok P 7 HP 2); [lia | reflexivity |].
  change (zrange 2) with [0; 1].
  unfold zero. rewrite (valid_curve cv P HP).
  constructor; [|constructor; [|constructor]].
  - split; [apply laws|]. rewrite zmul_0. apply (denote_zero_point cv embed laws).
  - split; [exact HP|]. now rewrite zmul_1.
Qed.

Lemma var_randomize_ok (g : G) (U : list PointGFp) (ms : list Z) :
  forall rng,
    Forall2 (fun Q m => valid cv Q /\ denote embed Q = zmul m g) U ms ->
    Forall2 (fun Q m => valid cv Q /\ denote embed Q = zmul m g)
            (fst (var_randomize cv U rng)) ms.
Proof.
  intros rng H. revert rng.
  induction H as [|Q m U ms [Hv Hd] _ IH]; intros rng; cbn [var_randomize fst].
  - constructor.
  - pose proof (random_mask_range cv embed laws rng) as Hm.
    destruct (random_mask cv rng) as [mask rng1]. cbn [fst] in Hm.
    specialize (IH rng1).
    destruct (var_randomize cv U rng1) as [r rng2]. cbn [fst] in *.
    destruct (rescale_ok cv embed laws mask Q Hv Hm) as [Hv' Ha].
    constructor; [|exact IH].
    split; [exact Hv'|]. unfold denote in *. now rewrite Ha.
Qed.

Lemma encode_jacobian_table_ok (U : list PointGFp) :
  Forall (valid cv) U ->
  encode_jacobian_table U (get_p_words cv) =
  Ok (flat_map (jacobian_words (Z.to_nat (get_p_words cv))) U).
Proof.
  induction 1 as [|Q U HQ HU IH]; cbn [encode_jacobian_table flat_map]; [reflexivity|].
  destruct HQ as (_ & Hx & Hy & Hz & _).
  unfold get_x, get_y, get_z, get_p_words in *.
  rewrite !encode_words_ok by assumption. cbn [bind].
  rewrite IH. cbn [bind]. unfold jacobian_words. now rewrite <- !app_assoc.
Qed.

Lemma Forall2_valid_l (g : G) (U : list PointGFp) (ms : list Z) :
  Forall2 (fun Q m => valid cv Q /\ denote embed Q = zmul m g) U ms -> Forall (valid cv) U.
Proof. induction 1 as [|? ? ? ? [Hv _]]; constructor; assumption. Qed.

(** Construction, seeded or not. *)
Lemma var_precompute_ok (P : PointGFp) (rng : RandomNumberGenerator) :
  valid cv P ->
  exists E rng',
    var_precompute P rng = (Ok E, rng') /\
    var_engine_spec cv embed (denote embed P) E.
Proof.
  intros HP. unfold var_precompute.
  destruct (var_table_ok P HP) as (U & HU & HF).
  rewrite HU. unfold get_curve. rewrite (valid_curve cv P HP).
  change (BigInt.sig_words (get_p cv)) with (get_p_words cv).
  assert (Hfin : forall (U' : list PointGFp) (rng1 : RandomNumberGenerator),
             Forall2 (fun Q m => valid cv Q /\ denote embed Q = zmul m (denote embed P))
                     U' (zrange 16) ->
             exists E rng',
               (T <- encode_jacobian_table U' (get_p_words cv) ;;
                Ok {| var_m_curve := cv; var_m_p_words := get_p_words cv;
                      m_window_bits := 4; m_T := T |}, rng1) = (Ok E, rng') /\
               var_engine_spec cv embed (denote embed P) E).
  { intros U' rng1 HF'.
    rewrite (encode_jacobian_table_ok U' (Forall2_valid_l _ _ _ HF')). cbn [bind].
    eexists. eexists. split; [reflexivity|].
    unfold var_engine_spec. cbn [var_m_curve var_m_p_words m_window_bits m_T].
    repeat (split; [reflexivity|]). exists U'. auto. }
  destruct (is_seeded rng).
  - destruct U as [|U0 rest].
    + apply Hfin. exact HF.
    + change (zrange 16) with (0 :: tl (zrange 16)) in HF.
      inversion HF as [|? ? ? ? H0 Hrest]; subst.
      assert (HcU0 : m_curve U0 = cv) by apply H0.
      rewrite HcU0.
      pose proof (var_randomize_ok (denote embed P) rest _ rng Hrest) as Hrand.
      destruct (var_randomize cv rest rng) as [rest' rng1]. cbn [fst] in Hrand.
      apply Hfin. change (zrange 16) with (0 :: tl (zrange 16)).
      constructor; assumption.
  - apply Hfin. exact HF.
Qed.

End VarTableFacts.

Section VarMulFacts.

Context {PA : PointArith} {G : Type} {AG : AbGroup G}.
Variable cv : CurveGFp.
Variable embed : option (Z * Z) -> G.
Hypothesis laws : PointArithLaws cv embed.
Variable g : G.
Variable E : PointGFp_Var_Point_Precompute.
Hypothesis HE : var_engine_spec cv embed g E.

Lemma var_select_word_fold (T : list Z) (elem w j : Z) (r : Z -> Z) (cs : list Z) :
  forall e,
    (forall i, In i cs ->
               read T (i * elem + j) = Ok (r i) /\ 0 <= r i < 2 ^ BigInt.word_bits) ->
    var_select_word T elem w j cs e =
    Ok (fold_left (fun acc i => Z.lor acc (if w =? i then r i else 0)) cs e).
Proof.
  induction cs as [|c cs IH]; intros e H; cbn [var_select_word fold_left]; [reflexivity|].
  destruct (H c (or_introl eq_refl)) as [Hr Hrange].
  rewrite Hr. cbn [bind]. rewrite ct_select by assumption.
  apply IH. intros; apply H; now right.
Qed.

Lemma fold_select (r : Z -> Z) (w : Z) :
  0 <= w < 16 ->
  fold_left (fun acc i => Z.lor acc (if w =? i then r i else 0))
            [1; 2; 3; 4; 5; 6; 7; 8; 9; 10; 11; 12; 13; 14; 15] 0
  = if w =? 0 then 0 else r w.
Proof.
  intros Hw.
  assert (w = 0 \/ w = 1 \/ w = 2 \/ w = 3 \/ w = 4 \/ w = 5 \/ w = 6 \/ w = 7 \/
          w = 8 \/ w = 9 \/ w = 10 \/ w = 11 \/ w = 12 \/ w = 13 \/ w = 14 \/ w = 15)
    as Hcases by lia.
  repeat (destruct Hcases as [-> | Hcases];
          [cbn [fold_left Z.eqb Pos.eqb]; rewrite ?Z.lor_0_l, ?Z.lor_0_r; reflexivity|]).
  subst. cbn [fold_left Z.eqb Pos.eqb]. rewrite ?Z.lor_0_l, ?Z.lor_0_r. reflexivity.
Qed.

Lemma length_jacobian_words n Q : length (jacobian_words n Q) = (3 * n)%nat.
Proof. unfold jacobian_words. rewrite !length_app, !length_split_words. lia. Qed.

Lemma jacobian_words_range n Q :
  Forall (fun w => 0 <= w < 2 ^ BigInt.word_bits) (jacobian_words n Q).
Proof.
  unfold jacobian_words. repeat (apply Forall_app; split); apply split_words_range.
Qed.

(** The three slices of an entry read back as its coordinates. *)
Lemma jacobian_words_decode Q :
  valid cv Q ->
  let n := Z.to_nat (get_p_words cv) in
  let e := jacobian_words n Q in
  mk_point cv (BigInt.eval_words (firstn n e))
              (BigInt.eval_words (firstn n (skipn n e)))
              (BigInt.eval_words (firstn n (skipn (2 * n) e))) = Q.
Proof.
  intros (Hc & Hx & Hy & Hz & _) n e. subst e. unfold jacobian_words.
  assert (Hl : forall v, length (BigInt.split_words n v) = n)
    by (intros; apply length_split_words).
  assert (Hf : forall v l, firstn n (BigInt.split_words n v ++ l) = BigInt.split_words n v).
  { intros v l. rewrite firstn_app, Hl, Nat.sub_diag. cbn [firstn].
    rewrite app_nil_r. rewrite <- (Hl v) at 1. apply firstn_all. }
  assert (Hs : forall v l, skipn n (BigInt.split_words n v ++ l) = l).
  { intros v l. rewrite skipn_app, Hl, Nat.sub_diag. cbn [skipn].
    rewrite skipn_all2 by (rewrite Hl; lia). reflexivity. }
  replace (2 * n)%nat with (n + n)%nat by lia.
  rewrite <- skipn_skipn, !Hs, !Hf.
  rewrite <- (app_nil_r (BigInt.split_words n (m_coord_z Q))), Hf.
  subst n. unfold get_p_words.
  rewrite !eval_split_words by (apply fits_sig_words; assumption).
  destruct Q; cbn in *. subst. reflexivity.
Qed.

(** The selection of a window stands for [w] times the point. *)
Lemma var_select_ok (w : Z) :
  0 <= w < 16 ->
  exists e Q,
    var_select (m_T E) (3 * var_m_p_words E) (Z.shiftl 1 (m_window_bits E)) w = Ok e /\
    valid cv Q /\ denote embed Q = zmul w g /\
    let n := Z.to_nat (var_m_p_words E) in
    mk_point cv (BigInt.eval_words (firstn n e))
                (BigInt.eval_words (firstn n (skipn n e)))
                (BigInt.eval_words (firstn n (skipn (2 * n) e))) = Q.
Proof.
  intros Hw. destruct HE as (Hc & Hpw & Hwb & U & HU & HT).
  rewrite Hwb, Hpw. change (Z.shiftl 1 4) with 16.
  pose proof (get_p_words_pos cv embed laws) as Hp.
  set (n := Z.to_nat (get_p_words cv)) in *.
  set (jw := jacobian_words n).
  set (d := zero_point cv).
  assert (HlenU : length U = 16%nat).
  { rewrite (Forall2_length HU), length_zrange. reflexivity. }
  assert (Hentry : forall i, 0 <= i < 16 ->
             nth_error U (Z.to_nat i) = Some (nth (Z.to_nat i) U d) /\
             valid cv (nth (Z.to_nat i) U d) /\
             denote embed (nth (Z.to_nat i) U d) = zmul i g).
  { intros i Hi.
    destruct (Forall2_nth_error _ _ _ _ _ HU (nth_error_zrange 16 i Hi)) as (Q & HQ & Hv & Hd).
    rewrite (nth_error_nth _ _ d HQ). auto. }
  assert (Hm : Z.of_nat (3 * n) = 3 * get_p_words cv) by lia.
  assert (Hsel : forall j, In j (zrange (3 * get_p_words cv)) ->
             var_select_word (m_T E) (3 * get_p_words cv) w j (tl (zrange 16)) 0 =
             Ok (if w =? 0 then 0
                 else nth (Z.to_nat j) (jw (nth (Z.to_nat w) U d)) 0)).
  { intros j Hj. apply in_zrange in Hj.
    change (tl (zrange 16)) with [1; 2; 3; 4; 5; 6; 7; 8; 9; 10; 11; 12; 13; 14; 15].
    rewrite (var_select_word_fold _ _ _ _
               (fun i => nth (Z.to_nat j) (jw (nth (Z.to_nat i) U d)) 0)).
    - now rewrite fold_select.
    - intros i Hi.
      assert (0 <= i < 16) by (cbn [In] in Hi; lia).
      destruct (Hentry i ltac:(assumption)) as (Hnth & _).
      split; [|apply nth_in_range, jacobian_words_range].
      rewrite HT, <- Hm. apply read_chunk; try lia; try assumption.
      intros; apply length_jacobian_words. }
  unfold var_select. rewrite (collect_map_ok _ _ _ Hsel).
  destruct (Z.eqb_spec w 0) as [-> | Hnz].
  - eexists. exists (mk_point cv 0 0 0). split; [reflexivity|].
    assert (Hz : Forall (fun x => x = 0) (map (fun _ : Z => 0) (zrange (3 * get_p_words cv)))).
    { apply Forall_forall. intros x Hx. apply in_map_iff in Hx.
      now destruct Hx as (? & <- & _). }
    pose proof (cv_p_ge_2 cv embed laws) as Hp2.
    split; [|split].
    + unfold valid, in_field. cbn. repeat split; lia.
    + unfold denote, affine_of. cbn [mk_point m_curve m_coord_z].
      rewrite Z.mod_0_l by lia. rewrite Z.eqb_refl, zmul_0. apply laws.
    + cbv zeta.
      rewrite !eval_words_zero;
        auto using Forall_zero_firstn, Forall_zero_skipn.
  - destruct (Hentry w Hw) as (_ & Hv & Hd).
    eexists. exists (nth (Z.to_nat w) U d). split; [reflexivity|].
    split; [exact Hv|]. split; [exact Hd|].
    cbv zeta.
    replace (3 * get_p_words cv) with (Z.of_nat (length (jw (nth (Z.to_nat w) U d))))
      by (subst jw; rewrite length_jacobian_words; lia).
    rewrite map_nth_zrange.
    apply (jacobian_words_decode _ Hv).
Qed.

End VarMulFacts.

Section VarLoopFacts.

Context {PA : PointArith} {G : Type} {AG : AbGroup G}.
Variable cv : CurveGFp.
Variable embed : option (Z * Z) -> G.
Hypothesis laws : PointArithLaws cv embed.
Variable g : G.
Variable E : PointGFp_Var_Point_Precompute.
Hypothesis HE : var_engine_spec cv embed g E.

(** Selecting the digit of a window and adding it. *)
Lemma var_window_ok (s window : Z) (R : PointGFp) :
  0 <= s -> 0 <= window -> valid cv R ->
  exists e,
    var_select (m_T E) (3 * var_m_p_words E) (Z.shiftl 1 (m_window_bits E))
               (BigInt.get_substring s (window * m_window_bits E) (m_window_bits E)) = Ok e /\
    valid cv (var_add_selected E R e) /\
    denote embed (var_add_selected E R e) =
    gadd (denote embed R) (zmul ((s / 16 ^ window) mod 16) g).
Proof.
  intros Hs Hw HR.
  assert (Hwb : m_window_bits E = 4) by apply HE.
  rewrite Hwb.
  assert (Hdigit : BigInt.get_substring s (window * 4) 4 = (s / 16 ^ window) mod 16).
  { rewrite get_substring_spec by lia. rewrite Z.abs_eq by lia.
    rewrite (Z.mul_comm window 4), pow16 by lia. reflexivity. }
  rewrite Hdigit.
  pose proof (window_digit_range s 16 window ltac:(lia)) as Hrange.
  destruct (var_select_ok cv embed laws g E HE _ Hrange) as (e & Q & He & HvQ & HdQ & Hdec).
  rewrite Hwb in He. exists e. split; [exact He|].
  unfold var_add_selected. cbv zeta in Hdec.
  set (n := Z.to_nat (var_m_p_words E)) in *.
  destruct (law_add cv embed laws R (firstn n e) (firstn n (skipn n e))
                    (firstn n (skipn (2 * n) e)) HR) as [Hv Ha].
  - rewrite Hdec. exact HvQ.
  - split; [exact Hv|]. unfold denote in *. rewrite Ha, Hdec, HdQ. reflexivity.
Qed.

(** The remaining windows, Horner fashion: four doublings, then the
    digit. *)
Lemma var_mul_loop_ok (s : Z) :
  0 <= s ->
  forall (n : nat) (windows : Z) (R : PointGFp),
    windows = Z.of_nat n ->
    valid cv R ->
    denote embed R = zmul (s / 16 ^ windows) g ->
    exists R',
      var_mul_loop E s n windows R = Ok R' /\
      valid cv R' /\ denote embed R' = zmul s g.
Proof.
  intros Hs. induction n as [|n IH]; intros windows R Hw HR Hd.
  - exists R. cbn [var_mul_loop]. split; [reflexivity|]. split; [assumption|].
    rewrite Hd. subst windows. cbn [Z.of_nat]. now rewrite Z.pow_0_r, Z.div_1_r.
  - cbn [var_mul_loop]. cbv zeta.
    assert (Hwb : m_window_bits E = 4) by apply HE.
    destruct (mult2i_ok cv embed laws (m_window_bits E) R ltac:(lia) HR) as [Hv2 Hd2].
    destruct (var_window_ok s (windows - 1) _ Hs ltac:(lia) Hv2) as (e & He & Hv & Hda).
    rewrite He. cbn [bind].
    apply IH; [lia | exact Hv |].
    rewrite Hda, Hd2, Hd, Hwb.
    assert (Hp : 0 < 16 ^ (windows - 1)) by (apply Z.pow_pos_nonneg; lia).
    assert (Hq : 0 <= s / 16 ^ windows) by (apply Z.div_pos; [lia | apply Z.pow_pos_nonneg; lia]).
    pose proof (window_digit_range s 16 (windows - 1) ltac:(lia)) as Hrange.
    rewrite <- zmul_mul by lia. rewrite zmul_sum by lia.
    f_equal.
    change (2 ^ 4) with 16.
    replace (16 ^ windows) with (16 ^ (windows - 1) * 16).
    + rewrite <- Z.div_div by lia.
      pose proof (Z.div_mod (s / 16 ^ (windows - 1)) 16 ltac:(lia)). lia.
    + rewrite Z.mul_comm, <- Z.pow_succ_r by lia. f_equal. lia.
Qed.

Lemma var_mul_scalar_digits (s : Z) :
  0 <= s ->
  let windows := round_up (BigInt.bits s) 4 / 4 in
  0 <= windows /\ s / 16 ^ windows = 0.
Proof.
  intros Hs windows.
  destruct (windows_cover s 4 ltac:(lia) Hs) as (Hw0 & _ & Hlt).
  fold windows in Hw0, Hlt. split; [assumption|].
  rewrite pow16 in Hlt by assumption. apply Z.div_small. lia.
Qed.

Lemma var_mul_ok (k n : Z) (rng : RandomNumberGenerator) :
  0 <= k -> 0 <= n -> zmul n g = gzero ->
  exists R rng',
    var_mul E k rng n = (Ok R, rng') /\ valid cv R /\ denote embed R = zmul k g.
Proof.
  intros Hk Hn Ho. unfold var_mul, BigInt.is_negative.
  destruct (Z.ltb_spec k 0); [lia|].
  pose proof (random_bits_range rng (blinding_size n) false) as Hm.
  destruct (random_bits rng (blinding_size n) false) as [mask rng1]. cbn [fst] in Hm.
  cbv zeta.
  assert (Hc : var_m_curve E = cv) by apply HE.
  assert (Hwb : m_window_bits E = 4) by apply HE.
  rewrite Hc, Hwb.
  set (s := k + n * mask).
  assert (Hs : 0 <= s) by (subst s; nia).
  assert (Hz : zmul s g = zmul k g) by (subst s; apply zmul_order; lia || assumption).
  destruct (var_mul_scalar_digits s Hs) as [Hw0 Htop].
  set (windows := round_up (BigInt.bits s) 4 / 4) in *.
  destruct (Z.ltb_spec 0 windows) as [Hpos | Hzero].
  - destruct (var_window_ok s (windows - 1) (zero_point cv) Hs ltac:(lia)
                            (valid_zero_point cv embed laws))
      as (e & He & Hv & Hda).
    rewrite Hwb in He. rewrite He.
    pose proof (randomize_repr_ok cv embed laws _ rng1 Hv) as [Hv' Ha'].
    destruct (randomize_repr (var_add_selected E (zero_point cv) e) rng1) as [R1 rng2].
    cbn [fst] in *.
    destruct (var_mul_loop_ok s Hs (Z.to_nat (windows - 1)) (windows - 1) R1
                              ltac:(lia) Hv') as (R' & HR' & HvR' & HdR').
    + unfold denote in *. rewrite Ha', Hda.
      rewrite (denote_zero_point cv embed laws) at 1.
      replace (embed (affine_of (zero_point cv))) with (gzero : G)
        by (symmetry; apply (denote_zero_point cv embed laws)).
      rewrite gadd_0_l. f_equal.
      apply Z.mod_small. split.
      * apply Z.div_pos; [lia | apply Z.pow_pos_nonneg; lia].
      * apply Z.div_lt_upper_bound; [apply Z.pow_pos_nonneg; lia|].
        rewrite Z.mul_comm, <- Z.pow_succ_r by lia.
        replace (Z.succ (windows - 1)) with windows by lia.
        assert (0 < 16 ^ windows) by (apply Z.pow_pos_nonneg; lia).
        destruct (Z_lt_le_dec s (16 ^ windows)); [assumption|].
        assert (1 <= s / 16 ^ windows) by (apply Z.div_le_lower_bound; lia). lia.
    + exists R', rng2. rewrite HR'. split; [reflexivity|].
      split; [exact HvR'|]. now rewrite HdR'.
  - exists (zero_point cv), rng1. split; [reflexivity|].
    split; [apply laws|].
    rewrite (denote_zero_point cv embed laws), <- Hz.
    assert (windows = 0) by lia.
    rewrite H0 in Htop. rewrite Z.pow_0_r, Z.div_1_r in Htop. now rewrite Htop.
Qed.

End VarLoopFacts.

(** ** The multi-scalar engine on scalars' magnitudes *)

Section MultiFacts.

Context {PA : PointArith} {G : Type} {AG : AbGroup G}.
Variable cv : CurveGFp.
Variable embed : option (Z * Z) -> G.
Hypothesis laws : PointArithLaws cv embed.

Lemma nmul_gadd (n : nat) (a b : G) : nmul n (gadd a b) = gadd (nmul n a) (nmul n b).
Proof.
  induction n as [|n IH]; cbn [nmul]; [now rewrite gadd_0_l|].
  rewrite IH, !gadd_assoc. f_equal.
  rewrite <- !gadd_assoc. f_equal. apply gadd_comm.
Qed.

Lemma zmul_gadd (k : Z) (a b : G) : zmul k (gadd a b) = gadd (zmul k a) (zmul k b).
Proof. apply nmul_gadd. Qed.

Lemma add_affine_ok H Q :
  valid cv H -> valid cv Q -> m_coord_z Q = 1 ->
  exists R, add_affine H Q = (Ok tt, R) /\ valid cv R /\
            denote embed R = gadd (denote embed H) (denote embed Q).
Proof.
  intros HH HQ Hz. unfold add_affine.
  rewrite (valid_curve cv H HH), (valid_curve cv Q HQ), CurveGFp_eqb_refl. cbn [negb].
  eexists. split; [reflexivity|].
  assert (Hd : mk_point cv (BigInt.eval_words (BigInt.data (m_coord_x Q) (get_p_words cv)))
                        (BigInt.eval_words (BigInt.data (m_coord_y Q) (get_p_words cv))) 1 = Q).
  { destruct HQ as (Hc & Hx & Hy & _). unfold get_p_words.
    rewrite !eval_data by assumption.
    destruct Q; cbn in *. subst. reflexivity. }
  pose proof (law_add_affine cv embed laws H _ _ HH ltac:(rewrite Hd; exact HQ)) as [Hv He].
  split; [exact Hv|]. unfold denote. rewrite He, Hd. reflexivity.
Qed.

(** Construction on two points that pass the on-curve check. *)
Lemma multi_precompute_ok (x y : PointGFp) :
  valid cv x -> valid cv y ->
  on_the_curve x = true -> on_the_curve y = true ->
  exists E, multi_precompute x y = Ok E /\
            multi_engine_spec cv embed (denote embed x) (denote embed y) E.
Proof.
  intros Hx Hy Hox Hoy. unfold multi_precompute.
  rewrite Hox, Hoy. cbn [negb orb].
  set (gx := denote embed x). set (gy := denote embed y).
  destruct (mult2_ok cv embed laws x Hx) as [Hvx2 Hdx2]. fold gx in Hdx2.
  destruct (plus_ok cv embed laws _ _ Hvx2 Hx) as (x3 & Hx3 & Hvx3 & Hdx3).
  destruct (mult2_ok cv embed laws y Hy) as [Hvy2 Hdy2]. fold gy in Hdy2.
  destruct (plus_ok cv embed laws _ _ Hvy2 Hy) as (y3 & Hy3 & Hvy3 & Hdy3).
  destruct (plus_ok cv embed laws _ _ Hy Hx) as (yx & Hyx & Hvyx & Hdyx).
  destruct (plus_ok cv embed laws _ _ Hy Hvx2) as (yx2 & Hyx2 & Hvyx2 & Hdyx2).
  destruct (plus_ok cv embed laws _ _ Hy Hvx3) as (yx3 & Hyx3 & Hvyx3 & Hdyx3).
  destruct (plus_ok cv embed laws _ _ Hvy2 Hx) as (y2x & Hy2x & Hvy2x & Hdy2x).
  destruct (plus_ok cv embed laws _ _ Hvy2 Hvx2) as (y2x2 & Hy2x2 & Hvy2x2 & Hdy2x2).
  destruct (plus_ok cv embed laws _ _ Hvy2 Hvx3) as (y2x3 & Hy2x3 & Hvy2x3 & Hdy2x3).
  destruct (plus_ok cv embed laws _ _ Hvy3 Hx) as (y3x & Hy3x & Hvy3x & Hdy3x).
  destruct (plus_ok cv embed laws _ _ Hvy3 Hvx2) as (y3x2 & Hy3x2 & Hvy3x2 & Hdy3x2).
  destruct (plus_ok cv embed laws _ _ Hvy3 Hvx3) as (y3x3 & Hy3x3 & Hvy3x3 & Hdy3x3).
  cbv zeta.
  rewrite Hx3; cbn [bind]. rewrite Hy3; cbn [bind]. rewrite Hyx; cbn [bind].
  rewrite Hyx2; cbn [bind]. rewrite Hyx3; cbn [bind]. rewrite Hy2x; cbn [bind].
  rewrite Hy2x2; cbn [bind]. rewrite Hy2x3; cbn [bind]. rewrite Hy3x; cbn [bind].
  rewrite Hy3x2; cbn [bind]. rewrite Hy3x3; cbn [bind].
  fold gx in Hdx3, Hdyx, Hdy2x, Hdy3x. fold gy in Hdy3, Hdyx, Hdyx2, Hdyx3.
  rewrite Hdx2 in Hdx3, Hdyx2, Hdy2x2, Hdy3x2.
  rewrite <- (zmul_1 gx) in Hdx3 at 2. rewrite zmul_sum in Hdx3 by lia.
  rewrite Hdy2 in Hdy3, Hdy2x, Hdy2x2, Hdy2x3.
  rewrite <- (zmul_1 gy) in Hdy3 at 2. rewrite zmul_sum in Hdy3 by lia.
  rewrite Hdx3 in Hdyx3, Hdy2x3, Hdy3x3.
  rewrite Hdy3 in Hdy3x, Hdy3x2, Hdy3x3.
  set (M := [x; mult2 x; x3; y; yx; yx2; yx3; mult2 y; y2x; y2x2; y2x3; y3; y3x; y3x2; y3x3]).
  assert (HM : Forall2 (fun Q ab => valid cv Q /\
                          denote embed Q = gadd (zmul (fst ab) gx) (zmul (snd ab) gy))
                       M multi_multipliers).
  { subst M. unfold multi_multipliers.
    repeat (constructor; [split; [assumption|]; cbn [fst snd] |]); try constructor;
      rewrite ?zmul_0, ?zmul_1, ?gadd_0_l, ?gadd_0_r; fold gx; fold gy;
      try assumption; try reflexivity;
      match goal with
      | H : denote embed ?Q = _ |- denote embed ?Q = _ =>
          rewrite H; rewrite ?zmul_1; apply gadd_comm
      end. }
  eexists. split; [reflexivity|].
  unfold multi_engine_spec. cbn [m_M m_no_infinity].
  destruct (forallb (fun pt => negb (is_zero pt)) M) eqn:Hinf.
  - assert (Hin : Forall (fun P => valid cv P /\ is_zero P = false) M).
    { rewrite forallb_forall in Hinf. apply Forall_forall. intros Q HQ.
      split.
      - clear Hinf. revert Q HQ. apply Forall_forall.
        clear - HM. induction HM as [|? ? ? ? [Hv _]]; constructor; assumption.
      - specialize (Hinf Q HQ). now apply negb_true_iff in Hinf. }
    pose proof (law_force_all_affine cv embed laws M Hin) as Haff.
    clear Hin Hinf. revert HM. generalize multi_multipliers.
    induction Haff as [|Q Q' T T' (HvQ' & Hz1 & Ha) _ IH]; intros ms HF.
    + inversion HF. constructor.
    + inversion HF as [|? m ? ms' [_ Hd] HF']; subst. constructor.
      * split; [assumption|]. split; [|intros _; assumption].
        unfold denote in *. now rewrite Ha.
      * now apply IH.
  - clear Hinf. induction HM as [|? ? ? ? [Hv Hd]]; constructor; try assumption.
    split; [assumption|]. split; [assumption | discriminate].
Qed.

End MultiFacts.

Section MultiLoopFacts.

Context {PA : PointArith} {G : Type} {AG : AbGroup G}.
Variable cv : CurveGFp.
Variable embed : option (Z * Z) -> G.
Hypothesis laws : PointArithLaws cv embed.
Variables gx gy : G.
Variable E : PointGFp_Multi_Point_Precompute.
Hypothesis HE : multi_engine_spec cv embed gx gy E.

Lemma multi_entry (a b : Z) :
  0 <= a < 4 -> 0 <= b < 4 -> 4 * b + a <> 0 ->
  exists Q, nth_error (m_M E) (Z.to_nat (4 * b + a - 1)) = Some Q /\
            valid cv Q /\ denote embed Q = gadd (zmul a gx) (zmul b gy) /\
            (m_no_infinity E = true -> m_coord_z Q = 1).
Proof.
  intros Ha Hb Hnz.
  assert (Hm : nth_error multi_multipliers (Z.to_nat (4 * b + a - 1)) = Some (a, b)).
  { assert (a = 0 \/ a = 1 \/ a = 2 \/ a = 3) as [-> | [-> | [-> | ->]]] by lia;
      assert (b = 0 \/ b = 1 \/ b = 2 \/ b = 3) as [-> | [-> | [-> | ->]]] by lia;
      try reflexivity; lia. }
  destruct (Forall2_nth_error _ _ _ _ _ HE Hm) as (Q & HQ & Hv & Hd & Hz).
  exists Q. auto.
Qed.

(** One step: the accumulator gains [a] times the first point and [b]
    times the second, for the two-bit digits [a] and [b]. *)
Lemma multi_step_ok (H : PointGFp) (a b : Z) :
  valid cv H -> 0 <= a < 4 -> 0 <= b < 4 ->
  exists H',
    (if 4 * b + a =? 0 then Ok H
     else
       e <- match nth_error (m_M E) (Z.to_nat (4 * b + a - 1)) with
            | Some e => Ok e
            | None => Fail Out_Of_Bounds
            end ;;
       match (if m_no_infinity E then add_affine H e else add H e) with
       | (Ok _, H') => Ok H'
       | (Fail f, _) => Fail f
       end) = Ok H' /\
    valid cv H' /\
    denote embed H' = gadd (denote embed H) (gadd (zmul a gx) (zmul b gy)).
Proof.
  intros HH Ha Hb.
  destruct (Z.eqb_spec (4 * b + a) 0) as [Hz | Hnz].
  - exists H. split; [reflexivity|]. split; [assumption|].
    assert (a = 0) by lia. assert (b = 0) by lia. subst.
    now rewrite !zmul_0, !gadd_0_r.
  - destruct (multi_entry a b Ha Hb Hnz) as (Q & HQ & Hv & Hd & Hz).
    rewrite HQ. cbn [bind].
    destruct (m_no_infinity E).
    + destruct (add_affine_ok cv embed laws H Q HH Hv (Hz eq_refl)) as (R & HR & HvR & HdR).
      exists R. rewrite HR. split; [reflexivity|]. split; [assumption|].
      now rewrite HdR, Hd.
    + destruct (add_ok cv embed laws H Q HH Hv) as (R & HR & HvR & HdR).
      exists R. rewrite HR. split; [reflexivity|]. split; [assumption|].
      now rewrite HdR, Hd.
Qed.

Lemma digit4 (z offset : Z) :
  0 <= offset ->
  BigInt.get_substring z (2 * offset) 2 = (Z.abs z / 4 ^ offset) mod 4.
Proof.
  intros Ho. rewrite get_substring_spec by lia.
  rewrite Z.pow_mul_r by lia. reflexivity.
Qed.

Lemma horner4 (m n : Z) : 0 <= m -> 0 <= n -> 4 * (m / 4 ^ (n + 1)) + (m / 4 ^ n) mod 4 = m / 4 ^ n.
Proof.
  intros Hm Hn.
  assert (0 < 4 ^ n) by (apply Z.pow_pos_nonneg; lia).
  rewrite Z.pow_add_r, Z.pow_1_r by lia.
  rewrite <- Z.div_div by lia.
  pose proof (Z.div_mod (m / 4 ^ n) 4 ltac:(lia)). lia.
Qed.

(** The loop, two bits of each scalar at a time, most significant first. *)
Lemma multi_exp_loop_ok (z1 z2 : Z) (W : Z) :
  0 <= W ->
  forall (n : nat) (i : Z) (H : PointGFp),
    i = 2 * (W - Z.of_nat n) -> Z.of_nat n <= W ->
    valid cv H ->
    denote embed H = gadd (zmul (Z.abs z1 / 4 ^ Z.of_nat n) gx)
                          (zmul (Z.abs z2 / 4 ^ Z.of_nat n) gy) ->
    (i = 0 -> denote embed H = gzero) ->
    exists H',
      multi_exp_loop E z1 z2 (2 * W) n i H = Ok H' /\
      valid cv H' /\
      denote embed H' = gadd (zmul (Z.abs z1) gx) (zmul (Z.abs z2) gy).
Proof.
  intros HW. induction n as [|n IH]; intros i H Hi Hn HH Hd H0.
  - exists H. cbn [multi_exp_loop]. split; [reflexivity|]. split; [assumption|].
    rewrite Hd. cbn [Z.of_nat]. now rewrite Z.pow_0_r, !Z.div_1_r.
  - cbn [multi_exp_loop]. cbv zeta.
    assert (Hoff : 2 * W - i - 2 = 2 * Z.of_nat n) by lia.
    rewrite Hoff, !digit4 by lia.
    set (m1 := Z.abs z1) in *. set (m2 := Z.abs z2) in *.
    assert (Hm1 : 0 <= m1) by (subst m1; lia).
    assert (Hm2 : 0 <= m2) by (subst m2; lia).
    pose proof (window_digit_range m1 4 (Z.of_nat n) ltac:(lia)) as Hr1.
    pose proof (window_digit_range m2 4 (Z.of_nat n) ltac:(lia)) as Hr2.
    assert (Hdbl : valid cv (if 0 <? i then mult2i 2 H else H) /\
                   denote embed (if 0 <? i then mult2i 2 H else H) = zmul 4 (denote embed H)).
    { destruct (Z.ltb_spec 0 i).
      - destruct (mult2i_ok cv embed laws 2 H ltac:(lia) HH) as [Hv Hd2]. auto.
      - split; [assumption|]. rewrite (H0 ltac:(lia)). now rewrite zmul_gzero. }
    destruct Hdbl as [Hvd Hdd].
    destruct (multi_step_ok _ _ _ Hvd Hr1 Hr2) as (H' & HH' & HvH' & HdH').
    rewrite HH'. cbn [bind].
    apply IH; try lia; try assumption.
    rewrite HdH', Hdd, Hd.
    rewrite zmul_gadd.
    assert (Hq1 : 0 <= m1 / 4 ^ Z.of_nat (S n))
      by (apply Z.div_pos; [lia | apply Z.pow_pos_nonneg; lia]).
    assert (Hq2 : 0 <= m2 / 4 ^ Z.of_nat (S n))
      by (apply Z.div_pos; [lia | apply Z.pow_pos_nonneg; lia]).
    rewrite <- !zmul_mul by lia.
    assert (Hsplit : forall m (g : G), 0 <= m ->
               zmul (m / 4 ^ Z.of_nat n) g =
               gadd (zmul (4 * (m / 4 ^ Z.of_nat (S n))) g)
                    (zmul ((m / 4 ^ Z.of_nat n) mod 4) g)).
    { intros m g Hm.
      assert (0 <= m / 4 ^ Z.of_nat (S n))
        by (apply Z.div_pos; [lia | apply Z.pow_pos_nonneg; lia]).
      pose proof (window_digit_range m 4 (Z.of_nat n) ltac:(lia)).
      rewrite zmul_sum by lia. f_equal.
      replace (Z.of_nat (S n)) with (Z.of_nat n + 1) by lia.
      symmetry. apply horner4; lia. }
    rewrite (Hsplit m1 gx Hm1), (Hsplit m2 gy Hm2).
    rewrite <- !gadd_assoc. f_equal.
    rewrite !gadd_assoc. f_equal. apply gadd_comm.
Qed.

(** What [multi_exp] computes: the sum for the magnitudes of the two
    scalars, negated when their signs differ. *)
Lemma multi_exp_magnitudes (z1 z2 : Z) :
  exists H,
    multi_exp E z1 z2 =
      Ok (if negb (Bool.eqb (BigInt.is_negative z1) (BigInt.is_negative z2))
          then negate H else H) /\
    valid cv H /\
    denote embed H = gadd (zmul (Z.abs z1) gx) (zmul (Z.abs z2) gy).
Proof.
  unfold multi_exp.
  pose proof (Forall2_length HE) as Hlen. change (length multi_multipliers) with 15%nat in Hlen.
  destruct (m_M E) as [|M0 rest] eqn:HM; [discriminate|].
  rewrite Hlen. change (Z.of_nat 15 =? 1) with false. cbv iota.
  assert (HvM0 : valid cv M0).
  { unfold multi_engine_spec in HE. rewrite HM in HE. inversion HE as [|? ? ? ? [Hv _]]. exact Hv. }
  set (b := Z.max (BigInt.bits z1) (BigInt.bits z2)).
  assert (Hb : 0 <= b) by (subst b; pose proof (bits_nonneg z1); lia).
  destruct (round_up_spec b 2 ltac:(lia) Hb) as [Hr He].
  set (zb := round_up b 2) in *.
  set (W := zb / 2) in *.
  assert (HW : 0 <= W) by lia.
  assert (Hcover : forall z, BigInt.bits z <= b -> Z.abs z / 4 ^ W = 0).
  { intros z Hz. apply Z.div_small. split; [lia|].
    pose proof (bits_lt_pow (Z.abs z) ltac:(lia)) as Hlt. rewrite bits_abs in Hlt.
    apply Z.lt_le_trans with (2 ^ BigInt.bits z); [assumption|].
    change (4 ^ W) with ((2 ^ 2) ^ W). rewrite <- (Z.pow_mul_r 2 2 W) by lia.
    apply Z.pow_le_mono_r; lia. }
  assert (Hz0 : denote embed (zero M0) = gzero).
  { unfold zero. rewrite (valid_curve cv M0 HvM0). apply (denote_zero_point cv embed laws). }
  destruct (multi_exp_loop_ok z1 z2 W HW (Z.to_nat W) 0 (zero M0)) as (H & HH & HvH & HdH).
  - lia.
  - lia.
  - unfold zero. rewrite (valid_curve cv M0 HvM0). apply laws.
  - rewrite Z2Nat.id by lia.
    rewrite (Hcover z1), (Hcover z2) by (subst b; lia).
    now rewrite Hz0, !zmul_0, gadd_0_l.
  - intros _. exact Hz0.
  - exists H. fold W in He.
    replace (multi_exp_loop E z1 z2 zb (Z.to_nat W) 0 (zero M0))
      with (multi_exp_loop E z1 z2 (2 * W) (Z.to_nat W) 0 (zero M0))
      by (now rewrite <- He).
    rewrite HH. cbn [bind]. auto.
Qed.

End MultiLoopFacts.

Section MultiCorrect.

Context {PA : PointArith} {G : Type} {AG : AbGroup G}.
Variable cv : CurveGFp.
Variable embed : option (Z * Z) -> G.
Hypothesis laws : PointArithLaws cv embed.

(** X14: on two points that pass the on-curve check, [multi_exponentiate]
    never fails and returns a point of the curve: the sum |z1| x + |z2| y
    of repeated additions, negated when the signs of the scalars differ;
    for non-negative scalars that is z1 x + z2 y. *)
Lemma multi_exponentiate_sign_magnitude (x y : PointGFp) (z1 z2 : Z) :
  valid cv x -> valid cv y ->
  on_the_curve x = true -> on_the_curve y = true ->
  exists H A B Q,
    multi_exponentiate x z1 y z2 =
      Ok (if negb (Bool.eqb (BigInt.is_negative z1) (BigInt.is_negative z2))
          then negate H else H) /\
    repeated_add (Z.to_nat (Z.abs z1)) x = Ok A /\
    repeated_add (Z.to_nat (Z.abs z2)) y = Ok B /\
    plus A B = Ok Q /\
    valid cv H /\ point_equal H Q.
Proof.
  intros Hx Hy Hox Hoy.
  destruct (multi_precompute_ok cv embed laws x y Hx Hy Hox Hoy) as (E & HE & Hspec).
  destruct (multi_exp_magnitudes cv embed laws _ _ E Hspec z1 z2) as (H & HH & HvH & HdH).
  destruct (repeated_add_ok cv embed laws (Z.to_nat (Z.abs z1)) x Hx) as (A & HA & HvA & HdA).
  destruct (repeated_add_ok cv embed laws (Z.to_nat (Z.abs z2)) y Hy) as (B & HB & HvB & HdB).
  destruct (plus_ok cv embed laws A B HvA HvB) as (Q & HQ & HvQ & HdQ).
  exists H, A, B, Q.
  unfold multi_exponentiate. rewrite HE. cbn [bind].
  repeat (split; [assumption|]).
  apply (denote_point_equal cv embed laws); try assumption.
  rewrite HdH, HdQ, HdA, HdB. reflexivity.
Qed.

End MultiCorrect.

(** ** The reference arithmetic meets the contract on the small curve *)

Section SmallCurveLaws.

Import Reference Small.

Lemma prime_7 : Z.prime 7.
Proof.
  split; [lia|]. intros n Hn [q Hq].
  assert (n = 2 \/ n = 3 \/ n = 4 \/ n = 5 \/ n = 6) as Hcases by lia.
  repeat (destruct Hcases as [-> | Hcases]; [lia|]). subst. lia.
Qed.

Lemma CurveGFp_eqb_eq c1 c2 : CurveGFp_eqb c1 c2 = true -> c1 = c2.
Proof.
  unfold CurveGFp_eqb. rewrite !andb_true_iff, !Z.eqb_eq.
  destruct c1, c2; cbn. intros [[-> ->] ->]. reflexivity.
Qed.

Lemma validb_iff P : validb P = true <-> valid curve P.
Proof.
  unfold validb, valid, in_field. change (get_p curve) with 7.
  rewrite !andb_true_iff, orb_true_iff, !andb_true_iff, negb_true_iff,
    !Z.leb_le, !Z.ltb_lt, !Z.eqb_eq, Z.eqb_neq.
  split.
  - intros ((((Hc & Hx) & Hy) & Hz) & Hcase).
    apply CurveGFp_eqb_eq in Hc. tauto.
  - intros (Hc & Hx & Hy & Hz & Hcase). rewrite Hc, CurveGFp_eqb_refl. tauto.
Qed.

Lemma valid_in_points P : valid curve P -> In P valid_points.
Proof.
  intros HP. unfold valid_points. apply filter_In. split; [|now apply validb_iff].
  destruct HP as (Hc & Hx & Hy & Hz & _). unfold in_field in *.
  destruct P as [c x y z]. cbn [m_curve m_coord_x m_coord_y m_coord_z] in *. subst c.
  unfold all_triples, field_elements.
  apply in_flat_map. exists x. split; [now apply in_zrange|].
  apply in_flat_map. exists y. split; [now apply in_zrange|].
  apply in_map_iff. exists z. split; [reflexivity | now apply in_zrange].
Qed.

Lemma logged_in P : valid curve P -> In (P, (affine_of P, dlog P)) logged_points.
Proof.
  intros HP. unfold logged_points. apply in_map_iff.
  exists P. split; [reflexivity | now apply valid_in_points].
Qed.

Lemma check_pairs_sound check :
  check_pairs check = true ->
  forall P Q, valid curve P -> valid curve Q ->
              check (P, (affine_of P, dlog P)) (Q, (affine_of Q, dlog Q)) = true.
Proof.
  unfold check_pairs. intros H P Q HP HQ.
  rewrite forallb_forall in H. specialize (H _ (logged_in P HP)).
  rewrite forallb_forall in H. exact (H _ (logged_in Q HQ)).
Qed.

Lemma check_points_sound (check : PointGFp -> bool) :
  forallb check valid_points = true ->
  forall P, valid curve P -> check P = true.
Proof.
  intros H P HP. rewrite forallb_forall in H. apply H. now apply valid_in_points.
Qed.

Lemma affine_eqb_eq a b : affine_eqb a b = true -> a = b.
Proof.
  destruct a as [[x y]|], b as [[u v]|]; cbn; try discriminate; try reflexivity.
  rewrite andb_true_iff, !Z.eqb_eq. intros [-> ->]. reflexivity.
Qed.

Lemma embed_sum P Q R :
  dlog R mod order = (dlog P + dlog Q) mod order ->
  embed (affine_of R) = gadd (embed (affine_of P)) (embed (affine_of Q)).
Proof.
  intros H. unfold embed. cbn [gadd Zmod_group].
  rewrite <- Zmod.of_Z_add. apply Zmod.of_Z_inj. exact H.
Qed.

Lemma checks_hold :
  check_pairs check_inj = true /\
  check_pairs check_add = true /\
  check_pairs check_add_affine = true /\
  forallb check_mult2 valid_points = true /\
  forallb check_force_affine valid_points = true.
Proof. vm_compute. repeat split; reflexivity. Qed.

Lemma small_laws : PointArithLaws (PA := ref_arith) curve embed.
Proof.
  destruct checks_hold as (Hinj & Hadd & Haff & Hdbl & Hforce).
  constructor.
  - exact prime_7.
  - unfold embed. cbn [dlog_affine]. apply Zmod.of_Z_0.
  - intros P Q HP HQ He.
    pose proof (check_pairs_sound _ Hinj P Q HP HQ) as Hc.
    unfold check_inj in Hc. cbn [fst snd] in Hc.
    unfold embed in He. apply Zmod.of_Z_inj in He.
    fold (dlog P) in He. fold (dlog Q) in He.
    rewrite He, Z.eqb_refl in Hc. cbn [implb] in Hc. now apply affine_eqb_eq.
  - split; [apply validb_iff|]; reflexivity.
  - intros P xs ys zs HP HQ.
    pose proof (check_pairs_sound _ Hadd P _ HP HQ) as Hc.
    unfold check_add in Hc. cbn [fst snd mk_point m_coord_x m_coord_y m_coord_z] in Hc.
    apply andb_true_iff in Hc. destruct Hc as [Hv Hl].
    split; [apply validb_iff; exact Hv|].
    apply embed_sum. apply Z.eqb_eq. exact Hl.
  - intros P xs ys HP HQ.
    pose proof (check_pairs_sound _ Haff P _ HP HQ) as Hc.
    unfold check_add_affine in Hc.
    cbn [fst snd mk_point m_coord_x m_coord_y m_coord_z Z.eqb Pos.eqb] in Hc.
    apply andb_true_iff in Hc. destruct Hc as [Hv Hl].
    split; [apply validb_iff; exact Hv|].
    apply embed_sum. apply Z.eqb_eq. exact Hl.
  - intros P xs ys HP Hx Hy.
    cbn [add_affine_words ref_arith]. unfold ref_add_affine_words, ref_add_affine_coords.
    rewrite Hx, Hy. cbn [Z.eqb andb]. auto.
  - intros P HP.
    pose proof (check_points_sound _ Hdbl P HP) as Hc.
    unfold check_mult2 in Hc. apply andb_true_iff in Hc. destruct Hc as [Hv Hl].
    split; [apply validb_iff; exact Hv|].
    apply embed_sum. apply Z.eqb_eq. exact Hl.
  - intros T HT. cbn [force_all_affine ref_arith].
    induction HT as [|P T [HP Hnz] _ IH]; cbn [map]; constructor; [|exact IH].
    pose proof (check_points_sound _ Hforce P HP) as Hc.
    unfold check_force_affine in Hc. rewrite Hnz in Hc.
    rewrite !andb_true_iff in Hc. destruct Hc as [[Hv Hz] Ha].
    split; [apply validb_iff; exact Hv|].
    split; [now apply Z.eqb_eq | now apply affine_eqb_eq].
Qed.

End SmallCurveLaws.

(** ** Claims that rest on the arithmetic contract *)

Section ContractClaims.

Context {PA : PointArith} {G : Type} {AG : AbGroup G}.
Variable cv : CurveGFp.
Variable embed : option (Z * Z) -> G.
Hypothesis laws : PointArithLaws cv embed.

Lemma affine_none_is_zero P : valid cv P -> affine_of P = None -> is_zero P = true.
Proof.
  intros HP Ha. destruct (is_zero P) eqn:Hz; [reflexivity|].
  exfalso. now apply (affine_of_nonzero cv P HP Hz).
Qed.

Lemma denote_gzero_affine P : valid cv P -> denote embed P = gzero -> affine_of P = None.
Proof.
  intros HP Hd.
  rewrite <- (denote_zero_point cv embed laws) in Hd.
  rewrite (law_embed_inj cv embed laws P (zero_point cv) HP (valid_zero_point cv embed laws) Hd).
  apply (affine_of_zero cv embed laws); apply laws.
Qed.








(** C1, as amended: when group_order times P is the identity, the
    fixed-base engine was built with the reducer of that group_order,
    group_order is at most one bit longer than p and no point of the
    fixed-base table is the identity, both [mul]s return, for every k >= 0
    and every state of the generators, a point equal to k applications of
    [+ P] to the identity; so they agree with each other, give the
    identity for k = 0 and k = group_order, and P for k = 1. *)
Theorem C1_mul_agrees_with_repeated_addition
        (P : PointGFp) (k group_order : Z)
        (rng_ctor rng_base rng_var : RandomNumberGenerator) :
  valid cv P -> 0 <= k -> 0 < group_order ->
  (exists O, repeated_add (Z.to_nat group_order) P = Ok O /\ is_zero O = true) ->
  BigInt.bits group_order <= BigInt.bits (get_p cv) + 1 ->
  (forall T,
      base_table_loop (Z.to_nat (base_T_bits P {| get_modulus := group_order |})) P [] = Ok T ->
      Forall (fun Q => is_zero Q = false) T) ->
  exists Eb Ev rng1 Rb rngb Rv rngv Q,
    base_precompute P {| get_modulus := group_order |} = Ok Eb /\
    var_precompute P rng_ctor = (Ok Ev, rng1) /\
    base_mul Eb k rng_base group_order = (Ok Rb, rngb) /\
    var_mul Ev k rng_var group_order = (Ok Rv, rngv) /\
    repeated_add (Z.to_nat k) P = Ok Q /\
    point_equal Rb Q /\ point_equal Rv Q /\ point_equal Rb Rv /\
    (k = 0 \/ k = group_order -> is_zero Rb = true /\ is_zero Rv = true) /\
    (k = 1 -> point_equal Rb P /\ point_equal Rv P).
Proof.
  intros HP Hk Hn (O & HO & HzO) Hbits Hnz.
  destruct (repeated_add_ok cv embed laws (Z.to_nat group_order) P HP) as (O' & HO' & HvO & HdO).
  rewrite HO in HO'. injection HO' as <-.
  assert (Horder : zmul group_order (denote embed P) = gzero).
  { unfold zmul. rewrite <- HdO. now apply (denote_identity cv embed laws). }
  destruct (base_mul_correct cv embed laws P k group_order rng_base HP Hk Hn Horder Hbits Hnz)
    as (Eb & Rb & rngb & HEb & HRb & HvRb & HdRb).
  destruct (var_precompute_ok cv embed laws P rng_ctor HP) as (Ev & rng1 & HEv & Hspec).
  destruct (var_mul_ok cv embed laws _ Ev Hspec k group_order rng_var Hk ltac:(lia) Horder)
    as (Rv & rngv & HRv & HvRv & HdRv).
  destruct (repeated_add_ok cv embed laws (Z.to_nat k) P HP) as (S & HS & HvS & HdS).
  exists Eb, Ev, rng1, Rb, rngb, Rv, rngv, S.
  repeat (split; [assumption|]).
  assert (HbS : point_equal Rb S).
  { apply (denote_point_equal cv embed laws); try assumption. now rewrite HdRb, HdS. }
  assert (HvS' : point_equal Rv S).
  { apply (denote_point_equal cv embed laws); try assumption. now rewrite HdRv, HdS. }
  split; [exact HbS|]. split; [exact HvS'|].
  split; [apply (denote_point_equal cv embed laws); try assumption; now rewrite HdRb, HdRv|].
  split.
  - intros Hcase.
    assert (Hz : zmul k (denote embed P) = gzero).
    { destruct Hcase as [-> | ->]; [apply zmul_0 | exact Horder]. }
    split; apply affine_none_is_zero; try assumption;
      apply denote_gzero_affine; try assumption; congruence.
  - intros ->. rewrite zmul_1 in HdRb, HdRv.
    split; apply (denote_point_equal cv embed laws); assumption.
Qed.

End ContractClaims.

(** ** The engines run on the small curve *)

Section SmallCurveRuns.

Import Reference Small.

Lemma generator_valid : valid curve generator.
Proof. apply validb_iff. reflexivity. Qed.

(** C1, the claim as stated fails: the generator (2, 3) is a point of the
    curve, of order 9, and group_order is 3, the order of the prime
    subgroup.  The variable-point [mul] of k = 0 then returns the point
    (5, 3) of order three for one state of the generator and the identity
    for another. *)
Lemma C1_mul_depends_on_rng_outside_the_subgroup :
  valid curve generator /\
  on_the_curve generator = true /\
  exists R1 R2,
    fst (var_mul var_engine 0 (constant_rng true 1) subgroup_order) = Ok R1 /\
    fst (var_mul var_engine 0 (constant_rng true 0) subgroup_order) = Ok R2 /\
    affine_of R1 = Some (5, 3) /\
    is_zero R2 = true /\
    ~ point_equal R1 R2.
Proof.
  split; [exact generator_valid|]. split; [reflexivity|].
  eexists. eexists.
  split; [vm_compute; reflexivity|].
  split; [vm_compute; reflexivity|].
  split; [reflexivity|]. split; [reflexivity|].
  intros [_ H]. vm_compute in H. discriminate.
Qed.


(** C2: on x = (2, 3) and y = (4, 6), with scalars of different signs the
    code returns -(x + y) = (5, 4) where the group value of (-1) x + 1 y is
    y - x = (2, 3), and with both scalars negative it returns
    x + y = (5, 3) where the group value is -(x + y) = (5, 4). *)
Theorem C2_multi_exp_negative_scalars :
  option_map affine_of (match multi_exponentiate generator (-1) second_point 1 with
                        | Ok R => Some R
                        | Fail _ => None
                        end) = Some (Some (5, 4)) /\
  option_map affine_of (match plus generator second_point with
                        | Ok R => Some (negate R)
                        | Fail _ => None
                        end) = Some (Some (5, 4)) /\
  option_map affine_of (match plus (negate generator) second_point with
                        | Ok R => Some R
                        | Fail _ => None
                        end) = Some (Some (2, 3)) /\
  option_map affine_of (match multi_exponentiate generator (-1) second_point (-1) with
                        | Ok R => Some R
                        | Fail _ => None
                        end) = Some (Some (5, 3)) /\
  option_map affine_of (match plus (negate generator) (negate second_point) with
                        | Ok R => Some R
                        | Fail _ => None
                        end) = Some (Some (5, 4)).
Proof. vm_compute. repeat split; reflexivity. Qed.

(** C5: an engine whose reducer has a 7-bit modulus over a 3-bit p
    precomputes 3 windows (42 words); a seeded [mul] blinds the scalar to
    10 bits, 4 windows; the assertion compares 4 with 42 / (3 * 2) = 7 and
    passes, and the loop reads [m_W] at index 42 and beyond. *)
Theorem C5_mul_reads_past_the_table :
  base_precompute generator {| get_modulus := 64 |} = Ok wide_engine /\
  base_T_bits generator {| get_modulus := 64 |} = 3 /\
  length (m_W wide_engine) = 42%nat /\
  fst (base_scalar (m_mod_order wide_engine) 0 64 (constant_rng true 15)) = 960 /\
  round_up (BigInt.bits 960) WINDOW_BITS / WINDOW_BITS = 4 /\
  Z.of_nat (length (m_W wide_engine)) / (3 * (2 * m_p_words wide_engine)) = 7 /\
  read (m_W wide_engine) (WINDOW_SIZE * 3 * (2 * m_p_words wide_engine)) = Fail Out_Of_Bounds /\
  fst (base_mul wide_engine 0 (constant_rng true 15) 64) = Fail Out_Of_Bounds.
Proof. vm_compute. repeat split; reflexivity. Qed.

(** *** Instances of the theorems that carry hypotheses *)

Lemma C1_mul_agrees_on_the_small_curve :
  valid curve generator /\ 0 <= 7 /\ 0 < 9 /\
  (exists O, repeated_add (Z.to_nat 9) generator = Ok O /\ is_zero O = true) /\
  BigInt.bits 9 <= BigInt.bits (get_p curve) + 1 /\
  (forall T,
      base_table_loop (Z.to_nat (base_T_bits generator {| get_modulus := 9 |}))
                      generator [] = Ok T ->
      Forall (fun Q => is_zero Q = false) T) /\
  exists Eb Ev rng1 Rb rngb Rv rngv Q,
    base_precompute generator {| get_modulus := 9 |} = Ok Eb /\
    var_precompute generator (constant_rng true 5) = (Ok Ev, rng1) /\
    base_mul Eb 7 (constant_rng true 13) 9 = (Ok Rb, rngb) /\
    var_mul Ev 7 (constant_rng false 3) 9 = (Ok Rv, rngv) /\
    repeated_add (Z.to_nat 7) generator = Ok Q /\
    point_equal Rb Q /\ point_equal Rv Q /\ point_equal Rb Rv /\
    (7 = 0 \/ 7 = 9 -> is_zero Rb = true /\ is_zero Rv = true) /\
    (7 = 1 -> point_equal Rb generator /\ point_equal Rv generator).
Proof.
  assert (H1 : valid curve generator) by exact generator_valid.
  assert (H2 : 0 <= 7) by lia.
  assert (H3 : 0 < 9) by lia.
  assert (H4 : exists O, repeated_add (Z.to_nat 9) generator = Ok O /\ is_zero O = true).
  { eexists. split; vm_compute; reflexivity. }
  assert (H5 : BigInt.bits 9 <= BigInt.bits (get_p curve) + 1) by (vm_compute; discriminate).
  assert (H6 : forall T,
             base_table_loop (Z.to_nat (base_T_bits generator {| get_modulus := 9 |}))
                             generator [] = Ok T ->
             Forall (fun Q => is_zero Q = false) T).
  { intros T H. vm_compute in H. injection H as <-. repeat constructor. }
  repeat (split; [assumption|]).
  exact (C1_mul_agrees_with_repeated_addition
           curve embed small_laws generator 7 9
           (constant_rng true 5) (constant_rng true 13) (constant_rng false 3)
           H1 H2 H3 H4 H5 H6).
Defined.


Lemma C3_seeded_scalar_on_the_small_curve :
  0 <= 7 /\
  get_modulus (m_mod_order base_engine) = 9 /\
  is_seeded (constant_rng true 13) = true /\
  (let mask := fst (random_bits (constant_rng true 13) (blinding_size 9) true) in
   let rng' := snd (random_bits (constant_rng true 13) (blinding_size 9) true) in
   base_mul base_engine 7 (constant_rng true 13) 9 =
     base_mul_scalar base_engine (7 mod 9 + mask * 9) rng' /\
   BigInt.bits mask = (BigInt.bits 9 + 1) / 2).
Proof.
  assert (H1 : 0 <= 7) by lia.
  assert (H2 : get_modulus (m_mod_order base_engine) = 9) by (vm_compute; reflexivity).
  assert (H3 : is_seeded (constant_rng true 13) = true) by reflexivity.
  repeat (split; [assumption|]).
  exact (C3_seeded_scalar_is_blinded base_engine 7 9 (constant_rng true 13) H1 H2 H3).
Defined.

Lemma C4_unseeded_scalar_on_the_small_curve :
  0 <= 7 /\ 0 < 9 /\
  get_modulus (m_mod_order base_engine) = 9 /\
  is_seeded (constant_rng false 0) = false /\
  exists copies scalar,
    (copies = 1 \/ copies = 2) /\
    scalar = reduce (m_mod_order base_engine) 7 + copies * 9 /\
    base_mul base_engine 7 (constant_rng false 0) 9 =
      base_mul_scalar base_engine scalar (constant_rng false 0) /\
    BigInt.bits scalar = BigInt.bits 9 + 1.
Proof.
  assert (H1 : 0 <= 7) by lia.
  assert (H2 : 0 < 9) by lia.
  assert (H3 : get_modulus (m_mod_order base_engine) = 9) by (vm_compute; reflexivity).
  assert (H4 : is_seeded (constant_rng false 0) = false) by reflexivity.
  repeat (split; [assumption|]).
  exact (C4_unseeded_scalar_is_padded base_engine 7 9 (constant_rng false 0) H1 H2 H3 H4).
Defined.

Lemma C6_multi_exp_off_curve_input :
  (on_the_curve (mk_point curve 1 1 1) = false \/ on_the_curve generator = false) /\
  is_zero (zero (mk_point curve 1 1 1)) = true /\
  exists E,
    multi_precompute (mk_point curve 1 1 1) generator = Ok E /\
    m_M E = [zero (mk_point curve 1 1 1)] /\
    multi_exp E 5 (-3) = Ok (zero (mk_point curve 1 1 1)) /\
    multi_exponentiate (mk_point curve 1 1 1) 5 generator (-3)
    = Ok (zero (mk_point curve 1 1 1)).
Proof.
  assert (H1 : on_the_curve (mk_point curve 1 1 1) = false \/ on_the_curve generator = false)
    by (left; reflexivity).
  assert (H2 : is_zero (zero (mk_point curve 1 1 1)) = true) by reflexivity.
  repeat (split; [assumption|]).
  exact (C6_multi_exp_fails_closed (mk_point curve 1 1 1) generator 5 (-3) H1 H2).
Defined.

Lemma C7_negative_scalar_on_the_small_curve :
  -3 < 0 /\
  base_mul base_engine (-3) (constant_rng true 13) 9 =
    (Fail (Invalid_Argument "PointGFp_Base_Point_Precompute scalar must be positive"),
     constant_rng true 13) /\
  var_mul var_engine (-3) (constant_rng true 13) 9 =
    (Fail (Invalid_Argument "PointGFp_Var_Point_Precompute scalar must be positive"),
     constant_rng true 13).
Proof.
  assert (H1 : -3 < 0) by lia.
  split; [assumption|].
  exact (C7_negative_scalar_is_rejected base_engine var_engine (-3) 9
                                        (constant_rng true 13) H1).
Defined.

Lemma C8_add_across_two_curves :
  ~ (get_p (m_curve generator) = get_p (m_curve (mk_point {| get_p := 7; get_a := 3; get_b := 4 |} 2 3 1)) /\
     get_a (m_curve generator) = get_a (m_curve (mk_point {| get_p := 7; get_a := 3; get_b := 4 |} 2 3 1)) /\
     get_b (m_curve generator) = get_b (m_curve (mk_point {| get_p := 7; get_a := 3; get_b := 4 |} 2 3 1))) /\
  add generator (mk_point {| get_p := 7; get_a := 3; get_b := 4 |} 2 3 1) =
    (Fail (Invalid_Argument "cannot add points on different curves"), generator).
Proof.
  assert (H1 : ~ (get_p (m_curve generator) = get_p (m_curve (mk_point {| get_p := 7; get_a := 3; get_b := 4 |} 2 3 1)) /\
     get_a (m_curve generator) = get_a (m_curve (mk_point {| get_p := 7; get_a := 3; get_b := 4 |} 2 3 1)) /\
     get_b (m_curve generator) = get_b (m_curve (mk_point {| get_p := 7; get_a := 3; get_b := 4 |} 2 3 1)))).
  { cbn. lia. }
  split; [assumption|].
  exact (C8_add_rejects_a_different_curve generator _ H1).
Defined.

End SmallCurveRuns.

(** * Further properties of the engines *)

(** ** Negation *)

Section NegateProperties.

Lemma curve_equation_negate (c : CurveGFp) (x y z : Z) :
  curve_equation c x (get_p c - y) z = curve_equation c x y z.
Proof.
  unfold curve_equation.
  set (rhs := x * x * x + get_a c * x * (z * z * z * z) + get_b c * (z * z * z * z * z * z)).
  replace ((get_p c - y) * (get_p c - y) - rhs)
    with (y * y - rhs + (get_p c - 2 * y) * get_p c) by ring.
  apply Z_mod_plus_full.
Qed.

(** X1: [negate] maps the represented affine point (x, y) to (x, -y mod p)
    and the identity to itself, and keeps the curve equation.  It keeps a
    well-formed point well formed unless Y = 0 on a point other than the
    identity: Y is then left at p, outside the reduced range. *)
Theorem negate_is_the_affine_inverse (P : PointGFp) :
  let p := get_p (m_curve P) in
  affine_of (negate P) =
    option_map (fun xy => (fst xy, (- snd xy) mod p)) (affine_of P) /\
  curve_equation (m_curve P) (m_coord_x (negate P)) (m_coord_y (negate P))
                 (m_coord_z (negate P))
  = curve_equation (m_curve P) (m_coord_x P) (m_coord_y P) (m_coord_z P) /\
  (forall cv, valid cv P -> is_zero P = true \/ m_coord_y P <> 0 -> valid cv (negate P)) /\
  (is_zero P = false -> m_coord_y P = 0 ->
   m_coord_y (negate P) = p /\ forall cv, ~ valid cv (negate P)).
Proof.
  intros p. unfold negate.
  destruct (is_zero P) eqn:Hz; cbn [negb].
  - split; [|split; [reflexivity|split]].
    + unfold affine_of, is_zero, BigInt.is_zero in *. apply Z.eqb_eq in Hz. rewrite Hz.
      fold p. rewrite Zmod_0_l. reflexivity.
    + auto.
    + discriminate.
  - split; [|split; [|split]].
    + unfold affine_of. cbn [m_curve m_coord_x m_coord_y m_coord_z]. fold p.
      destruct (m_coord_z P mod p =? 0); [reflexivity|].
      cbn [option_map fst snd]. f_equal. f_equal.
      set (c := Z.invmod (m_coord_z P) p * Z.invmod (m_coord_z P) p * Z.invmod (m_coord_z P) p).
      replace ((p - m_coord_y P) * c) with (- (m_coord_y P * c) + c * p) by ring.
      rewrite Z_mod_plus_full.
      rewrite <- (Z.sub_0_l (m_coord_y P * c)), <- (Z.sub_0_l ((m_coord_y P * c) mod p)).
      now rewrite Zminus_mod_idemp_r.
    + cbn [m_curve m_coord_x m_coord_y m_coord_z]. apply curve_equation_negate.
    + intros cv (Hc & Hx & Hy & Hzf & Hcase) [Hcontra | Hy0]; [discriminate|].
      unfold valid, in_field in *. cbn [m_curve m_coord_x m_coord_y m_coord_z].
      rewrite Hc in *.
      split; [reflexivity|]. split; [assumption|]. split; [lia|]. split; [assumption|].
      destruct Hcase as [?|[Hnz He]]; [left; assumption | right].
      split; [assumption|]. rewrite curve_equation_negate. exact He.
    + intros _ Hy0. cbn [m_coord_y]. rewrite Hy0. split; [lia|].
      intros cv (Hc & _ & Hy & _). unfold in_field in Hy.
      cbn [m_curve m_coord_y] in *. rewrite Hc in Hy. lia.
Qed.

End NegateProperties.

(** ** The scalar and the windows of the fixed-base [mul] *)

Section ScalarProperties.

Context {PA : PointArith}.

Lemma base_scalar_bounds (k n : Z) (rng : RandomNumberGenerator) :
  0 < n ->
  let s := fst (base_scalar {| get_modulus := n |} k n rng) in
  n <= s /\ BigInt.bits s <= BigInt.bits n + blinding_size n.
Proof.
  intros Hn s. subst s.
  pose proof (Z.mod_pos_bound k n Hn) as Hr.
  pose proof (blinding_size_nonneg n) as Hbs.
  assert (Hbs1 : 1 <= blinding_size n).
  { unfold blinding_size. destruct (bits_spec n Hn) as [Hb _].
    apply Z.div_le_lower_bound; lia. }
  unfold base_scalar, reduce. cbn [get_modulus].
  destruct (is_seeded rng).
  - pose proof (random_bits_range rng (blinding_size n) true) as Hm.
    pose proof (random_bits_high rng (blinding_size n)) as Hh.
    destruct (random_bits rng (blinding_size n) true) as [mask rng1]. cbn [fst] in *.
    rewrite Z.max_l in Hm, Hh by lia.
    destruct (blinded_scalar_bits n (k mod n) mask Hn Hr Hm) as [Hs Hb].
    split; [|exact Hb].
    assert (mask <> 0) by (intros ->; rewrite bits_0 in Hh; lia).
    nia.
  - pose proof (padded_bits n (k mod n) Hn Hr) as Hpad. cbn [fst].
    rewrite Hpad. split; [|lia].
    destruct (_ =? _); lia.
Qed.

(** X2: whatever the generator, the scalar the fixed-base window loop
    processes is congruent to k modulo group_order, is at least
    group_order, and is at most group_order.bits() + blinding_size bits
    long. *)
Theorem base_scalar_is_congruent_and_bounded (k n : Z) (rng : RandomNumberGenerator) :
  0 < n ->
  let s := fst (base_scalar {| get_modulus := n |} k n rng) in
  s mod n = k mod n /\ n <= s /\ BigInt.bits s <= BigInt.bits n + blinding_size n.
Proof.
  intros Hn s. split; [|exact (base_scalar_bounds k n rng Hn)].
  subst s. unfold base_scalar, reduce. cbn [get_modulus].
  destruct (is_seeded rng).
  - destruct (random_bits rng (blinding_size n) true) as [mask rng1]. cbn [fst].
    rewrite (Z.mul_comm n mask), Z_mod_plus_full. apply Z.mod_mod. lia.
  - cbn [fst]. destruct (_ =? _).
    + replace (k mod n + n + n) with (k mod n + 2 * n) by lia.
      rewrite Z_mod_plus_full. apply Z.mod_mod. lia.
    + replace (k mod n + n) with (k mod n + 1 * n) by lia.
      rewrite Z_mod_plus_full. apply Z.mod_mod. lia.
Qed.

Lemma top_window_nonzero (s : Z) :
  0 < s ->
  let windows := round_up (BigInt.bits s) WINDOW_BITS / WINDOW_BITS in
  0 < windows /\
  BigInt.get_substring s (WINDOW_BITS * (windows - 1)) WINDOW_BITS <> 0.
Proof.
  intros Hs windows.
  destruct (windows_cover s WINDOW_BITS ltac:(reflexivity) ltac:(lia)) as (Hw0 & Hw & Hlt).
  fold windows in Hw0, Hw, Hlt. unfold WINDOW_BITS in *.
  destruct (bits_spec s Hs) as [Hb [Hlo Hhi]].
  assert (Hwpos : 0 < windows) by lia.
  split; [exact Hwpos|].
  rewrite get_substring_spec by lia. rewrite Z.abs_eq by lia.
  rewrite pow8 by lia. change (2 ^ 3) with 8.
  assert (Hp : 0 < 8 ^ (windows - 1)) by (apply Z.pow_pos_nonneg; lia).
  assert (Hle : 8 ^ (windows - 1) <= s).
  { rewrite <- pow8 by lia.
    apply Z.le_trans with (2 ^ (BigInt.bits s - 1)); [|exact Hlo].
    apply Z.pow_le_mono_r; lia. }
  assert (Hlt8 : s < 8 * 8 ^ (windows - 1)).
  { rewrite <- Z.pow_succ_r by lia. replace (Z.succ (windows - 1)) with windows by lia.
    rewrite <- pow8 by lia. exact Hlt. }
  assert (1 <= s / 8 ^ (windows - 1)) by (apply Z.div_le_lower_bound; lia).
  assert (s / 8 ^ (windows - 1) < 8) by (apply Z.div_lt_upper_bound; lia).
  rewrite Z.mod_small by lia. lia.
Qed.

(** X3: the window loop of the fixed-base [mul] runs at least once and the
    digit of its first (topmost) window is never zero, seeded or not: the
    condition of [BOTAN_DEBUG_ASSERT(w != 0)] always holds. *)
Theorem base_mul_top_window_is_nonzero (k n : Z) (rng : RandomNumberGenerator) :
  0 < n ->
  let s := fst (base_scalar {| get_modulus := n |} k n rng) in
  let windows := round_up (BigInt.bits s) WINDOW_BITS / WINDOW_BITS in
  0 < windows /\
  BigInt.get_substring s (WINDOW_BITS * (windows - 1)) WINDOW_BITS <> 0.
Proof.
  intros Hn s. apply top_window_nonzero.
  pose proof (base_scalar_bounds k n rng Hn) as [H _]. fold s in H. lia.
Qed.

(** X4: when group_order is at most one bit longer than p and the engine
    was built with the reducer of that group_order, the number of windows
    of the blinded or padded scalar never exceeds the T_bits windows the
    constructor precomputed. *)
Theorem base_mul_windows_fit_the_table (base : PointGFp) (k n : Z)
        (rng : RandomNumberGenerator) :
  0 < n ->
  BigInt.bits n <= BigInt.bits (get_p (get_curve base)) + 1 ->
  let r := {| get_modulus := n |} in
  let s := fst (base_scalar r k n rng) in
  round_up (BigInt.bits s) WINDOW_BITS / WINDOW_BITS <= base_T_bits base r.
Proof.
  intros Hn Hbits r s.
  pose proof (base_scalar_bounds k n rng Hn) as [Hs Hb]. fold r s in Hs, Hb.
  destruct (windows_cover s WINDOW_BITS ltac:(reflexivity) ltac:(lia)) as (Hw0 & Hw & _).
  unfold base_T_bits. cbn [get_modulus r].
  pose proof (bits_nonneg (get_p (get_curve base))).
  pose proof (blinding_size_nonneg n).
  destruct (round_up_spec (BigInt.bits (get_p (get_curve base)) + blinding_size n + 1) WINDOW_BITS
                          ltac:(reflexivity) ltac:(lia)) as [Hr He].
  unfold WINDOW_BITS in *. lia.
Qed.

Lemma collect_first_fails {A : Type} (m : outcome A) (l : list (outcome A)) (f : failure) :
  m = Fail f -> collect (m :: l) = Fail f.
Proof. intros ->. reflexivity. Qed.

(** X5: on a table of Tb windows (7 * Tb entries of 2 * p_words words), a
    scalar that needs more than 7 * Tb / 3 windows fails the assertion, and
    one that needs more than Tb but at most 7 * Tb / 3 windows passes it
    and reads the table past its end in the first iteration. *)
Theorem base_mul_scalar_beyond_the_table (E : PointGFp_Base_Point_Precompute) (Tb s : Z)
        (rng : RandomNumberGenerator) :
  0 < m_p_words E -> 0 <= Tb ->
  Z.of_nat (length (m_W E)) = WINDOW_SIZE * Tb * (2 * m_p_words E) ->
  let windows := round_up (BigInt.bits s) WINDOW_BITS / WINDOW_BITS in
  (WINDOW_SIZE * Tb / 3 < windows ->
   base_mul_scalar E s rng = (Fail Assertion_Failure, rng)) /\
  (Tb < windows <= WINDOW_SIZE * Tb / 3 ->
   base_mul_scalar E s rng = (Fail Out_Of_Bounds, rng)).
Proof.
  intros Hpw HTb Hlen windows.
  assert (Hbound : Z.of_nat (length (m_W E)) / (3 * (2 * m_p_words E)) = WINDOW_SIZE * Tb / 3).
  { rewrite Hlen. rewrite (Z.mul_comm 3 (2 * m_p_words E)).
    rewrite <- Z.div_div by lia. rewrite Z.div_mul by lia. reflexivity. }
  unfold base_mul_scalar. cbv zeta. fold windows. rewrite Hbound.
  split.
  - intros Hw. destruct (Z.leb_spec windows (WINDOW_SIZE * Tb / 3)); [lia|]. reflexivity.
  - intros [Hlo Hhi]. destruct (Z.leb_spec windows (WINDOW_SIZE * Tb / 3)); [|lia].
    cbn [negb].
    destruct (Z.to_nat windows) as [|n] eqn:Hn; [lia|].
    cbn [base_mul_loop]. cbv zeta.
    replace (windows - 0 - 1) with (windows - 1) by lia.
    set (elem := 2 * m_p_words E).
    assert (Hsel : base_select (m_W E) (WINDOW_SIZE * (windows - 1) * elem) elem
                     (BigInt.get_substring s (WINDOW_BITS * (windows - 1)) WINDOW_BITS)
                   = Fail Out_Of_Bounds).
    { unfold base_select, zrange.
      destruct (Z.to_nat elem) as [|m] eqn:Hm; [subst elem; lia|].
      cbn [seq map]. apply collect_first_fails.
      unfold base_select_word.
      assert (Hread : read (m_W E) (WINDOW_SIZE * (windows - 1) * elem + 0 * elem + Z.of_nat 0)
                      = Fail Out_Of_Bounds).
      { unfold read.
        destruct (Z.ltb_spec (WINDOW_SIZE * (windows - 1) * elem + 0 * elem + Z.of_nat 0) 0).
        - reflexivity.
        - destruct (nth_error (m_W E) _) eqn:Hnth; [|reflexivity].
          exfalso.
          assert (Hsome : nth_error (m_W E)
                    (Z.to_nat (WINDOW_SIZE * (windows - 1) * elem + 0 * elem + Z.of_nat 0)) <> None)
            by congruence.
          apply nth_error_Some in Hsome.
          unfold WINDOW_SIZE in *. subst elem. nia. }
      rewrite Hread. reflexivity. }
    rewrite Hsel. reflexivity.
Qed.

End ScalarProperties.

(** ** The oblivious lookups *)

Section SelectProperties.

Context {PA : PointArith}.

Lemma map_const_zrange (n : nat) :
  map (fun _ : Z => 0) (zrange (Z.of_nat n)) = repeat 0 n.
Proof.
  unfold zrange. rewrite Nat2Z.id, map_map.
  generalize 0%nat. induction n as [|n IH]; intros a; cbn [seq map repeat]; [reflexivity|].
  now rewrite IH.
Qed.

(** X6: on a flat table of affine entries, the masked scan of a window
    returns all-zero words for the window value 0 and exactly the words of
    entry 7 * window + w - 1 for a window value w in 1..7. *)
Theorem base_select_returns_the_entry (T : list PointGFp) (n : nat) (window w : Z) :
  (0 < n)%nat -> 0 <= window -> 7 * window + 7 <= Z.of_nat (length T) -> 0 <= w < 8 ->
  let W := flat_map (affine_words n) T in
  let elem_size := 2 * Z.of_nat n in
  (w = 0 ->
   base_select W (WINDOW_SIZE * window * elem_size) elem_size w = Ok (repeat 0 (2 * n))) /\
  (forall Q, w <> 0 -> nth_error T (Z.to_nat (7 * window + (w - 1))) = Some Q ->
             base_select W (WINDOW_SIZE * window * elem_size) elem_size w
             = Ok (affine_words n Q)).
Proof.
  intros Hn Hwin Hlen Hw W elem_size.
  set (d := {| m_curve := {| get_p := 0; get_a := 0; get_b := 0 |};
               m_coord_x := 0; m_coord_y := 0; m_coord_z := 0 |}).
  assert (Hentry : forall c, 0 <= c < 7 ->
             nth_error T (Z.to_nat (7 * window + c)) = Some (nth (Z.to_nat (7 * window + c)) T d)).
  { intros c Hc. apply nth_error_nth'. lia. }
  set (Q c := nth (Z.to_nat (7 * window + c)) T d).
  set (aw := affine_words n).
  assert (Hread : forall c j, 0 <= c < 7 -> 0 <= j < elem_size ->
             read W (WINDOW_SIZE * window * elem_size + c * elem_size + j)
             = Ok (nth (Z.to_nat j) (aw (Q c)) 0)).
  { intros c j Hc Hj. subst W elem_size.
    replace (WINDOW_SIZE * window * (2 * Z.of_nat n) + c * (2 * Z.of_nat n) + j)
      with ((7 * window + c) * Z.of_nat (2 * n) + j)
      by (unfold WINDOW_SIZE; lia).
    apply read_chunk; try lia.
    - intros; apply length_affine_words.
    - apply Hentry; lia. }
  assert (Hsel : forall j, In j (zrange elem_size) ->
            base_select_word W (WINDOW_SIZE * window * elem_size) elem_size w j =
            Ok (nth (Z.to_nat w)
                    [0; nth (Z.to_nat j) (aw (Q 0)) 0; nth (Z.to_nat j) (aw (Q 1)) 0;
                     nth (Z.to_nat j) (aw (Q 2)) 0; nth (Z.to_nat j) (aw (Q 3)) 0;
                     nth (Z.to_nat j) (aw (Q 4)) 0; nth (Z.to_nat j) (aw (Q 5)) 0;
                     nth (Z.to_nat j) (aw (Q 6)) 0] 0)).
  { intros j Hj. apply in_zrange in Hj.
    apply base_select_word_spec; try assumption;
      try (apply Hread; lia).
    repeat constructor; apply nth_in_range, affine_words_range. }
  unfold base_select. rewrite (collect_map_ok _ _ _ Hsel).
  assert (Hlen' : forall P, elem_size = Z.of_nat (length (aw P))).
  { intros P. subst aw elem_size. rewrite length_affine_words. lia. }
  split.
  - intros ->. cbn [Z.to_nat nth]. subst elem_size.
    replace (2 * Z.of_nat n) with (Z.of_nat (2 * n)) by lia.
    now rewrite map_const_zrange.
  - intros P Hnz HP.
    assert (HPQ : P = Q (w - 1)).
    { subst Q. cbv beta. rewrite (Hentry (w - 1)) in HP by lia. congruence. }
    assert (w = 1 \/ w = 2 \/ w = 3 \/ w = 4 \/ w = 5 \/ w = 6 \/ w = 7) as Hcases by lia.
    f_equal.
    destruct Hcases as [-> | [-> | [-> | [-> | [-> | [-> | ->]]]]]];
      cbn [Z.to_nat Pos.to_nat Pos.iter_op Nat.add nth]; rewrite HPQ;
      match goal with
      | |- map _ _ = aw ?R => rewrite (Hlen' R); apply (map_nth_zrange (aw R) 0)
      end.
Qed.

(** X10: on a flat table of 16 Jacobian entries, the masked scan returns
    exactly the words of entry w for a nibble w in 1..15, and all-zero
    words for the nibble 0: entry 0 of the table is never read. *)
Theorem var_select_returns_the_entry (U : list PointGFp) (n : nat) (w : Z) :
  (0 < n)%nat -> length U = 16%nat -> 0 <= w < 16 ->
  let T := flat_map (jacobian_words n) U in
  let elem_size := 3 * Z.of_nat n in
  (w = 0 -> var_select T elem_size (Z.shiftl 1 4) w = Ok (repeat 0 (3 * n))) /\
  (forall Q, w <> 0 -> nth_error U (Z.to_nat w) = Some Q ->
             var_select T elem_size (Z.shiftl 1 4) w = Ok (jacobian_words n Q)).
Proof.
  intros Hn HlenU Hw T elem_size. change (Z.shiftl 1 4) with 16.
  set (d := {| m_curve := {| get_p := 0; get_a := 0; get_b := 0 |};
               m_coord_x := 0; m_coord_y := 0; m_coord_z := 0 |}).
  set (jw := jacobian_words n).
  assert (Hsel : forall j, In j (zrange elem_size) ->
             var_select_word T elem_size w j (tl (zrange 16)) 0 =
             Ok (if w =? 0 then 0
                 else nth (Z.to_nat j) (jw (nth (Z.to_nat w) U d)) 0)).
  { intros j Hj. apply in_zrange in Hj.
    change (tl (zrange 16)) with [1; 2; 3; 4; 5; 6; 7; 8; 9; 10; 11; 12; 13; 14; 15].
    rewrite (var_select_word_fold _ _ _ _
               (fun i => nth (Z.to_nat j) (jw (nth (Z.to_nat i) U d)) 0)).
    - now rewrite fold_select.
    - intros i Hi.
      assert (0 <= i < 16) by (cbn [In] in Hi; lia).
      split; [|apply nth_in_range, jacobian_words_range].
      subst T elem_size.
      replace (3 * Z.of_nat n) with (Z.of_nat (3 * n)) by lia.
      apply read_chunk; try lia.
      + intros; apply length_jacobian_words.
      + apply nth_error_nth'. lia. }
  unfold var_select. rewrite (collect_map_ok _ _ _ Hsel).
  split.
  - intros ->. cbn [Z.eqb]. subst elem_size.
    replace (3 * Z.of_nat n) with (Z.of_nat (3 * n)) by lia.
    now rewrite map_const_zrange.
  - intros Q Hnz HQ. destruct (Z.eqb_spec w 0); [contradiction|].
    rewrite (nth_error_nth _ _ d HQ).
    replace elem_size with (Z.of_nat (length (jw Q)))
      by (subst jw elem_size; rewrite length_jacobian_words; lia).
    now rewrite map_nth_zrange.
Qed.

End SelectProperties.

(** ** Use of the random number generator *)

Section GeneratorUse.

Context {PA : PointArith}.

Lemma base_mul_loop_unseeded (E : PointGFp_Base_Point_Precompute) (s windows : Z) (n : nat) :
  forall (i : Z) (R : PointGFp) (rng : RandomNumberGenerator),
    is_seeded rng = false ->
    snd (base_mul_loop E s windows n i R rng) = rng.
Proof.
  induction n as [|n IH]; intros i R rng Hs; cbn [base_mul_loop]; [reflexivity|].
  cbv zeta. destruct (base_select _ _ _ _); [|reflexivity].
  rewrite Hs, andb_false_r. apply IH. exact Hs.
Qed.

(** X9: an unseeded generator is never drawn from: the fixed-base [mul]
    hands it back as it was, whatever the outcome, and so does the
    variable-point constructor, whose table is then the plain encoding of
    the multiples, with no rescaling. *)
Theorem unseeded_generator_is_never_drawn (E : PointGFp_Base_Point_Precompute) (P : PointGFp)
        (k group_order : Z) (rng : RandomNumberGenerator) :
  is_seeded rng = false ->
  snd (base_mul E k rng group_order) = rng /\
  snd (var_precompute P rng) = rng /\
  (forall U, var_table P 4 = Ok U ->
             fst (var_precompute P rng) =
             (T <- encode_jacobian_table U (BigInt.sig_words (get_p (get_curve P))) ;;
              Ok {| var_m_curve := get_curve P;
                    var_m_p_words := BigInt.sig_words (get_p (get_curve P));
                    m_window_bits := 4; m_T := T |})).
Proof.
  intros Hs. split; [|split].
  - unfold base_mul. destruct (BigInt.is_negative k); [reflexivity|].
    unfold base_scalar. rewrite Hs. unfold base_mul_scalar. cbv zeta.
    destruct (negb _); [reflexivity|]. now apply base_mul_loop_unseeded.
  - unfold var_precompute. cbv zeta. destruct (var_table P 4); [|reflexivity].
    rewrite Hs. reflexivity.
  - intros U HU. unfold var_precompute. cbv zeta. rewrite HU, Hs. reflexivity.
Qed.

Lemma random_bits_position (rng : RandomNumberGenerator) (bs : Z) (h : bool) :
  rng_position (snd (random_bits rng bs h)) =
  if bs <=? 0 then rng_position rng else S (rng_position rng).
Proof. unfold random_bits. destruct (bs <=? 0); reflexivity. Qed.

Lemma randomize_repr_position (R : PointGFp) (rng : RandomNumberGenerator) :
  (rng_position rng <= rng_position (snd (randomize_repr R rng)))%nat.
Proof.
  unfold randomize_repr, random_mask.
  pose proof (random_bits_position rng (BigInt.bits (get_p (m_curve R)) - 1) false) as H.
  destruct (random_bits rng _ false) as [m rng']. cbn [snd] in *.
  rewrite H. destruct (_ <=? 0); lia.
Qed.

(** X12: the variable-point [mul] draws its blinding mask from the
    generator on every call with k >= 0 and group_order > 0, whether the
    generator is seeded or not, and whatever the outcome. *)
Theorem var_mul_always_draws (E : PointGFp_Var_Point_Precompute)
        (k group_order : Z) (rng : RandomNumberGenerator) :
  0 <= k -> 0 < group_order ->
  (rng_position rng < rng_position (snd (var_mul E k rng group_order)))%nat.
Proof.
  intros Hk Hn. unfold var_mul, BigInt.is_negative.
  destruct (Z.ltb_spec k 0); [lia|].
  assert (Hbs1 : 1 <= blinding_size group_order).
  { unfold blinding_size. destruct (bits_spec group_order Hn) as [Hb _].
    apply Z.div_le_lower_bound; lia. }
  pose proof (random_bits_position rng (blinding_size group_order) false) as Hp.
  destruct (random_bits rng (blinding_size group_order) false) as [mask rng1].
  cbn [snd] in Hp. destruct (Z.leb_spec (blinding_size group_order) 0); [lia|].
  cbv zeta. destruct (0 <? _); [|cbn [snd]; lia].
  destruct (var_select _ _ _ _); [|cbn [snd]; lia].
  pose proof (randomize_repr_position
                (var_add_selected E (zero_point (var_m_curve E)) a) rng1) as Hq.
  destruct (randomize_repr _ rng1) as [R2 rng2]. cbn [snd] in *. lia.
Qed.

Lemma var_table_loop_length (n : nat) :
  forall (i : Z) (P : PointGFp) (U U' : list PointGFp),
    var_table_loop n i P U = Ok U' -> length U' = (length U + 2 * n)%nat.
Proof.
  induction n as [|n IH]; intros i P U U' H; cbn [var_table_loop] in H.
  - injection H as <-. lia.
  - destruct (nth_error U (Z.to_nat (i / 2))); [|discriminate].
    destruct (plus (double_of p) P); cbn [bind] in H; [|discriminate].
    apply IH in H. rewrite length_app in H. cbn [length] in H. lia.
Qed.

Lemma var_randomize_draws (curve : CurveGFp) (U : list PointGFp) :
  1 < BigInt.bits (get_p curve) ->
  forall rng,
    snd (var_randomize curve U rng) = Nat.iter (length U) rng_advance rng /\
    length (fst (var_randomize curve U rng)) = length U.
Proof.
  intros Hb. induction U as [|Q U IH]; intros rng; cbn [var_randomize]; [auto|].
  unfold random_mask, random_bits.
  destruct (Z.leb_spec (BigInt.bits (get_p curve) - 1) 0); [lia|].
  specialize (IH (rng_advance rng)).
  destruct (var_randomize curve U (rng_advance rng)) as [r rng2]. cbn [fst snd length] in *.
  destruct IH as [-> ->]. split; [|reflexivity].
  symmetry. apply Nat.iter_succ_r.
Qed.

(** X17: with a seeded generator the variable-point constructor draws
    exactly one mask for each of the 15 entries after the first, and
    leaves entry 0, the zero point, as it is. *)
Theorem var_precompute_seeded_draws_fifteen_masks (P : PointGFp)
        (rng : RandomNumberGenerator) :
  is_seeded rng = true ->
  (exists U, var_table P 4 = Ok U) ->
  1 < BigInt.bits (get_p (get_curve (zero P))) ->
  snd (var_precompute P rng) = Nat.iter 15 rng_advance rng /\
  rng_position (snd (var_precompute P rng)) = (rng_position rng + 15)%nat /\
  exists rest,
    fst (var_precompute P rng) =
    (T <- encode_jacobian_table (zero P :: rest) (BigInt.sig_words (get_p (get_curve P))) ;;
     Ok {| var_m_curve := get_curve P;
           var_m_p_words := BigInt.sig_words (get_p (get_curve P));
           m_window_bits := 4; m_T := T |}) /\
    length rest = 15%nat.
Proof.
  intros Hs (U & HU) Hb.
  assert (Hlen : length U = 16%nat).
  { unfold var_table in HU. apply var_table_loop_length in HU. exact HU. }
  assert (HU0 : exists rest0, U = zero P :: rest0 /\ length rest0 = 15%nat).
  { unfold var_table in HU. change (Z.to_nat ((Z.shiftl 1 4 - 2) / 2)) with 7%nat in HU.
    assert (Hpre : forall n i V V', var_table_loop n i P V = Ok V' ->
                                    exists W, V' = V ++ W).
    { induction n as [|n IH]; intros i V V' H; cbn [var_table_loop] in H.
      - injection H as <-. exists []. now rewrite app_nil_r.
      - destruct (nth_error V (Z.to_nat (i / 2))); [|discriminate].
        destruct (plus (double_of p) P); cbn [bind] in H; [|discriminate].
        apply IH in H. destruct H as [W ->]. eexists. now rewrite <- app_assoc. }
    destruct (Hpre _ _ _ _ HU) as [W HW]. subst U. cbn [app] in *.
    eexists. split; [reflexivity|]. cbn [length] in *. lia. }
  destruct HU0 as (rest0 & -> & Hrest).
  unfold var_precompute. cbv zeta. rewrite HU, Hs.
  destruct (var_randomize_draws (get_curve (zero P)) rest0 Hb rng) as [Hr Hl].
  destruct (var_randomize (get_curve (zero P)) rest0 rng) as [rest rng'].
  cbn [fst snd] in *. rewrite Hrest in Hr, Hl.
  split; [exact Hr|]. split.
  - rewrite Hr. cbn [Nat.iter nat_rect rng_advance rng_position]. lia.
  - exists rest. split; [reflexivity | exact Hl].
Qed.

End GeneratorUse.

(** ** Points of different curves *)

Section CurveMismatch.

Context {PA : PointArith}.

(** X16: for two points that pass the on-curve check but lie on different
    curves, the multi-scalar constructor fails with the Invalid_Argument of
    [add] at its first mixed addition (y + x), and so does
    [multi_exponentiate], for every pair of scalars. *)
Theorem multi_exponentiate_rejects_different_curves (x y : PointGFp) (z1 z2 : Z) :
  on_the_curve x = true -> on_the_curve y = true ->
  m_curve (mult2 x) = m_curve x -> m_curve (mult2 y) = m_curve y ->
  CurveGFp_eqb (m_curve y) (m_curve x) = false ->
  multi_precompute x y = Fail (Invalid_Argument "cannot add points on different curves") /\
  multi_exponentiate x z1 y z2 = Fail (Invalid_Argument "cannot add points on different curves").
Proof.
  intros Hox Hoy Hcx Hcy Hne.
  assert (H : multi_precompute x y
              = Fail (Invalid_Argument "cannot add points on different curves")).
  { unfold multi_precompute. rewrite Hox, Hoy. cbn [negb orb]. cbv zeta.
    unfold plus at 1. unfold add at 1. rewrite Hcx, CurveGFp_eqb_refl. cbn [negb bind].
    unfold plus at 1. unfold add at 1. rewrite Hcy, CurveGFp_eqb_refl. cbn [negb bind].
    unfold plus at 1. unfold add at 1. rewrite Hne. cbn [negb bind]. reflexivity. }
  split; [exact H|]. unfold multi_exponentiate. rewrite H. reflexivity.
Qed.

End CurveMismatch.

(** ** Properties that rest on the arithmetic contract *)

Section ContractProperties.

Context {PA : PointArith} {G : Type} {AG : AbGroup G}.
Variable cv : CurveGFp.
Variable embed : option (Z * Z) -> G.
Hypothesis laws : PointArithLaws cv embed.

Lemma base_T_bits_nonneg (P : PointGFp) (r : Modular_Reducer) : 0 <= base_T_bits P r.
Proof.
  unfold base_T_bits.
  pose proof (bits_nonneg (get_p (get_curve P))).
  pose proof (blinding_size_nonneg (get_modulus r)).
  destruct (round_up_spec (BigInt.bits (get_p (get_curve P)) + blinding_size (get_modulus r) + 1)
                          WINDOW_BITS ltac:(reflexivity) ltac:(lia)) as [Hr He].
  apply Z.div_pos; [lia | reflexivity].
Qed.

(** X7: with no identity among the points of the table, the fixed-base
    constructor succeeds; [m_W] holds 7 * T_bits entries of 2 * p_words
    words, and entry 7 * window + c - 1 is the affine point (Z = 1) equal to
    c * 8^window applications of [+ P] to the identity, for c = 1..7. *)
Theorem base_table_holds_the_window_multiples (P : PointGFp) (r : Modular_Reducer) :
  valid cv P ->
  (forall T, base_table_loop (Z.to_nat (base_T_bits P r)) P [] = Ok T ->
             Forall (fun Q => is_zero Q = false) T) ->
  exists E,
    base_precompute P r = Ok E /\
    m_base_point E = P /\ m_mod_order E = r /\ m_p_words E = get_p_words cv /\
    Z.of_nat (length (m_W E)) = WINDOW_SIZE * base_T_bits P r * (2 * m_p_words E) /\
    forall window c, 0 <= window < base_T_bits P r -> 1 <= c <= 7 ->
      exists R,
        repeated_add (Z.to_nat (c * 8 ^ window)) P = Ok R /\
        valid cv (base_entry_at E (7 * window + (c - 1))) /\
        point_equal (base_entry_at E (7 * window + (c - 1))) R.
Proof.
  intros HP Hnz.
  destruct (base_precompute_ok cv embed laws P r HP Hnz) as (E & HE & Hmod & Hbase & Hspec).
  exists E. repeat (split; [assumption|]).
  pose proof Hspec as (Hc & Hpw & T & HT & HW).
  pose proof (get_p_words_pos cv embed laws) as Hp.
  pose proof (base_T_bits_nonneg P r) as HTb.
  split; [exact Hpw|]. split.
  - rewrite HW, (length_flat_chunks _ (2 * Z.to_nat (get_p_words cv))).
    + assert (length T = (Z.to_nat (base_T_bits P r) * 7)%nat).
      { rewrite (Forall2_length HT). unfold base_multipliers.
        rewrite (length_flat_chunks _ 7); [now rewrite length_seq | reflexivity]. }
      rewrite Hpw. unfold WINDOW_SIZE. nia.
    + intros; apply length_affine_words.
  - intros window c Hw Hcr.
    destruct (base_entry cv embed (denote embed P) (Z.to_nat (base_T_bits P r)) T window c HT
                         ltac:(lia) Hcr) as (Q & HQ & HvQ & Hz & HdQ).
    assert (Hentry : base_entry_at E (7 * window + (c - 1)) = Q).
    { unfold base_entry_at. rewrite Hbase, (valid_curve cv P HP), Hpw, HW.
      rewrite (slice_chunk _ (2 * Z.to_nat (get_p_words cv)) T _ Q).
      - rewrite (affine_words_x cv Q HvQ), (affine_words_y cv Q HvQ).
        destruct HvQ as (HcQ & _). destruct Q; cbn in *. subst. reflexivity.
      - intros; apply length_affine_words.
      - exact HQ. }
    rewrite Hentry.
    assert (0 < 8 ^ window) by (apply Z.pow_pos_nonneg; lia).
    destruct (repeated_add_ok cv embed laws (Z.to_nat (c * 8 ^ window)) P HP)
      as (R & HR & HvR & HdR).
    exists R. split; [exact HR|]. split; [exact HvQ|].
    apply (denote_point_equal cv embed laws); try assumption.
    rewrite HdQ, HdR. reflexivity.
Qed.

(** The fixed-base [mul] with no assumption on the order of the point. *)
Lemma base_mul_blinded (P : PointGFp) (k n : Z) (rng : RandomNumberGenerator) :
  valid cv P -> 0 <= k -> 0 < n ->
  BigInt.bits n <= BigInt.bits (get_p cv) + 1 ->
  (forall T, base_table_loop (Z.to_nat (base_T_bits P {| get_modulus := n |})) P [] = Ok T ->
             Forall (fun Q => is_zero Q = false) T) ->
  exists E R rng',
    base_precompute P {| get_modulus := n |} = Ok E /\
    base_mul E k rng n = (Ok R, rng') /\
    valid cv R /\
    denote embed R = zmul (fst (base_scalar {| get_modulus := n |} k n rng)) (denote embed P).
Proof.
  intros HP Hk Hn Hbits Hnz.
  destruct (base_precompute_ok cv embed laws P {| get_modulus := n |} HP Hnz)
    as (E & HE & Hmod & Hbase & Hspec).
  pose proof (base_T_bits_cover cv P n HP) as Hcover.
  pose proof (base_scalar_bounds k n rng Hn) as [Hlo Hb].
  exists E. unfold base_mul, BigInt.is_negative.
  destruct (Z.ltb_spec k 0); [lia|].
  rewrite Hmod.
  destruct (base_scalar {| get_modulus := n |} k n rng) as [s rng1]. cbn [fst] in *.
  destruct (base_mul_scalar_ok cv embed laws _ _ E Hspec s rng1 ltac:(lia) ltac:(lia))
    as (R & rng' & HR & Hv & Hd).
  exists R, rng'. auto.
Qed.

(** X8: for an engine built on P with the reducer of modulus group_order,
    with group_order > 0 at most one bit longer than p and no identity
    among the points of the table, and whether or not group_order is the
    order of P, the fixed-base [mul] called with that group_order succeeds
    for every k >= 0 and returns a point of the curve equal to s
    applications of [+ P] to the identity, s being the blinded or padded
    scalar. *)
Theorem base_mul_returns_the_blinded_multiple (P : PointGFp) (k n : Z)
        (rng : RandomNumberGenerator) :
  valid cv P -> 0 <= k -> 0 < n ->
  BigInt.bits n <= BigInt.bits (get_p cv) + 1 ->
  (forall T, base_table_loop (Z.to_nat (base_T_bits P {| get_modulus := n |})) P [] = Ok T ->
             Forall (fun Q => is_zero Q = false) T) ->
  exists E R rng' Q,
    base_precompute P {| get_modulus := n |} = Ok E /\
    base_mul E k rng n = (Ok R, rng') /\
    valid cv R /\
    repeated_add (Z.to_nat (fst (base_scalar {| get_modulus := n |} k n rng))) P = Ok Q /\
    point_equal R Q.
Proof.
  intros HP Hk Hn Hbits Hnz.
  destruct (base_mul_blinded P k n rng HP Hk Hn Hbits Hnz) as (E & R & rng' & HE & HR & Hv & Hd).
  destruct (repeated_add_ok cv embed laws
              (Z.to_nat (fst (base_scalar {| get_modulus := n |} k n rng))) P HP)
    as (Q & HQ & HvQ & HdQ).
  exists E, R, rng', Q. repeat (split; [assumption|]).
  apply (denote_point_equal cv embed laws); try assumption.
  rewrite Hd, HdQ. reflexivity.
Qed.

(** The variable-point [mul] with no assumption on the order of the
    point. *)
Lemma var_mul_blinded (g : G) (E : PointGFp_Var_Point_Precompute)
      (k n : Z) (rng : RandomNumberGenerator) :
  var_engine_spec cv embed g E ->
  0 <= k -> 0 <= n ->
  exists R rng',
    var_mul E k rng n = (Ok R, rng') /\ valid cv R /\
    denote embed R = zmul (k + n * fst (random_bits rng (blinding_size n) false)) g.
Proof.
  intros HE Hk Hn. unfold var_mul, BigInt.is_negative.
  destruct (Z.ltb_spec k 0); [lia|].
  pose proof (random_bits_range rng (blinding_size n) false) as Hm.
  destruct (random_bits rng (blinding_size n) false) as [mask rng1]. cbn [fst] in *.
  cbv zeta.
  assert (Hc : var_m_curve E = cv) by apply HE.
  assert (Hwb : m_window_bits E = 4) by apply HE.
  rewrite Hc, Hwb.
  set (s := k + n * mask).
  assert (Hs : 0 <= s) by (subst s; nia).
  destruct (var_mul_scalar_digits s Hs) as [Hw0 Htop].
  set (windows := round_up (BigInt.bits s) 4 / 4) in *.
  destruct (Z.ltb_spec 0 windows) as [Hpos | Hzero].
  - destruct (var_window_ok cv embed laws g E HE s (windows - 1) (zero_point cv) Hs ltac:(lia)
                            (valid_zero_point cv embed laws))
      as (e & He & Hv & Hda).
    rewrite Hwb in He. rewrite He.
    pose proof (randomize_repr_ok cv embed laws _ rng1 Hv) as [Hv' Ha'].
    destruct (randomize_repr (var_add_selected E (zero_point cv) e) rng1) as [R1 rng2].
    cbn [fst] in *.
    destruct (var_mul_loop_ok cv embed laws g E HE s Hs (Z.to_nat (windows - 1)) (windows - 1) R1
                              ltac:(lia) Hv') as (R' & HR' & HvR' & HdR').
    + unfold denote in *. rewrite Ha', Hda.
      rewrite (denote_zero_point cv embed laws) at 1.
      replace (embed (affine_of (zero_point cv))) with (gzero : G)
        by (symmetry; apply (denote_zero_point cv embed laws)).
      rewrite gadd_0_l. f_equal.
      apply Z.mod_small. split.
      * apply Z.div_pos; [lia | apply Z.pow_pos_nonneg; lia].
      * apply Z.div_lt_upper_bound; [apply Z.pow_pos_nonneg; lia|].
        rewrite Z.mul_comm, <- Z.pow_succ_r by lia.
        replace (Z.succ (windows - 1)) with windows by lia.
        assert (0 < 16 ^ windows) by (apply Z.pow_pos_nonneg; lia).
        destruct (Z_lt_le_dec s (16 ^ windows)); [assumption|].
        assert (1 <= s / 16 ^ windows) by (apply Z.div_le_lower_bound; lia). lia.
    + exists R', rng2. rewrite HR'. split; [reflexivity|].
      split; [exact HvR'|]. exact HdR'.
  - exists (zero_point cv), rng1. split; [reflexivity|].
    split; [apply laws|].
    rewrite (denote_zero_point cv embed laws).
    assert (windows = 0) by lia.
    rewrite H0 in Htop. rewrite Z.pow_0_r, Z.div_1_r in Htop. now rewrite Htop, zmul_0.
Qed.

(** X11: whether or not group_order is the order of P, the variable-point
    [mul] never fails for k >= 0 and returns a point of the curve equal to
    k + group_order * mask applications of [+ P] to the identity, mask being
    the blinding value it draws. *)
Theorem var_mul_returns_the_blinded_multiple (P : PointGFp) (k n : Z)
        (rng_ctor rng : RandomNumberGenerator) :
  valid cv P -> 0 <= k -> 0 <= n ->
  exists E rng1 R rng' Q,
    var_precompute P rng_ctor = (Ok E, rng1) /\
    var_mul E k rng n = (Ok R, rng') /\
    valid cv R /\
    repeated_add (Z.to_nat (k + n * fst (random_bits rng (blinding_size n) false))) P = Ok Q /\
    point_equal R Q.
Proof.
  intros HP Hk Hn.
  destruct (var_precompute_ok cv embed laws P rng_ctor HP) as (E & rng1 & HE & Hspec).
  destruct (var_mul_blinded _ E k n rng Hspec Hk Hn) as (R & rng' & HR & Hv & Hd).
  destruct (repeated_add_ok cv embed laws
              (Z.to_nat (k + n * fst (random_bits rng (blinding_size n) false))) P HP)
    as (Q & HQ & HvQ & HdQ).
  exists E, rng1, R, rng', Q. repeat (split; [assumption|]).
  apply (denote_point_equal cv embed laws); try assumption.
  rewrite Hd, HdQ. reflexivity.
Qed.

Lemma forallb_false_Exists (M : list PointGFp) :
  forallb (fun pt => negb (is_zero pt)) M = false ->
  Exists (fun Q => is_zero Q = true) M.
Proof.
  induction M as [|Q M IH]; [discriminate|].
  cbn [forallb]. intros HM. apply andb_false_iff in HM. destruct HM as [HQ | HM].
  - left. now apply negb_false_iff in HQ.
  - right. auto.
Qed.

Lemma multi_no_infinity (x y : PointGFp) (E : PointGFp_Multi_Point_Precompute) :
  multi_precompute x y = Ok E ->
  m_no_infinity E = false -> length (m_M E) <> 1%nat ->
  Exists (fun Q => is_zero Q = true) (m_M E).
Proof.
  unfold multi_precompute.
  set (fb := forallb (fun pt : PointGFp => negb (is_zero pt))).
  destruct (negb (on_the_curve x) || negb (on_the_curve y)).
  - intros H. injection H as <-. cbn. intros _ Hl. now contradiction Hl.
  - cbv zeta.
    repeat (destruct (plus _ _); cbn [bind]; [|discriminate]).
    intros H. injection H as <-. cbn [m_M m_no_infinity].
    intros Hinf _. rewrite Hinf. now apply forallb_false_Exists.
Qed.

(** X13: on two points that pass the on-curve check, the multi-scalar
    constructor builds 15 entries; entry 4 * b + a - 1 is a point of the
    curve equal to a x + b y, for two-bit a and b not both zero;
    [m_no_infinity] is set exactly when no entry is the identity, and
    every entry then has Z = 1. *)
Theorem multi_table_holds_the_combinations (x y : PointGFp) :
  valid cv x -> valid cv y ->
  on_the_curve x = true -> on_the_curve y = true ->
  exists E,
    multi_precompute x y = Ok E /\
    length (m_M E) = 15%nat /\
    (forall a b, 0 <= a < 4 -> 0 <= b < 4 -> 4 * b + a <> 0 ->
       exists Q A B R,
         nth_error (m_M E) (Z.to_nat (4 * b + a - 1)) = Some Q /\
         repeated_add (Z.to_nat a) x = Ok A /\
         repeated_add (Z.to_nat b) y = Ok B /\
         plus A B = Ok R /\
         valid cv Q /\ point_equal Q R /\
         (m_no_infinity E = true -> m_coord_z Q = 1)) /\
    (m_no_infinity E = true <-> Forall (fun Q => is_zero Q = false) (m_M E)).
Proof.
  intros Hx Hy Hox Hoy.
  destruct (multi_precompute_ok cv embed laws x y Hx Hy Hox Hoy) as (E & HE & Hspec).
  exists E. split; [exact HE|].
  pose proof (Forall2_length Hspec) as Hlen.
  change (length multi_multipliers) with 15%nat in Hlen.
  split; [exact Hlen|]. split.
  - intros a b Ha Hb Hnz.
    destruct (multi_entry cv embed _ _ E Hspec a b Ha Hb Hnz) as (Q & HQ & HvQ & HdQ & Hz).
    destruct (repeated_add_ok cv embed laws (Z.to_nat a) x Hx) as (A & HA & HvA & HdA).
    destruct (repeated_add_ok cv embed laws (Z.to_nat b) y Hy) as (B & HB & HvB & HdB).
    destruct (plus_ok cv embed laws A B HvA HvB) as (R & HR & HvR & HdR).
    exists Q, A, B, R. repeat (split; [assumption|]).
    split; [|exact Hz].
    apply (denote_point_equal cv embed laws); try assumption.
    rewrite HdQ, HdR, HdA, HdB. reflexivity.
  - split.
    + intros Hinf. unfold multi_engine_spec in Hspec.
      revert Hspec. generalize (m_M E) multi_multipliers.
      induction 1 as [|Q ab M ms (_ & _ & Hz) _ IH]; constructor.
      * specialize (Hz Hinf). unfold is_zero, BigInt.is_zero. now rewrite Hz.
      * exact IH.
    + intros Hall. destruct (m_no_infinity E) eqn:Hinf; [reflexivity|].
      exfalso.
      pose proof (multi_no_infinity x y E HE Hinf ltac:(lia)) as Hex.
      apply Exists_exists in Hex. destruct Hex as (Q & HQ & HzQ).
      rewrite Forall_forall in Hall. specialize (Hall Q HQ). congruence.
Qed.

(** X15: for non-negative scalars and two points that group_order sends to
    the identity, [multi_exponentiate] returns a point equal to the sum of
    the two variable-point [mul] results, whatever the states of the
    generators. *)
Theorem multi_exp_agrees_with_var_mul (x y : PointGFp) (z1 z2 n : Z)
        (rcx rcy rx ry : RandomNumberGenerator) :
  valid cv x -> valid cv y ->
  on_the_curve x = true -> on_the_curve y = true ->
  0 <= z1 -> 0 <= z2 -> 0 < n ->
  (exists O, repeated_add (Z.to_nat n) x = Ok O /\ is_zero O = true) ->
  (exists O, repeated_add (Z.to_nat n) y = Ok O /\ is_zero O = true) ->
  exists R Ex Ey rcx' rcy' Rx Ry rx' ry' Q,
    multi_exponentiate x z1 y z2 = Ok R /\
    var_precompute x rcx = (Ok Ex, rcx') /\
    var_precompute y rcy = (Ok Ey, rcy') /\
    var_mul Ex z1 rx n = (Ok Rx, rx') /\
    var_mul Ey z2 ry n = (Ok Ry, ry') /\
    plus Rx Ry = Ok Q /\
    valid cv R /\ point_equal R Q.
Proof.
  intros Hx Hy Hox Hoy Hz1 Hz2 Hn (Ox & HOx & HzOx) (Oy & HOy & HzOy).
  assert (Hordx : zmul n (denote embed x) = gzero).
  { destruct (repeated_add_ok cv embed laws (Z.to_nat n) x Hx) as (O' & HO' & HvO & HdO).
    rewrite HOx in HO'. injection HO' as <-.
    unfold zmul. rewrite <- HdO. now apply (denote_identity cv embed laws). }
  assert (Hordy : zmul n (denote embed y) = gzero).
  { destruct (repeated_add_ok cv embed laws (Z.to_nat n) y Hy) as (O' & HO' & HvO & HdO).
    rewrite HOy in HO'. injection HO' as <-.
    unfold zmul. rewrite <- HdO. now apply (denote_identity cv embed laws). }
  destruct (multi_precompute_ok cv embed laws x y Hx Hy Hox Hoy) as (E & HE & Hspec).
  destruct (multi_exp_magnitudes cv embed laws _ _ E Hspec z1 z2) as (H & HH & HvH & HdH).
  destruct (var_precompute_ok cv embed laws x rcx Hx) as (Ex & rcx' & HEx & Hsx).
  destruct (var_precompute_ok cv embed laws y rcy Hy) as (Ey & rcy' & HEy & Hsy).
  destruct (var_mul_ok cv embed laws _ Ex Hsx z1 n rx Hz1 ltac:(lia) Hordx)
    as (Rx & rx' & HRx & HvRx & HdRx).
  destruct (var_mul_ok cv embed laws _ Ey Hsy z2 n ry Hz2 ltac:(lia) Hordy)
    as (Ry & ry' & HRy & HvRy & HdRy).
  destruct (plus_ok cv embed laws Rx Ry HvRx HvRy) as (Q & HQ & HvQ & HdQ).
  exists H, Ex, Ey, rcx', rcy', Rx, Ry, rx', ry', Q.
  split.
  { unfold multi_exponentiate. rewrite HE. cbn [bind]. rewrite HH.
    unfold BigInt.is_negative.
    destruct (Z.ltb_spec z1 0); [lia|]. destruct (Z.ltb_spec z2 0); [lia|]. reflexivity. }
  repeat (split; [assumption|]).
  apply (denote_point_equal cv embed laws); try assumption.
  rewrite HdH, HdQ, HdRx, HdRy. now rewrite !Z.abs_eq by lia.
Qed.

End ContractProperties.

(** ** Instances on the small curve *)

Section FurtherRuns.

Import Reference Small.

Lemma second_point_valid : valid curve second_point.
Proof. apply validb_iff. reflexivity. Qed.

Lemma small_table_has_no_identity (T : list PointGFp) :
  base_table_loop (Z.to_nat (base_T_bits generator {| get_modulus := 9 |})) generator [] = Ok T ->
  Forall (fun Q => is_zero Q = false) T.
Proof. intros H. vm_compute in H. injection H as <-. repeat constructor. Qed.

Lemma base_scalar_on_the_small_curve :
  0 < 9 /\
  (let s := fst (base_scalar {| get_modulus := 9 |} 25 9 (constant_rng true 13)) in
   s mod 9 = 25 mod 9 /\ 9 <= s /\ BigInt.bits s <= BigInt.bits 9 + blinding_size 9).
Proof.
  assert (H1 : 0 < 9) by lia.
  split; [exact H1|].
  exact (base_scalar_is_congruent_and_bounded 25 9 (constant_rng true 13) H1).
Defined.

Lemma base_mul_top_window_on_the_small_curve :
  0 < 9 /\
  (let s := fst (base_scalar {| get_modulus := 9 |} 0 9 (constant_rng false 0)) in
   let windows := round_up (BigInt.bits s) WINDOW_BITS / WINDOW_BITS in
   0 < windows /\
   BigInt.get_substring s (WINDOW_BITS * (windows - 1)) WINDOW_BITS <> 0).
Proof.
  assert (H1 : 0 < 9) by lia.
  split; [exact H1|].
  exact (base_mul_top_window_is_nonzero 0 9 (constant_rng false 0) H1).
Defined.

Lemma base_mul_windows_on_the_small_curve :
  0 < 9 /\
  BigInt.bits 9 <= BigInt.bits (get_p (get_curve generator)) + 1 /\
  (let r := {| get_modulus := 9 |} in
   let s := fst (base_scalar r 7 9 (constant_rng true 13)) in
   round_up (BigInt.bits s) WINDOW_BITS / WINDOW_BITS <= base_T_bits generator r).
Proof.
  assert (H1 : 0 < 9) by lia.
  assert (H2 : BigInt.bits 9 <= BigInt.bits (get_p (get_curve generator)) + 1)
    by (vm_compute; discriminate).
  split; [exact H1|]. split; [exact H2|].
  exact (base_mul_windows_fit_the_table generator 7 9 (constant_rng true 13) H1 H2).
Defined.

Lemma base_mul_scalar_beyond_the_wide_table :
  0 < m_p_words wide_engine /\ 0 <= 3 /\
  Z.of_nat (length (m_W wide_engine)) = WINDOW_SIZE * 3 * (2 * m_p_words wide_engine) /\
  (let windows := round_up (BigInt.bits 960) WINDOW_BITS / WINDOW_BITS in
   (WINDOW_SIZE * 3 / 3 < windows ->
    base_mul_scalar wide_engine 960 (constant_rng true 15)
    = (Fail Assertion_Failure, constant_rng true 15)) /\
   (3 < windows <= WINDOW_SIZE * 3 / 3 ->
    base_mul_scalar wide_engine 960 (constant_rng true 15)
    = (Fail Out_Of_Bounds, constant_rng true 15))).
Proof.
  assert (H1 : 0 < m_p_words wide_engine) by (vm_compute; reflexivity).
  assert (H2 : 0 <= 3) by lia.
  assert (H3 : Z.of_nat (length (m_W wide_engine))
               = WINDOW_SIZE * 3 * (2 * m_p_words wide_engine)) by (vm_compute; reflexivity).
  split; [exact H1|]. split; [exact H2|]. split; [exact H3|].
  exact (base_mul_scalar_beyond_the_table wide_engine 3 960 (constant_rng true 15) H1 H2 H3).
Defined.

Lemma base_select_on_seven_points :
  (0 < 1)%nat /\ 0 <= 0 /\
  7 * 0 + 7 <= Z.of_nat (length (generator :: repeat second_point 6)) /\
  0 <= 2 < 8 /\
  (let W := flat_map (affine_words 1) (generator :: repeat second_point 6) in
   let elem_size := 2 * Z.of_nat 1 in
   (2 = 0 ->
    base_select W (WINDOW_SIZE * 0 * elem_size) elem_size 2 = Ok (repeat 0 (2 * 1))) /\
   (forall Q, 2 <> 0 ->
              nth_error (generator :: repeat second_point 6) (Z.to_nat (7 * 0 + (2 - 1)))
              = Some Q ->
              base_select W (WINDOW_SIZE * 0 * elem_size) elem_size 2
              = Ok (affine_words 1 Q))).
Proof.
  assert (H1 : (0 < 1)%nat) by lia.
  assert (H2 : 0 <= 0) by lia.
  assert (H3 : 7 * 0 + 7 <= Z.of_nat (length (generator :: repeat second_point 6)))
    by (vm_compute; discriminate).
  assert (H4 : 0 <= 2 < 8) by lia.
  split; [exact H1|]. split; [exact H2|]. split; [exact H3|]. split; [exact H4|].
  exact (base_select_returns_the_entry (generator :: repeat second_point 6) 1 0 2 H1 H2 H3 H4).
Defined.

Lemma var_select_on_sixteen_points :
  (0 < 1)%nat /\ length (generator :: repeat second_point 15) = 16%nat /\ 0 <= 5 < 16 /\
  (let T := flat_map (jacobian_words 1) (generator :: repeat second_point 15) in
   let elem_size := 3 * Z.of_nat 1 in
   (5 = 0 -> var_select T elem_size (Z.shiftl 1 4) 5 = Ok (repeat 0 (3 * 1))) /\
   (forall Q, 5 <> 0 ->
              nth_error (generator :: repeat second_point 15) (Z.to_nat 5) = Some Q ->
              var_select T elem_size (Z.shiftl 1 4) 5 = Ok (jacobian_words 1 Q))).
Proof.
  assert (H1 : (0 < 1)%nat) by lia.
  assert (H2 : length (generator :: repeat second_point 15) = 16%nat) by reflexivity.
  assert (H3 : 0 <= 5 < 16) by lia.
  split; [exact H1|]. split; [exact H2|]. split; [exact H3|].
  exact (var_select_returns_the_entry (generator :: repeat second_point 15) 1 5 H1 H2 H3).
Defined.

Lemma unseeded_generator_on_the_small_curve :
  is_seeded (constant_rng false 0) = false /\
  snd (base_mul base_engine 7 (constant_rng false 0) 9) = constant_rng false 0 /\
  snd (var_precompute generator (constant_rng false 0)) = constant_rng false 0 /\
  (forall U, var_table generator 4 = Ok U ->
             fst (var_precompute generator (constant_rng false 0)) =
             (T <- encode_jacobian_table U (BigInt.sig_words (get_p (get_curve generator))) ;;
              Ok {| var_m_curve := get_curve generator;
                    var_m_p_words := BigInt.sig_words (get_p (get_curve generator));
                    m_window_bits := 4; m_T := T |})).
Proof.
  assert (H1 : is_seeded (constant_rng false 0) = false) by reflexivity.
  split; [exact H1|].
  exact (unseeded_generator_is_never_drawn base_engine generator 7 9 (constant_rng false 0) H1).
Defined.

Lemma var_mul_draws_on_the_small_curve :
  0 <= 7 /\ 0 < 9 /\
  (rng_position (constant_rng false 3)
   < rng_position (snd (var_mul var_engine 7 (constant_rng false 3) 9)))%nat.
Proof.
  assert (H1 : 0 <= 7) by lia.
  assert (H2 : 0 < 9) by lia.
  split; [exact H1|]. split; [exact H2|].
  exact (var_mul_always_draws var_engine 7 9 (constant_rng false 3) H1 H2).
Defined.

Lemma different_curves_on_small_points :
  on_the_curve generator = true /\
  on_the_curve (mk_point {| get_p := 7; get_a := 3; get_b := 4 |} 0 2 1) = true /\
  m_curve (mult2 generator) = m_curve generator /\
  m_curve (mult2 (mk_point {| get_p := 7; get_a := 3; get_b := 4 |} 0 2 1))
  = m_curve (mk_point {| get_p := 7; get_a := 3; get_b := 4 |} 0 2 1) /\
  CurveGFp_eqb (m_curve (mk_point {| get_p := 7; get_a := 3; get_b := 4 |} 0 2 1))
               (m_curve generator) = false /\
  multi_precompute generator (mk_point {| get_p := 7; get_a := 3; get_b := 4 |} 0 2 1)
  = Fail (Invalid_Argument "cannot add points on different curves") /\
  multi_exponentiate generator 2 (mk_point {| get_p := 7; get_a := 3; get_b := 4 |} 0 2 1) 3
  = Fail (Invalid_Argument "cannot add points on different curves").
Proof.
  assert (H1 : on_the_curve generator = true) by reflexivity.
  assert (H2 : on_the_curve (mk_point {| get_p := 7; get_a := 3; get_b := 4 |} 0 2 1) = true)
    by reflexivity.
  assert (H3 : m_curve (mult2 generator) = m_curve generator) by reflexivity.
  assert (H4 : m_curve (mult2 (mk_point {| get_p := 7; get_a := 3; get_b := 4 |} 0 2 1))
               = m_curve (mk_point {| get_p := 7; get_a := 3; get_b := 4 |} 0 2 1))
    by reflexivity.
  assert (H5 : CurveGFp_eqb (m_curve (mk_point {| get_p := 7; get_a := 3; get_b := 4 |} 0 2 1))
                            (m_curve generator) = false) by reflexivity.
  split; [exact H1|]. split; [exact H2|]. split; [exact H3|]. split; [exact H4|].
  split; [exact H5|].
  exact (multi_exponentiate_rejects_different_curves
           generator (mk_point {| get_p := 7; get_a := 3; get_b := 4 |} 0 2 1) 2 3
           H1 H2 H3 H4 H5).
Defined.

Lemma base_table_on_the_small_curve :
  valid curve generator /\
  (forall T,
      base_table_loop (Z.to_nat (base_T_bits generator {| get_modulus := 9 |})) generator []
      = Ok T ->
      Forall (fun Q => is_zero Q = false) T) /\
  exists E,
    base_precompute generator {| get_modulus := 9 |} = Ok E /\
    m_base_point E = generator /\ m_mod_order E = {| get_modulus := 9 |} /\
    m_p_words E = get_p_words curve /\
    Z.of_nat (length (m_W E))
    = WINDOW_SIZE * base_T_bits generator {| get_modulus := 9 |} * (2 * m_p_words E) /\
    forall window c,
      0 <= window < base_T_bits generator {| get_modulus := 9 |} -> 1 <= c <= 7 ->
      exists R,
        repeated_add (Z.to_nat (c * 8 ^ window)) generator = Ok R /\
        valid curve (base_entry_at E (7 * window + (c - 1))) /\
        point_equal (base_entry_at E (7 * window + (c - 1))) R.
Proof.
  assert (H1 : valid curve generator) by exact generator_valid.
  assert (H2 : forall T,
             base_table_loop (Z.to_nat (base_T_bits generator {| get_modulus := 9 |}))
                             generator [] = Ok T ->
             Forall (fun Q => is_zero Q = false) T) by exact small_table_has_no_identity.
  split; [exact H1|]. split; [exact H2|].
  exact (base_table_holds_the_window_multiples curve embed small_laws generator
                                               {| get_modulus := 9 |} H1 H2).
Defined.

Lemma base_mul_blinded_on_the_small_curve :
  valid curve generator /\ 0 <= 7 /\ 0 < 9 /\
  BigInt.bits 9 <= BigInt.bits (get_p curve) + 1 /\
  (forall T,
      base_table_loop (Z.to_nat (base_T_bits generator {| get_modulus := 9 |})) generator []
      = Ok T ->
      Forall (fun Q => is_zero Q = false) T) /\
  exists E R rng' Q,
    base_precompute generator {| get_modulus := 9 |} = Ok E /\
    base_mul E 7 (constant_rng true 13) 9 = (Ok R, rng') /\
    valid curve R /\
    repeated_add (Z.to_nat (fst (base_scalar {| get_modulus := 9 |} 7 9 (constant_rng true 13))))
                 generator = Ok Q /\
    point_equal R Q.
Proof.
  assert (H1 : valid curve generator) by exact generator_valid.
  assert (H2 : 0 <= 7) by lia.
  assert (H3 : 0 < 9) by lia.
  assert (H4 : BigInt.bits 9 <= BigInt.bits (get_p curve) + 1) by (vm_compute; discriminate).
  assert (H5 : forall T,
             base_table_loop (Z.to_nat (base_T_bits generator {| get_modulus := 9 |}))
                             generator [] = Ok T ->
             Forall (fun Q => is_zero Q = false) T) by exact small_table_has_no_identity.
  split; [exact H1|]. split; [exact H2|]. split; [exact H3|]. split; [exact H4|].
  split; [exact H5|].
  exact (base_mul_returns_the_blinded_multiple curve embed small_laws generator 7 9
                                               (constant_rng true 13) H1 H2 H3 H4 H5).
Defined.

Lemma var_mul_blinded_on_the_small_curve :
  valid curve generator /\ 0 <= 0 /\ 0 <= 3 /\
  exists E rng1 R rng' Q,
    var_precompute generator (constant_rng true 5) = (Ok E, rng1) /\
    var_mul E 0 (constant_rng true 1) 3 = (Ok R, rng') /\
    valid curve R /\
    repeated_add (Z.to_nat (0 + 3 * fst (random_bits (constant_rng true 1)
                                                     (blinding_size 3) false)))
                 generator = Ok Q /\
    point_equal R Q.
Proof.
  assert (H1 : valid curve generator) by exact generator_valid.
  assert (H2 : 0 <= 0) by lia.
  assert (H3 : 0 <= 3) by lia.
  split; [exact H1|]. split; [exact H2|]. split; [exact H3|].
  exact (var_mul_returns_the_blinded_multiple curve embed small_laws generator 0 3
           (constant_rng true 5) (constant_rng true 1) H1 H2 H3).
Defined.

Lemma multi_table_on_the_small_curve :
  valid curve generator /\ valid curve second_point /\
  on_the_curve generator = true /\ on_the_curve second_point = true /\
  exists E,
    multi_precompute generator second_point = Ok E /\
    length (m_M E) = 15%nat /\
    (forall a b, 0 <= a < 4 -> 0 <= b < 4 -> 4 * b + a <> 0 ->
       exists Q A B R,
         nth_error (m_M E) (Z.to_nat (4 * b + a - 1)) = Some Q /\
         repeated_add (Z.to_nat a) generator = Ok A /\
         repeated_add (Z.to_nat b) second_point = Ok B /\
         plus A B = Ok R /\
         valid curve Q /\ point_equal Q R /\
         (m_no_infinity E = true -> m_coord_z Q = 1)) /\
    (m_no_infinity E = true <-> Forall (fun Q => is_zero Q = false) (m_M E)).
Proof.
  assert (H1 : valid curve generator) by exact generator_valid.
  assert (H2 : valid curve second_point) by exact second_point_valid.
  assert (H3 : on_the_curve generator = true) by reflexivity.
  assert (H4 : on_the_curve second_point = true) by reflexivity.
  split; [exact H1|]. split; [exact H2|]. split; [exact H3|]. split; [exact H4|].
  exact (multi_table_holds_the_combinations curve embed small_laws generator second_point
                                            H1 H2 H3 H4).
Defined.

Lemma multi_exponentiate_signs_on_the_small_curve :
  valid curve generator /\ valid curve second_point /\
  on_the_curve generator = true /\ on_the_curve second_point = true /\
  exists H A B Q,
    multi_exponentiate generator (-1) second_point 1 =
      Ok (if negb (Bool.eqb (BigInt.is_negative (-1)) (BigInt.is_negative 1))
          then negate H else H) /\
    repeated_add (Z.to_nat (Z.abs (-1))) generator = Ok A /\
    repeated_add (Z.to_nat (Z.abs 1)) second_point = Ok B /\
    plus A B = Ok Q /\
    valid curve H /\ point_equal H Q.
Proof.
  assert (H1 : valid curve generator) by exact generator_valid.
  assert (H2 : valid curve second_point) by exact second_point_valid.
  assert (H3 : on_the_curve generator = true) by reflexivity.
  assert (H4 : on_the_curve second_point = true) by reflexivity.
  split; [exact H1|]. split; [exact H2|]. split; [exact H3|]. split; [exact H4|].
  exact (multi_exponentiate_sign_magnitude curve embed small_laws generator second_point
                                           (-1) 1 H1 H2 H3 H4).
Defined.

Lemma multi_exp_agrees_on_the_small_curve :
  valid curve generator /\ valid curve second_point /\
  on_the_curve generator = true /\ on_the_curve second_point = true /\
  0 <= 2 /\ 0 <= 3 /\ 0 < 9 /\
  (exists O, repeated_add (Z.to_nat 9) generator = Ok O /\ is_zero O = true) /\
  (exists O, repeated_add (Z.to_nat 9) second_point = Ok O /\ is_zero O = true) /\
  exists R Ex Ey rcx' rcy' Rx Ry rx' ry' Q,
    multi_exponentiate generator 2 second_point 3 = Ok R /\
    var_precompute generator (constant_rng true 5) = (Ok Ex, rcx') /\
    var_precompute second_point (constant_rng false 0) = (Ok Ey, rcy') /\
    var_mul Ex 2 (constant_rng true 13) 9 = (Ok Rx, rx') /\
    var_mul Ey 3 (constant_rng true 1) 9 = (Ok Ry, ry') /\
    plus Rx Ry = Ok Q /\
    valid curve R /\ point_equal R Q.
Proof.
  assert (H1 : valid curve generator) by exact generator_valid.
  assert (H2 : valid curve second_point) by exact second_point_valid.
  assert (H3 : on_the_curve generator = true) by reflexivity.
  assert (H4 : on_the_curve second_point = true) by reflexivity.
  assert (H5 : 0 <= 2) by lia.
  assert (H6 : 0 <= 3) by lia.
  assert (H7 : 0 < 9) by lia.
  assert (H8 : exists O, repeated_add (Z.to_nat 9) generator = Ok O /\ is_zero O = true).
  { eexists. split; vm_compute; reflexivity. }
  assert (H9 : exists O, repeated_add (Z.to_nat 9) second_point = Ok O /\ is_zero O = true).
  { eexists. split; vm_compute; reflexivity. }
  split; [exact H1|]. split; [exact H2|]. split; [exact H3|]. split; [exact H4|].
  split; [exact H5|]. split; [exact H6|]. split; [exact H7|]. split; [exact H8|].
  split; [exact H9|].
  exact (multi_exp_agrees_with_var_mul curve embed small_laws generator second_point 2 3 9
           (constant_rng true 5) (constant_rng false 0) (constant_rng true 13)
           (constant_rng true 1) H1 H2 H3 H4 H5 H6 H7 H8 H9).
Defined.

Lemma var_precompute_seeded_on_the_small_curve :
  is_seeded (constant_rng true 5) = true /\
  (exists U, var_table generator 4 = Ok U) /\
  1 < BigInt.bits (get_p (get_curve (zero generator))) /\
  snd (var_precompute generator (constant_rng true 5))
  = Nat.iter 15 rng_advance (constant_rng true 5) /\
  rng_position (snd (var_precompute generator (constant_rng true 5)))
  = (rng_position (constant_rng true 5) + 15)%nat /\
  exists rest,
    fst (var_precompute generator (constant_rng true 5)) =
    (T <- encode_jacobian_table (zero generator :: rest)
                                (BigInt.sig_words (get_p (get_curve generator))) ;;
     Ok {| var_m_curve := get_curve generator;
           var_m_p_words := BigInt.sig_words (get_p (get_curve generator));
           m_window_bits := 4; m_T := T |}) /\
    length rest = 15%nat.
Proof.
  assert (H1 : is_seeded (constant_rng true 5) = true) by reflexivity.
  assert (H2 : exists U, var_table generator 4 = Ok U)
    by (eexists; vm_compute; reflexivity).
  assert (H3 : 1 < BigInt.bits (get_p (get_curve (zero generator))))
    by (vm_compute; reflexivity).
  split; [exact H1|]. split; [exact H2|]. split; [exact H3|].
  exact (var_precompute_seeded_draws_fifteen_masks generator (constant_rng true 5) H1 H2 H3).
Defined.

End FurtherRuns.

(** * SPHINCS+ hash addresses *)

Section SphincsAddressProperties.

Import Sphincs.

Ltac eight_words a :=
  destruct a as [l]; cbn [m_address] in *;
  destruct l as [|w0 [|w1 [|w2 [|w3 [|w4 [|w5 [|w6 [|w7 [|]]]]]]]]]; try discriminate.

Ltac split_ranges :=
  repeat match goal with
         | H : Forall _ (_ :: _) |- _ => inversion H; subst; clear H
         end.

Lemma store_be_bytes (w : Z) :
  store_be w = [(w / 2 ^ 24) mod 256; (w / 2 ^ 16) mod 256; (w / 2 ^ 8) mod 256; w mod 256].
Proof.
  unfold store_be. change 255 with (Z.ones 8).
  rewrite !Z.land_ones, !Z.shiftr_div_pow2 by lia. reflexivity.
Qed.

Lemma store_be_range (w : Z) : Forall (fun b => 0 <= b < 256) (store_be w).
Proof.
  rewrite store_be_bytes. repeat constructor; apply Z.mod_pos_bound; lia.
Qed.

Lemma load_store_be (w : Z) : 0 <= w < 2 ^ 32 -> load_be (store_be w) = w.
Proof.
  intros Hw. rewrite store_be_bytes. unfold load_be. cbn [fold_left].
  change (2 ^ 24) with (256 * 256 * 256). change (2 ^ 16) with (256 * 256).
  change (2 ^ 8) with 256. change (2 ^ 32) with (256 * 256 * 256 * 256) in Hw.
  rewrite <- !Z.div_div by lia.
  pose proof (Z.div_mod w 256 ltac:(lia)).
  pose proof (Z.div_mod (w / 256) 256 ltac:(lia)).
  pose proof (Z.div_mod (w / 256 / 256) 256 ltac:(lia)).
  pose proof (Z.mod_pos_bound w 256 ltac:(lia)).
  pose proof (Z.mod_pos_bound (w / 256) 256 ltac:(lia)).
  pose proof (Z.mod_pos_bound (w / 256 / 256) 256 ltac:(lia)).
  assert (0 <= w / 256 / 256 / 256 < 256).
  { split.
    - repeat (apply Z.div_pos; [|lia]). lia.
    - repeat (apply Z.div_lt_upper_bound; [lia|]). lia. }
  rewrite (Z.mod_small (w / 256 / 256 / 256)) by lia.
  pose proof (Z.div_mod (w / 256 / 256) 256 ltac:(lia)). lia.
Qed.

Lemma store_be_inj (v w : Z) :
  0 <= v < 2 ^ 32 -> 0 <= w < 2 ^ 32 -> store_be v = store_be w -> v = w.
Proof.
  intros Hv Hw H. rewrite <- (load_store_be v Hv), <- (load_store_be w Hw). now rewrite H.
Qed.

Lemma app_eq_same_length {A : Type} (l1 l2 r1 r2 : list A) :
  length l1 = length l2 -> l1 ++ r1 = l2 ++ r2 -> l1 = l2 /\ r1 = r2.
Proof.
  revert l2. induction l1 as [|a l1 IH]; intros [|b l2] Hlen H; try discriminate.
  - auto.
  - cbn [app] in H. injection H as -> H. cbn [length] in Hlen.
    destruct (IH l2 ltac:(lia) H) as [-> ->]. auto.
Qed.

Lemma flat_store_be_inj (l1 l2 : list Z) :
  Forall (fun w => 0 <= w < 2 ^ 32) l1 -> Forall (fun w => 0 <= w < 2 ^ 32) l2 ->
  flat_map store_be l1 = flat_map store_be l2 -> l1 = l2.
Proof.
  intros H1. revert l2. induction H1 as [|v l1 Hv _ IH]; intros l2 H2 H.
  - destruct l2 as [|w l2]; [reflexivity|]. discriminate.
  - destruct H2 as [|w l2 Hw H2]; [discriminate|].
    cbn [flat_map] in H.
    apply app_eq_same_length in H; [|reflexivity]. destruct H as [E H].
    f_equal.
    + now apply store_be_inj.
    + now apply IH.
Qed.

Lemma length_flat_store_be (l : list Z) :
  length (flat_map store_be l) = (4 * length l)%nat.
Proof. induction l as [|w l IH]; cbn [flat_map length app store_be]; lia. Qed.

(** X18: [to_bytes] of an address of eight 32-bit words is 32 bytes long,
    holds each word on four bytes, most significant first, and loses
    nothing: two addresses with the same bytes are equal. *)
Theorem to_bytes_is_lossless (a : Sphincs_Address) :
  well_formed a ->
  length (to_bytes a) = 32%nat /\
  Forall (fun b => 0 <= b < 256) (to_bytes a) /\
  (forall i, (i < 8)%nat ->
             load_be (firstn 4 (skipn (4 * i) (to_bytes a))) = array_get (m_address a) i) /\
  (forall b, well_formed b -> to_bytes a = to_bytes b -> a = b).
Proof.
  intros [Hlen Hr]. unfold to_bytes.
  split; [rewrite length_flat_store_be, Hlen; reflexivity|].
  split.
  { apply Forall_forall. intros b Hb. apply in_flat_map in Hb.
    destruct Hb as (w & _ & Hb). pose proof (store_be_range w) as Hs.
    rewrite Forall_forall in Hs. now apply Hs. }
  split.
  - intros i Hi. destruct a as [l]. cbn [m_address] in *.
    destruct l as [|w0 [|w1 [|w2 [|w3 [|w4 [|w5 [|w6 [|w7 [|]]]]]]]]]; try discriminate.
    repeat match goal with
           | H : Forall _ (_ :: _) |- _ => inversion H; subst; clear H
           end.
    do 8 (destruct i as [|i]; [now apply load_store_be|]). lia.
  - intros b [Hlenb Hrb] H. destruct a as [l], b as [l']. cbn [m_address] in *.
    f_equal. now apply flat_store_be_inj.
Qed.

Lemma fold_update_be (l : list Z) (hash : HashFunction) :
  fold_left update_be l hash = hash ++ flat_map store_be l.
Proof.
  revert hash. induction l as [|w l IH]; intros hash; cbn [fold_left flat_map].
  - now rewrite app_nil_r.
  - rewrite IH. unfold update_be. now rewrite <- app_assoc.
Qed.

(** X19: [apply_to_hash] feeds the hash exactly the bytes of [to_bytes],
    32 of them for an address of eight words. *)
Theorem apply_to_hash_absorbs_to_bytes (a : Sphincs_Address) (hash : HashFunction) :
  apply_to_hash a hash = hash ++ to_bytes a /\
  (well_formed a -> length (apply_to_hash a hash) = (length hash + 32)%nat).
Proof.
  unfold apply_to_hash, to_bytes. rewrite fold_update_be. split; [reflexivity|].
  intros [Hlen _]. rewrite length_app, length_flat_store_be, Hlen. reflexivity.
Qed.

Lemma to_uint8_low_byte (w : Z) : to_uint8 w = Z.land w 255.
Proof. unfold to_uint8. change 255 with (Z.ones 8). now rewrite Z.land_ones by lia. Qed.

Lemma compressed_explicit (w0 w1 w2 w3 w4 w5 w6 w7 : Z) (hash : HashFunction) :
  apply_to_hash_compressed {| m_address := [w0; w1; w2; w3; w4; w5; w6; w7] |} hash =
  hash ++ [to_uint8 w0] ++ store_be w2 ++ store_be w3 ++ [to_uint8 w4]
       ++ store_be w5 ++ store_be w6 ++ store_be w7.
Proof.
  unfold apply_to_hash_compressed, update, update_be, array_get.
  cbn [m_address layer_offset tree_offset type_offset keypair_offset chain_offset hash_offset
       Nat.add nth].
  now rewrite <- !app_assoc.
Qed.

(** X20: [apply_to_hash_compressed] feeds the hash 22 bytes: bytes 3,
    8..15, 19 and 20..31 of [to_bytes].  It drops word 1 and the three high
    bytes of the layer and type words; on addresses that agree on word 1
    and have layer and type below 256 it loses nothing. *)
Theorem compressed_form_is_22_bytes (a : Sphincs_Address) (hash : HashFunction) :
  well_formed a ->
  let B := to_bytes a in
  apply_to_hash_compressed a hash =
    hash ++ [nth 3 B 0] ++ firstn 8 (skipn 8 B) ++ [nth 19 B 0] ++ skipn 20 B /\
  length (apply_to_hash_compressed a hash) = (length hash + 22)%nat /\
  (forall b,
      well_formed b ->
      array_get (m_address a) layer_offset < 256 ->
      array_get (m_address b) layer_offset < 256 ->
      array_get (m_address a) type_offset < 256 ->
      array_get (m_address b) type_offset < 256 ->
      array_get (m_address a) tree_offset = array_get (m_address b) tree_offset ->
      apply_to_hash_compressed a hash = apply_to_hash_compressed b hash ->
      a = b).
Proof.
  intros [Hlen Hr] B. subst B. eight_words a.
  rewrite compressed_explicit.
  split; [|split].
  - unfold to_bytes. cbn [m_address flat_map]. rewrite !to_uint8_low_byte.
    unfold store_be. cbn [app nth skipn firstn]. reflexivity.
  - rewrite length_app. unfold store_be. cbn [length app]. lia.
  - intros b [Hlenb Hrb] Hl Hlb Ht Htb Hw1 H.
    destruct b as [l']; cbn [m_address] in *.
    destruct l' as [|v0 [|v1 [|v2 [|v3 [|v4 [|v5 [|v6 [|v7 [|]]]]]]]]]; try discriminate.
    rewrite compressed_explicit in H. apply app_inv_head in H.
    unfold array_get in *.
    cbn [layer_offset type_offset tree_offset nth] in *.
    split_ranges.
    unfold to_uint8 in H.
    rewrite (Z.mod_small w0), (Z.mod_small v0), (Z.mod_small w4), (Z.mod_small v4) in H by lia.
    apply app_eq_same_length in H; [|reflexivity]. destruct H as [E0 H].
    apply app_eq_same_length in H; [|reflexivity]. destruct H as [E2 H].
    apply app_eq_same_length in H; [|reflexivity]. destruct H as [E3 H].
    apply app_eq_same_length in H; [|reflexivity]. destruct H as [E4 H].
    apply app_eq_same_length in H; [|reflexivity]. destruct H as [E5 H].
    apply app_eq_same_length in H; [|reflexivity]. destruct H as [E6 E7].
    injection E0 as ->. injection E4 as ->.
    apply store_be_inj in E2, E3, E5, E6, E7; try assumption.
    subst. reflexivity.
Qed.

Lemma load_be_app (bs cs : list Z) :
  load_be (bs ++ cs) = load_be bs * 256 ^ Z.of_nat (length cs) + load_be cs.
Proof.
  unfold load_be. rewrite fold_left_app.
  generalize (fold_left (fun acc b => acc * 256 + b) bs 0). intros x.
  revert x. induction cs as [|c cs IH]; intros x.
  - cbn. lia.
  - cbn [fold_left length]. rewrite IH, (IH (0 * 256 + c)).
    rewrite Nat2Z.inj_succ, Z.pow_succ_r by lia. lia.
Qed.

(** X21: [set_tree] of a 64-bit value clears word 1, stores the high half
    in word 2 and the low half in word 3, so that bytes 4..15 of
    [to_bytes] are the value on 96 bits, most significant first; the other
    words are kept. *)
Theorem set_tree_stores_64_bits (a : Sphincs_Address) (tree : Z) :
  well_formed a -> 0 <= tree < 2 ^ 64 ->
  let a' := set_tree a tree in
  well_formed a' /\
  array_get (m_address a') 1 = 0 /\
  array_get (m_address a') 2 = tree / 2 ^ 32 /\
  array_get (m_address a') 3 = tree mod 2 ^ 32 /\
  load_be (firstn 12 (skipn 4 (to_bytes a'))) = tree /\
  (forall i, (i < 1 \/ 3 < i)%nat ->
             array_get (m_address a') i = array_get (m_address a) i).
Proof.
  intros [Hlen Hr] Ht a'. subst a'. eight_words a. split_ranges.
  unfold set_tree, to_uint32, array_get.
  cbn [m_address tree_offset Nat.add array_set nth].
  rewrite Z.shiftr_div_pow2 by lia.
  assert (Hhi : 0 <= tree / 2 ^ 32 < 2 ^ 32).
  { split; [apply Z.div_pos; lia|]. apply Z.div_lt_upper_bound; lia. }
  rewrite (Z.mod_small (tree / 2 ^ 32)) by lia.
  pose proof (Z.mod_pos_bound tree (2 ^ 32) ltac:(lia)) as Hlo.
  split; [|split; [reflexivity|split; [reflexivity|split; [reflexivity|split]]]].
  - split; [reflexivity|]. cbn [m_address]. repeat constructor; lia.
  - unfold to_bytes. cbn [m_address flat_map].
    change (skipn 4 (store_be w0 ++ ?l)) with l.
    change (firstn 12 (store_be 0 ++ store_be (tree / 2 ^ 32) ++ store_be (tree mod 2 ^ 32) ++ ?l))
      with (store_be 0 ++ store_be (tree / 2 ^ 32) ++ store_be (tree mod 2 ^ 32)).
    rewrite !load_be_app, !load_store_be by lia.
    change (length (store_be (tree mod 2 ^ 32))) with 4%nat.
    change (length (store_be (tree / 2 ^ 32) ++ store_be (tree mod 2 ^ 32))) with 8%nat.
    change (256 ^ Z.of_nat 4) with (2 ^ 32).
    pose proof (Z.div_mod tree (2 ^ 32) ltac:(lia)). lia.
  - intros i Hi. cbn [m_address].
    destruct i as [|[|[|[|i]]]]; try lia; reflexivity.
Qed.

(** X22: an address built from a type through the setters has the byte
    layout layer, 0, tree (high, low), type, keypair, chain, hash; tree
    height and tree index are the chain and hash words, so that setting one
    overwrites the other. *)
Theorem built_address_layout (type : Sphincs_Address_Type) (layer tree keypair chain hash : Z) :
  let a := set_hash (set_chain (set_keypair (set_tree (set_layer (of_type type) layer) tree)
                                            keypair) chain) hash in
  to_bytes a =
    store_be layer ++ store_be 0 ++ store_be (to_uint32 (Z.shiftr tree 32))
    ++ store_be (to_uint32 tree) ++ store_be (type_value type)
    ++ store_be keypair ++ store_be chain ++ store_be hash /\
  a = set_tree_index (set_tree_height (set_keypair (set_type (set_tree (set_layer
        (of_array [0; 0; 0; 0; 0; 0; 0; 0]) layer) tree) type) keypair) chain) hash /\
  (forall this v v', length (m_address this) = 8%nat ->
     set_chain (set_tree_height this v) v' = set_chain this v' /\
     set_tree_height (set_chain this v) v' = set_tree_height this v' /\
     set_hash (set_tree_index this v) v' = set_hash this v' /\
     set_tree_index (set_hash this v) v' = set_tree_index this v').
Proof.
  intros a. subst a. split; [|split].
  - unfold to_bytes. cbn [m_address flat_map of_type set_type set_layer set_tree set_keypair
                          set_chain set_hash array_set repeat layer_offset tree_offset
                          type_offset keypair_offset chain_offset hash_offset Nat.add].
    rewrite ?app_nil_r. reflexivity.
  - reflexivity.
  - intros this v v' Hlen. eight_words this. repeat split; reflexivity.
Qed.

(** X23: [as_subtree_from] keeps the layer and tree words and zeroes the
    rest; [as_keypair_from] keeps the key pair word too, and its type word
    is that of WotsHash; [copy_keypair_from] is [copy_subtree_from] followed
    by the key pair word, keeps the type, chain and hash words of the
    target, and copying twice changes nothing. *)
Theorem address_copies (other : Sphincs_Address) :
  length (m_address other) = 8%nat ->
  let w := array_get (m_address other) in
  as_subtree_from other = of_array [w 0%nat; w 1%nat; w 2%nat; w 3%nat; 0; 0; 0; 0] /\
  as_keypair_from other = of_array [w 0%nat; w 1%nat; w 2%nat; w 3%nat; 0; w 5%nat; 0; 0] /\
  array_get (m_address (as_keypair_from other)) type_offset = type_value WotsHash /\
  (forall this, length (m_address this) = 8%nat ->
     let v := array_get (m_address this) in
     copy_keypair_from this other = of_array [w 0%nat; w 1%nat; w 2%nat; w 3%nat; v 4%nat; w 5%nat; v 6%nat; v 7%nat] /\
     copy_subtree_from this other = of_array [w 0%nat; w 1%nat; w 2%nat; w 3%nat; v 4%nat; v 5%nat; v 6%nat; v 7%nat] /\
     copy_keypair_from this other
     = set_keypair (copy_subtree_from this other) (array_get (m_address other) keypair_offset) /\
     copy_subtree_from (copy_keypair_from this other) other = copy_keypair_from this other /\
     copy_keypair_from (copy_keypair_from this other) other = copy_keypair_from this other).
Proof.
  intros Hlen w. subst w. eight_words other.
  split; [reflexivity|]. split; [reflexivity|]. split; [reflexivity|].
  intros this Hlent.
  destruct this as [l']; cbn [m_address] in *.
  destruct l' as [|v0 [|v1 [|v2 [|v3 [|v4 [|v5 [|v6 [|v7 [|]]]]]]]]]; try discriminate.
  repeat split; reflexivity.
Qed.

(** *** Instances *)

Lemma fors_type_well_formed : well_formed (of_type ForsTree).
Proof.
  split; [reflexivity|].
  assert (E : m_address (of_type ForsTree) = [0; 0; 0; 0; 3; 0; 0; 0]) by reflexivity.
  rewrite E. repeat constructor; lia.
Qed.

Lemma fors_address_well_formed : well_formed (set_tree (of_type ForsTree) 4294967301).
Proof.
  split; [reflexivity|].
  assert (E : m_address (set_tree (of_type ForsTree) 4294967301) = [0; 0; 1; 5; 3; 0; 0; 0])
    by (vm_compute; reflexivity).
  rewrite E. repeat constructor; lia.
Qed.

Lemma to_bytes_of_a_fors_address :
  well_formed (set_tree (of_type ForsTree) 4294967301) /\
  length (to_bytes (set_tree (of_type ForsTree) 4294967301)) = 32%nat /\
  Forall (fun b => 0 <= b < 256) (to_bytes (set_tree (of_type ForsTree) 4294967301)) /\
  (forall i, (i < 8)%nat ->
             load_be (firstn 4 (skipn (4 * i) (to_bytes (set_tree (of_type ForsTree) 4294967301))))
             = array_get (m_address (set_tree (of_type ForsTree) 4294967301)) i) /\
  (forall b, well_formed b ->
             to_bytes (set_tree (of_type ForsTree) 4294967301) = to_bytes b ->
             set_tree (of_type ForsTree) 4294967301 = b).
Proof.
  assert (H1 : well_formed (set_tree (of_type ForsTree) 4294967301))
    by exact fors_address_well_formed.
  split; [exact H1|].
  exact (to_bytes_is_lossless (set_tree (of_type ForsTree) 4294967301) H1).
Defined.

Lemma compressed_form_of_a_fors_address :
  well_formed (set_tree (of_type ForsTree) 4294967301) /\
  (let B := to_bytes (set_tree (of_type ForsTree) 4294967301) in
   apply_to_hash_compressed (set_tree (of_type ForsTree) 4294967301) [7] =
     [7] ++ [nth 3 B 0] ++ firstn 8 (skipn 8 B) ++ [nth 19 B 0] ++ skipn 20 B /\
   length (apply_to_hash_compressed (set_tree (of_type ForsTree) 4294967301) [7])
   = (length [7] + 22)%nat /\
   (forall b,
       well_formed b ->
       array_get (m_address (set_tree (of_type ForsTree) 4294967301)) layer_offset < 256 ->
       array_get (m_address b) layer_offset < 256 ->
       array_get (m_address (set_tree (of_type ForsTree) 4294967301)) type_offset < 256 ->
       array_get (m_address b) type_offset < 256 ->
       array_get (m_address (set_tree (of_type ForsTree) 4294967301)) tree_offset
       = array_get (m_address b) tree_offset ->
       apply_to_hash_compressed (set_tree (of_type ForsTree) 4294967301) [7]
       = apply_to_hash_compressed b [7] ->
       set_tree (of_type ForsTree) 4294967301 = b)).
Proof.
  assert (H1 : well_formed (set_tree (of_type ForsTree) 4294967301))
    by exact fors_address_well_formed.
  split; [exact H1|].
  exact (compressed_form_is_22_bytes (set_tree (of_type ForsTree) 4294967301) [7] H1).
Defined.

Lemma set_tree_on_a_fors_address :
  well_formed (of_type ForsTree) /\ 0 <= 4294967301 < 2 ^ 64 /\
  (let a' := set_tree (of_type ForsTree) 4294967301 in
   well_formed a' /\
   array_get (m_address a') 1 = 0 /\
   array_get (m_address a') 2 = 4294967301 / 2 ^ 32 /\
   array_get (m_address a') 3 = 4294967301 mod 2 ^ 32 /\
   load_be (firstn 12 (skipn 4 (to_bytes a'))) = 4294967301 /\
   (forall i, (i < 1 \/ 3 < i)%nat ->
              array_get (m_address a') i = array_get (m_address (of_type ForsTree)) i)).
Proof.
  assert (H1 : well_formed (of_type ForsTree)) by exact fors_type_well_formed.
  assert (H2 : 0 <= 4294967301 < 2 ^ 64) by (split; [discriminate | reflexivity]).
  split; [exact H1|]. split; [exact H2|].
  exact (set_tree_stores_64_bits (of_type ForsTree) 4294967301 H1 H2).
Defined.

Lemma copies_of_a_fors_address :
  length (m_address (set_keypair (set_layer (of_type ForsTree) 2) 9)) = 8%nat /\
  (let w := array_get (m_address (set_keypair (set_layer (of_type ForsTree) 2) 9)) in
   as_subtree_from (set_keypair (set_layer (of_type ForsTree) 2) 9)
   = of_array [w 0%nat; w 1%nat; w 2%nat; w 3%nat; 0; 0; 0; 0] /\
   as_keypair_from (set_keypair (set_layer (of_type ForsTree) 2) 9)
   = of_array [w 0%nat; w 1%nat; w 2%nat; w 3%nat; 0; w 5%nat; 0; 0] /\
   array_get (m_address (as_keypair_from (set_keypair (set_layer (of_type ForsTree) 2) 9)))
             type_offset = type_value WotsHash /\
   (forall this, length (m_address this) = 8%nat ->
      let v := array_get (m_address this) in
      copy_keypair_from this (set_keypair (set_layer (of_type ForsTree) 2) 9)
      = of_array [w 0%nat; w 1%nat; w 2%nat; w 3%nat; v 4%nat; w 5%nat; v 6%nat; v 7%nat] /\
      copy_subtree_from this (set_keypair (set_layer (of_type ForsTree) 2) 9)
      = of_array [w 0%nat; w 1%nat; w 2%nat; w 3%nat; v 4%nat; v 5%nat; v 6%nat; v 7%nat] /\
      copy_keypair_from this (set_keypair (set_layer (of_type ForsTree) 2) 9)
      = set_keypair (copy_subtree_from this (set_keypair (set_layer (of_type ForsTree) 2) 9))
                    (array_get (m_address (set_keypair (set_layer (of_type ForsTree) 2) 9))
                               keypair_offset) /\
      copy_subtree_from (copy_keypair_from this (set_keypair (set_layer (of_type ForsTree) 2) 9))
                        (set_keypair (set_layer (of_type ForsTree) 2) 9)
      = copy_keypair_from this (set_keypair (set_layer (of_type ForsTree) 2) 9) /\
      copy_keypair_from (copy_keypair_from this (set_keypair (set_layer (of_type ForsTree) 2) 9))
                        (set_keypair (set_layer (of_type ForsTree) 2) 9)
      = copy_keypair_from this (set_keypair (set_layer (of_type ForsTree) 2) 9))).
Proof.
  assert (H1 : length (m_address (set_keypair (set_layer (of_type ForsTree) 2) 9)) = 8%nat)
    by reflexivity.
  split; [exact H1|].
  exact (address_copies (set_keypair (set_layer (of_type ForsTree) 2) 9) H1).
Defined.

End SphincsAddressProperties.
